(** * image-go-exercice: dispatch and completion signalling of [main.go]

    A shallow embedding of the Go program [src/main.go], the proofs of
    the properties its specification states, and the proofs of further
    properties of the code.

    The program is embedded as terms of a small free monad [M]: every
    statement with an effect (a call into [ioutil], [imaging] or [fmt], an
    operation on the wait group or on the channel) is an action [Act]; a
    [go] statement and the [for ... range ch] loop are constructors of
    their own.  Goroutines are run by an executable interleaving semantics
    [step] over a [State] holding the goroutine pool, the channel, the
    wait-group counter and the log of the actions executed so far.

    The packages the program imports ([ioutil.ReadDir], [filepath.Join]
    and [imaging]) are not part of the repository; they are the fields of
    the class [Env].  The outcome of a call is a function of its arguments:
    the file system is visible only through the log of the calls made.

    One step of a goroutine is one action: a call into a package, a
    [Printf], an operation on the channel or on the wait group, a [go]
    statement, or a receive of the [range] loop.  Goroutines interleave
    between actions, under any schedule.  The program is over when main
    returns, or when a goroutine panics. *)

From Stdlib Require Import ZArith Lia String Ascii Floats.PrimFloat.
From stdpp Require Import base tactics option list.

Open Scope string_scope.
Open Scope Z_scope.

(** ** Data *)

(** [os.FileInfo], as far as the program reads it. *)
Record FileInfo : Type := mkFileInfo {
  Name  : string;
  IsDir : bool
}.

(** The imported packages.  A Go [error] is represented by its message
    ([err.Error()]); a [nil] error by [None]. *)
Class Env : Type := mkEnv {
  Image : Type;
  ioutil_ReadDir    : string -> list FileInfo + string;
  filepath_Join     : string -> string -> string;
  imaging_Open      : string -> Image + string;
  imaging_Grayscale : Image -> Image;
  imaging_Blur      : Image -> float -> Image;
  imaging_Save      : Image -> string -> option string
}.

Section Program.

Context {E : Env}.

(** ** Actions and programs *)

Inductive Act : Type :=
| ReadDir   (path : string)                 (* ioutil.ReadDir(path) *)
| Open      (path : string)                 (* imaging.Open(path) *)
| Grayscale (img : Image)                   (* imaging.Grayscale(img) *)
| Blur      (img : Image) (sigma : float)   (* imaging.Blur(img, sigma) *)
| Save      (img : Image) (path : string)   (* imaging.Save(img, path) *)
| Printf    (text : string)                 (* fmt.Printf / fmt.Println *)
| MakeChan  (capacity : nat)                (* ch := make(chan string, n) *)
| Send      (v : string)                    (* ch <- v *)
| Close                                     (* close(ch) *)
| WgAdd     (n : Z)                         (* wg.Add(n) *)
| WgDone                                    (* wg.Done() *)
| WgWait                                    (* wg.Wait() *)
| Panic     (msg : string).                 (* a run-time panic *)

(** The type of the value an action returns to the program. *)
Definition Res (a : Act) : Type :=
  match a with
  | ReadDir _   => (list FileInfo + string)%type
  | Open _      => (Image + string)%type
  | Grayscale _ => Image
  | Blur _ _    => Image
  | Save _ _    => option string
  | _           => unit
  end.

(** The value an action returns. *)
Definition oracle (a : Act) : Res a :=
  match a return Res a with
  | ReadDir p     => ioutil_ReadDir p
  | Open p        => imaging_Open p
  | Grayscale i   => imaging_Grayscale i
  | Blur i s      => imaging_Blur i s
  | Save i p      => imaging_Save i p
  | Printf _      => tt
  | MakeChan _    => tt
  | Send _        => tt
  | Close         => tt
  | WgAdd _       => tt
  | WgDone        => tt
  | WgWait        => tt
  | Panic _       => tt
  end.

Inductive M (A : Type) : Type :=
| Ret     (a : A)
| Do      (a : Act) (k : Res a -> M A)
| Go      (body : M unit) (k : M A)              (* go body; k *)
| RangeCh (body : string -> M unit) (k : M A).   (* for v := range ch { body v }; k *)

Arguments Ret {A} a.
Arguments Do {A} a k.
Arguments Go {A} body k.
Arguments RangeCh {A} body k.

Fixpoint bind {A B : Type} (m : M A) (f : A -> M B) : M B :=
  match m with
  | Ret a          => f a
  | Do a k         => Do a (fun r => bind (k r) f)
  | Go body k      => Go body (bind k f)
  | RangeCh body k => RangeCh body (bind k f)
  end.

Notation "x <- m ;; k" := (bind m (fun x => k))
  (at level 100, m at next level, right associativity).

(** One action, as a statement. *)
Definition act (a : Act) : M (Res a) := Do a Ret.

(** [go body], as a statement. *)
Definition go (body : M unit) : M unit := Go body (Ret tt).

(** [for v := range ch { body v }], as a statement. *)
Definition range_ch (body : string -> M unit) : M unit := RangeCh body (Ret tt).

(** [for _, x := range l { body x }]. *)
Fixpoint for_each {X : Type} (l : list X) (body : X -> M unit) : M unit :=
  match l with
  | [] => Ret tt
  | x :: l' => _ <- body x ;; for_each l' body
  end.

(** [defer d] at the head of a function whose remaining body is [body]:
    [d] runs when the body returns. *)
Definition defer (d : M unit) (body : M unit) : M unit :=
  _ <- body ;; d.

(** ** The program *)

Definition nl : string := String (ascii_of_nat 10) EmptyString.

Definition blur_sigma : float := 5%float.

(** [applyGrayscaleFilter], main.go lines 14-31. *)
Definition applyGrayscaleFilter (srcPath destPath : string) : M (option string) :=
  r <- act (Open srcPath) ;;
  match r with
  | inr err => Ret (Some err)
  | inl srcImage =>
      grayscaleImage <- act (Grayscale srcImage) ;;
      err <- act (Save grayscaleImage destPath) ;;
      match err with
      | Some e => Ret (Some e)
      | None => Ret None
      end
  end.

(** [applyBlurFilter], main.go lines 34-51. *)
Definition applyBlurFilter (srcPath destPath : string) : M (option string) :=
  r <- act (Open srcPath) ;;
  match r with
  | inr err => Ret (Some err)
  | inl srcImage =>
      blurredImage <- act (Blur srcImage blur_sigma) ;;
      err <- act (Save blurredImage destPath) ;;
      match err with
      | Some e => Ret (Some e)
      | None => Ret None
      end
  end.

(** The item processor: the statements both strategies run for one
    non-directory entry, main.go lines 72-93 and again lines 142-163. *)
Definition processItem (srcPath destPath filter : string) (file : FileInfo) : M unit :=
  let fileName := Name file in
  let srcFilePath := filepath_Join srcPath fileName in
  let destFilePath := filepath_Join destPath fileName in
  _ <- (if String.eqb filter "grayscale" then
          err <- applyGrayscaleFilter srcFilePath destFilePath ;;
          match err with
          | Some e =>
              act (Printf ("Error applying grayscale filter to " ++ fileName ++ ": " ++ e ++ nl))
          | None => Ret tt
          end
        else if String.eqb filter "blur" then
          err <- applyBlurFilter srcFilePath destFilePath ;;
          match err with
          | Some e =>
              act (Printf ("Error applying blur filter to " ++ fileName ++ ": " ++ e ++ nl))
          | None => Ret tt
          end
        else
          act (Printf ("Invalid filter: " ++ filter ++ nl))) ;;
  act (Send fileName).

(** [applyFilters], main.go lines 55-95. *)
Definition applyFilters (srcPath destPath filter : string) : M unit :=
  defer (act WgDone) (
    r <- act (ReadDir srcPath) ;;
    match r with
    | inr err => act (Printf ("Error reading directory: " ++ err ++ nl))
    | inl fileList =>
        for_each fileList (fun file =>
          if IsDir file then Ret tt
          else processItem srcPath destPath filter file)
    end).

(** The goroutine that closes the channel, main.go lines 107-110 and
    168-171. *)
Definition supervisor : M unit :=
  _ <- act WgWait ;;
  act Close.

Definition finished (fileName : string) : string :=
  "Finished processing: " ++ fileName ++ nl.

(** The collector loop, main.go lines 113-115 and 174-176. *)
Definition collector : M unit :=
  range_ch (fun fileName => act (Printf (finished fileName))).

(** [processImagesWithWaitGroup], main.go lines 98-116. *)
Definition processImagesWithWaitGroup (srcPath destPath filter : string) : M unit :=
  _ <- act (MakeChan 0) ;;
  _ <- act (WgAdd 1) ;;
  _ <- go (applyFilters srcPath destPath filter) ;;
  _ <- go supervisor ;;
  collector.

(** The closure of main.go lines 133-164, called with [index]. *)
Definition channelWorker (srcPath destPath filter : string)
    (fileList : list FileInfo) (index : nat) : M unit :=
  defer (act WgDone) (
    match fileList !! index with
    | None => act (Panic "index out of range")
    | Some file =>
        if IsDir file then Ret tt
        else processItem srcPath destPath filter file
    end).

(** [processImagesWithChannel], main.go lines 119-177. *)
Definition processImagesWithChannel (srcPath destPath filter : string) : M unit :=
  r <- act (ReadDir srcPath) ;;
  match r with
  | inr err => act (Printf ("Error reading directory: " ++ err ++ nl))
  | inl fileList =>
      _ <- act (MakeChan (length fileList)) ;;
      _ <- for_each (seq 0 (length fileList)) (fun i =>
             _ <- act (WgAdd 1) ;;
             go (channelWorker srcPath destPath filter fileList i)) ;;
      _ <- go supervisor ;;
      collector
  end.

Definition usage : string :=
  "Usage: imggo -src <source_folder> -dst <destination_folder> -filter <filter_type> -task <task_method>" ++ nl.

(** [main], main.go lines 179-203, from the values of the four flags
    after [flag.Parse]. *)
Definition main (srcPath destPath filter task : string) : M unit :=
  if String.eqb srcPath "" || String.eqb destPath "" ||
     String.eqb filter "" || String.eqb task ""
  then act (Printf usage)
  else if String.eqb task "waitgrp" then
    processImagesWithWaitGroup srcPath destPath filter
  else if String.eqb task "channel" then
    processImagesWithChannel srcPath destPath filter
  else act (Printf ("Invalid task method: " ++ task ++ nl)).

(** ** Interleaving semantics *)

(** The channel [ch]. *)
Record Chan : Type := mkChan {
  cap    : nat;
  buf    : list string;
  closed : bool
}.

Record State : Type := mkState {
  pool     : list (M unit);   (* the goroutines; goroutine 0 is main *)
  chan     : option Chan;     (* [None] before [make] *)
  wg       : Z;               (* the counter of the wait group *)
  log      : list Act;        (* the actions executed, oldest first *)
  panicked : bool
}.

Definition set_pool (p : list (M unit)) (s : State) : State :=
  mkState p (chan s) (wg s) (log s) (panicked s).
Definition set_chan (c : option Chan) (s : State) : State :=
  mkState (pool s) c (wg s) (log s) (panicked s).
Definition set_wg (n : Z) (s : State) : State :=
  mkState (pool s) (chan s) n (log s) (panicked s).
Definition add_log (a : Act) (s : State) : State :=
  mkState (pool s) (chan s) (wg s) (log s ++ [a]) (panicked s).
Definition set_panicked (s : State) : State :=
  mkState (pool s) (chan s) (wg s) (log s) true.

(** One more iteration of a [range] loop, for the received value. *)
Definition iterate (body : string -> M unit) (k : M unit) (v : string) : M unit :=
  _ <- body v ;; RangeCh body k.

(** The first goroutine blocked in a receive, if any. *)
Fixpoint find_receiver (p : list (M unit)) : option (nat * (string -> M unit) * M unit) :=
  match p with
  | [] => None
  | RangeCh body k :: _ => Some (0%nat, body, k)
  | _ :: p' =>
      match find_receiver p' with
      | Some (j, body, k) => Some (S j, body, k)
      | None => None
      end
  end.

Inductive Outcome : Type :=
| Blocked
| Panics
| Next (s : State).

(** The effect of an action on the shared state.

    A send puts the value in the buffer when there is room; without room
    it hands the value to a goroutine waiting in a receive on an empty
    buffer (the only way through an unbuffered channel), and blocks
    otherwise.  A send on a closed channel panics; a send on a channel
    that has not been made blocks.  [close] panics on a closed channel or
    on one that has not been made.  The counter of the wait group may not
    become negative; [wg.Wait()] blocks until it is zero.  The calls into
    the packages and [Printf] only show in the log. *)
Definition exec (a : Act) (s : State) : Outcome :=
  match a with
  | MakeChan n => Next (set_chan (Some (mkChan n [] false)) s)
  | Send v =>
      match chan s with
      | None => Blocked
      | Some c =>
          if closed c then Panics
          else if (length (buf c) <? cap c)%nat then
            Next (set_chan (Some (mkChan (cap c) (buf c ++ [v]) false)) s)
          else
            match buf c, find_receiver (pool s) with
            | [], Some (j, body, k) =>
                Next (set_pool (<[j := iterate body k v]> (pool s)) s)
            | _, _ => Blocked
            end
      end
  | Close =>
      match chan s with
      | None => Panics
      | Some c =>
          if closed c then Panics
          else Next (set_chan (Some (mkChan (cap c) (buf c) true)) s)
      end
  | WgAdd n => if wg s + n <? 0 then Panics else Next (set_wg (wg s + n) s)
  | WgDone => if wg s - 1 <? 0 then Panics else Next (set_wg (wg s - 1) s)
  | WgWait => if wg s =? 0 then Next s else Blocked
  | Panic _ => Panics
  | _ => Next s
  end.

(** The program is over when main has returned. *)
Definition exited (s : State) : bool :=
  match pool s !! 0%nat with
  | Some (Ret _) => true
  | _ => false
  end.

(** Goroutine [i] executes the statement it is at: an action, with the
    value the action returns passed to the rest of the goroutine; a [go]
    statement, which adds a goroutine to the pool; or the receive of a
    [range] loop, which takes the oldest value of the buffer, leaves the
    loop when the channel is closed and empty, and blocks otherwise.
    [None]: the goroutine has returned or is blocked. *)
Definition fire (i : nat) (s : State) : option State :=
  match pool s !! i with
  | None => None
  | Some (Ret _) => None
  | Some (Do a k) =>
      match exec a s with
      | Blocked => None
      | Panics => Some (set_panicked s)
      | Next s' => Some (add_log a (set_pool (<[i := k (oracle a)]> (pool s')) s'))
      end
  | Some (Go body k) => Some (set_pool (<[i := k]> (pool s) ++ [body]) s)
  | Some (RangeCh body k) =>
      match chan s with
      | None => None
      | Some c =>
          match buf c with
          | v :: b =>
              Some (set_pool (<[i := iterate body k v]> (pool s))
                      (set_chan (Some (mkChan (cap c) b (closed c))) s))
          | [] =>
              if closed c then Some (set_pool (<[i := k]> (pool s)) s)
              else None
          end
      end
  end.

(** Goroutine [i] takes one step: nothing runs after a panic or after
    main has returned. *)
Definition step (i : nat) (s : State) : option State :=
  if panicked s || exited s then None else fire i s.

(** A run under a schedule: the goroutine to step, step after step. *)
Fixpoint run (sched : list nat) (s : State) : option State :=
  match sched with
  | [] => Some s
  | i :: sched' =>
      match step i s with
      | Some s' => run sched' s'
      | None => None
      end
  end.

Definition start (prog : M unit) : State :=
  mkState [prog] None 0 [] false.

(** ** What a run shows *)

(** The texts written to the console. *)
Definition console (l : list Act) : list string :=
  omap (fun a => match a with Printf t => Some t | _ => None end) l.

(** The completion events: the values sent on the channel. *)
Definition sent (l : list Act) : list string :=
  omap (fun a => match a with Send v => Some v | _ => None end) l.

Definition is_finished (t : string) : bool :=
  String.prefix "Finished processing: " t.

Definition is_invalid_filter (t : string) : bool :=
  String.prefix "Invalid filter: " t.

(** The paths written: the only action that writes a file is [Save]. *)
Definition written (l : list Act) : list string :=
  omap (fun a => match a with Save _ p => Some p | _ => None end) l.

(** The calls into [imaging]. *)
Definition is_imaging (a : Act) : bool :=
  match a with
  | Open _ | Grayscale _ | Blur _ _ | Save _ _ => true
  | _ => false
  end.

(** The calls that touch the file system. *)
Definition is_file_access (a : Act) : bool :=
  match a with
  | ReadDir _ | Open _ | Save _ _ => true
  | _ => false
  end.

Definition chan_closed (s : State) : bool :=
  match chan s with
  | Some c => closed c
  | None => false
  end.

(** The entries a strategy processes, and their names. *)
Definition eligible (fileList : list FileInfo) : list FileInfo :=
  List.filter (fun f => negb (IsDir f)) fileList.

Definition eligible_names (fileList : list FileInfo) : list string :=
  map Name (eligible fileList).

(** Every run from [init] is finite, no run gets stuck before main has
    returned (in particular no run panics), and [Post] holds when main
    has returned. *)
Definition completes (init : State) (Post : State -> Prop) : Prop :=
  (exists bound : nat,
      forall sched s, run sched init = Some s -> (length sched <= bound)%nat) /\
  (forall sched s, run sched init = Some s ->
      exited s = true \/ exists i s', step i s = Some s') /\
  (forall sched s, run sched init = Some s -> exited s = true ->
      panicked s = false /\ Post s).

(** [P] holds of every state of every run from [init]. *)
Definition always (init : State) (P : State -> Prop) : Prop :=
  forall sched s, run sched init = Some s -> P s.

(** ** The actions a goroutine is about to execute *)

(** The actions of [m], and of the goroutines it starts, when every
    action returns what [oracle] says.  A [range] loop contributes
    nothing: what it does depends on the channel. *)
Fixpoint script {A : Type} (m : M A) : list Act :=
  match m with
  | Ret _ => []
  | Do a k => a :: script (k (oracle a))
  | Go body k => script body ++ script k
  | RangeCh _ k => script k
  end.

(** The value [m] returns. *)
Fixpoint result {A : Type} (m : M A) : A :=
  match m with
  | Ret a => a
  | Do a k => result (k (oracle a))
  | Go _ k => result k
  | RangeCh _ k => result k
  end.

(** [m] is straight-line code: actions only. *)
Fixpoint seqcode {A : Type} (m : M A) : bool :=
  match m with
  | Ret _ => true
  | Do a k => seqcode (k (oracle a))
  | _ => false
  end.

(** The number of steps [m] and the goroutines it starts take, one
    iteration of a [range] loop apart. *)
Fixpoint cost {A : Type} (m : M A) : nat :=
  match m with
  | Ret _ => 0
  | Do a k => S (cost (k (oracle a)))
  | Go body k => S (cost body + cost k)
  | RangeCh _ k => S (cost k)
  end.

(** What a strategy does for one entry of the directory. *)
Definition entry_script (srcPath destPath filter : string) (file : FileInfo) : list Act :=
  if IsDir file then []
  else script (processItem srcPath destPath filter file).

(** The goroutines Strategy B starts, one for every index. *)
Definition channel_workers (srcPath destPath filter : string)
    (fileList : list FileInfo) : list (M unit) :=
  map (channelWorker srcPath destPath filter fileList) (seq 0 (length fileList)).

(** The calls into [imaging], in the order of the log. *)
Definition imaging_calls (l : list Act) : list Act :=
  omap (fun a => if is_imaging a then Some a else None) l.

(** The radius of a call of [imaging.Blur] is the constant. *)
Definition blur_ok (a : Act) : Prop :=
  match a with
  | Blur _ sigma => sigma = blur_sigma
  | _ => True
  end.

(** ** The shape both strategies share

    Both strategies make the channel, start their workers, each after a
    [wg.Add(1)], start the supervisor and collect. *)

Fixpoint spawn_all (bodies : list (M unit)) (rest : M unit) : M unit :=
  match bodies with
  | [] => rest
  | b :: bs => Do (WgAdd 1) (fun _ => Go b (spawn_all bs rest))
  end.

Definition collect : M unit := Go supervisor collector.

Definition dispatch (c : nat) (bodies : list (M unit)) : M unit :=
  Do (MakeChan c) (fun _ => spawn_all bodies collect).

(** The supervisor after [wg.Wait()] has returned. *)
Definition closing : M unit := Do Close Ret.

(** The collector with a received value in hand. *)
Definition printing (v : string) : M unit :=
  iterate (fun fileName => act (Printf (finished fileName))) (Ret tt) v.

(** Main in the collector loop. *)
Definition range_main (m : M unit) : Prop :=
  m = collector \/ exists v, m = printing v.

Definition is_done (a : Act) : bool :=
  match a with WgDone => true | _ => false end.

(** What a worker does before its [wg.Done()]: calls into the packages,
    console lines other than the collector's, and sends. *)
Definition io_send (a : Act) : bool :=
  match a with
  | ReadDir _ | Open _ | Grayscale _ | Blur _ _ | Save _ _ | Send _ => true
  | Printf t => negb (is_finished t)
  | _ => false
  end.

Fixpoint ends_done (l : list Act) : bool :=
  match l with
  | [] => false
  | a :: l' =>
      match l' with
      | [] => is_done a
      | _ => io_send a && ends_done l'
      end
  end.

(** A worker, as it is started. *)
Definition worker_body (b : M unit) : Prop :=
  seqcode b = true /\ ends_done (script b) = true.

(** A worker, at any time. *)
Definition worker (t : M unit) : Prop :=
  seqcode t = true /\ (script t = [] \/ ends_done (script t) = true).

(** 1 for a worker that has not called [wg.Done()] yet. *)
Definition live (t : M unit) : nat :=
  match script t with [] => 0 | _ => 1 end.

Definition lives (ws : list (M unit)) : nat := sum_list_with live ws.

Definition pending (p : list (M unit)) : list Act := concat (map script p).

Definition buffer (s : State) : list string :=
  match chan s with
  | Some c => buf c
  | None => []
  end.

Definition chan_open (s : State) : Prop :=
  exists c, chan s = Some c /\ closed c = false.

Definition finished_line (v : string) : Act := Printf (finished v).

(** The actions executed, the actions still to come, and the lines the
    collector owes to the values sent and not yet printed. *)
Definition account (lg pend : list Act) (b : list string) : list Act :=
  (lg ++ pend ++ map finished_line (sent pend ++ b))%list.

(** The lines of the collector on the console. *)
Definition finished_lines (l : list Act) : list string :=
  List.filter is_finished (console l).

(** The bound on the length of the runs. *)
Definition measure (s : State) : nat :=
  (sum_list_with cost (pool s)
   + 2 * (length (sent (pending (pool s))) + length (buffer s)))%nat.

(** The actions that synchronize the goroutines; the others are what a
    run shows: the calls into the packages, the console lines and the
    completion events. *)
Definition is_sync (a : Act) : bool :=
  match a with
  | MakeChan _ | Close | WgAdd _ | WgDone | WgWait => true
  | _ => false
  end.

(** A log without the actions that synchronize. *)
Definition visible (l : list Act) : list Act :=
  omap (fun a => if is_sync a then None else Some a) l.

(** The report of a failed enumeration. *)
Definition read_error (err : string) : string :=
  "Error reading directory: " ++ err ++ nl.

(** What a strategy does for the entries, in the order of the listing. *)
Definition entries (src dst filter : string) (fl : list FileInfo) : list Act :=
  concat (map (entry_script src dst filter) fl).

(** The names of the batch: nothing when the enumeration fails. *)
Definition batch_names (src : string) : list string :=
  match ioutil_ReadDir src with
  | inl fl => eligible_names fl
  | inr _ => []
  end.

(** What a complete run of either strategy shows, up to the order. *)
Definition expected (src dst filter : string) : list Act :=
  ReadDir src ::
  match ioutil_ReadDir src with
  | inl fl => (entries src dst filter fl
               ++ map finished_line (eligible_names fl))%list
  | inr err => [Printf (read_error err)]
  end.

(** ** More to observe of a run *)

(** The calls of [imaging.Save], with the image saved. *)
Definition saves (l : list Act) : list Act :=
  omap (fun a => match a with Save _ _ => Some a | _ => None end) l.

(** The calls of [imaging.Grayscale] and [imaging.Blur]. *)
Definition transforms (l : list Act) : list Act :=
  omap (fun a => match a with
                 | Grayscale _ | Blur _ _ => Some a
                 | _ => None
                 end) l.

(** The paths opened. *)
Definition opened (l : list Act) : list string :=
  omap (fun a => match a with Open p => Some p | _ => None end) l.

(** The directories listed. *)
Definition listed (l : list Act) : list string :=
  omap (fun a => match a with ReadDir p => Some p | _ => None end) l.

(** The reports of main.go lines 81 and 86 (and 151, 156). *)
Definition grayscale_error (fileName err : string) : string :=
  "Error applying grayscale filter to " ++ fileName ++ ": " ++ err ++ nl.

Definition blur_error (fileName err : string) : string :=
  "Error applying blur filter to " ++ fileName ++ ": " ++ err ++ nl.

(** Every goroutine has returned. *)
Definition all_returned (s : State) : Prop :=
  Forall (fun g => g = Ret tt) (pool s).

(** The actions that synchronize the goroutines, in the order of the
    log. *)
Definition synchronization (l : list Act) : list Act := List.filter is_sync l.

(** What the workers have done, in the order of the log: the calls into
    the packages, the reports and the sends. *)
Definition work (l : list Act) : list Act := List.filter io_send l.

(** ** What the workers are at *)

(** With a single worker [b], which is the goroutine 1 once it is
    started: what the workers have done and what the worker is still to
    do make the script of the worker. *)
Definition in_sequence (b : M unit) (L0 : list Act) (s : State) : Prop :=
  (work (log s) ++ work (script (default b (pool s !! 1%nat))))%list
  = (work L0 ++ work (script b))%list.

(** Goroutine [j + 1] is the worker started from [bodies !! j]; [d] is
    what it has executed of its script. *)
Definition done_part (bodies : list (M unit)) (s : State) (j : nat)
    (d : list Act) : Prop :=
  exists t b, pool s !! S j = Some t /\ bodies !! j = Some b /\
              script b = (d ++ script t)%list.

(** The log and the workers agree: what a worker has executed of its
    script is in the log, and what the log holds of calls, reports and
    sends was executed by a worker, or before the workers were
    started. *)
Definition worked (bodies : list (M unit)) (L0 : list Act) (s : State) : Prop :=
  (forall j t, pool s !! S j = Some t -> (j < length bodies)%nat ->
     exists d, done_part bodies s j d) /\
  (forall j d a, done_part bodies s j d -> a ∈ d -> a ∈ log s) /\
  (forall a, a ∈ log s -> io_send a = true ->
     a ∈ L0 \/ exists j d, done_part bodies s j d /\ a ∈ d).



Section Skeleton.

Variables (c : nat) (bodies : list (M unit)) (L0 : list Act).

Definition sup_at (st : M unit) (ws : list (M unit)) (s : State) : Prop :=
  (st = supervisor /\ chan_open s) \/
  (st = closing /\ chan_open s /\ lives ws = 0%nat) \/
  (st = Ret tt /\ chan_closed s = true /\ lives ws = 0%nat).

Inductive phase (m : M unit) (ws sp : list (M unit)) (s : State) : Prop :=
| ph_make :
    m = dispatch c bodies -> ws = [] -> sp = [] ->
    chan s = None -> wg s = 0 -> phase m ws sp s
| ph_add :
    m = spawn_all (drop (length ws) bodies) collect ->
    (length ws <= length bodies)%nat -> sp = [] ->
    chan_open s -> wg s = Z.of_nat (lives ws) -> phase m ws sp s
| ph_go (b : M unit) :
    bodies !! length ws = Some b ->
    m = Go b (spawn_all (drop (S (length ws)) bodies) collect) -> sp = [] ->
    chan_open s -> wg s = Z.of_nat (lives ws) + 1 -> phase m ws sp s
| ph_range (st : M unit) :
    m = collector \/ (exists v, m = printing v) ->
    length ws = length bodies -> sp = [st] ->
    sup_at st ws s -> wg s = Z.of_nat (lives ws) -> phase m ws sp s
| ph_exit (st : M unit) :
    m = Ret tt ->
    length ws = length bodies -> sp = [st] ->
    sup_at st ws s -> wg s = Z.of_nat (lives ws) ->
    chan_closed s = true -> buffer s = [] -> phase m ws sp s.

Definition cap_ok (s : State) : Prop :=
  match chan s with
  | None => True
  | Some ch =>
      cap ch = c /\ (length (buf ch) <= c)%nat /\
      (c = 0%nat \/ (length (buf ch) + length (sent (pending (pool s))) <= c)%nat)
  end.

Record inv (m : M unit) (ws sp : list (M unit)) (s : State) : Prop := mkInv {
  i_pool    : pool s = m :: ws ++ sp;
  i_nopanic : panicked s = false;
  i_workers : Forall worker ws;
  i_phase   : phase m ws sp s;
  i_cap     : cap_ok s;
  i_account :
    account (log s) (pending (pool s)) (buffer s) ≡ₚ
    account L0 (script (dispatch c bodies)) [];
  i_order   :
    (finished_lines (log s) ++ finished_lines (script m)
       ++ map finished (buffer s))%list = map finished (sent (log s));
  i_single  :
    (length bodies <= 1)%nat ->
    (sent (log s) ++ sent (pending (pool s)))%list
      = (sent L0 ++ sent (script (dispatch c bodies)))%list
}.

Definition Inv (s : State) : Prop := exists m ws sp, inv m ws sp s.

(** The states [dispatch] starts from. *)
Definition dispatch_start (s0 : State) : Prop :=
  pool s0 = [dispatch c bodies] /\ chan s0 = None /\ wg s0 = 0 /\
  log s0 = L0 /\ panicked s0 = false.

End Skeleton.

End Program.

Arguments Ret {E A} a.
Arguments Do {E A} a k.
Arguments Go {E A} body k.
Arguments RangeCh {E A} body k.

Notation "x <- m ;; k" := (bind m (fun x => k))
  (at level 100, m at next level, right associativity).

(** ** A small world to run the program in

    Three directories: [photos] holds two files and a directory, [albums]
    holds a directory only, [d] holds one file; no other directory can be
    listed.  Two of the files decode; every save succeeds. *)

Definition demo_ReadDir (path : string) : list FileInfo + string :=
  if String.eqb path "photos" then
    inl [mkFileInfo "a.png" false; mkFileInfo "sub" true; mkFileInfo "b.txt" false]
  else if String.eqb path "albums" then
    inl [mkFileInfo "2023" true]
  else if String.eqb path "d" then
    inl [mkFileInfo "a.png" false]
  else inr ("open " ++ path ++ ": no such file or directory").

Definition demo_Open (path : string) : string + string :=
  if String.eqb path "photos/a.png" || String.eqb path "d/a.png"
  then inl "pixels"
  else inr "image: unknown format".

Definition demo : Env := {|
  Image := string;
  ioutil_ReadDir := demo_ReadDir;
  filepath_Join := fun dir name => dir ++ "/" ++ name;
  imaging_Open := demo_Open;
  imaging_Grayscale := fun img => "gray(" ++ img ++ ")";
  imaging_Blur := fun img _ => "blur(" ++ img ++ ")";
  imaging_Save := fun _ _ => None
|}.

(** * Proofs *)

Section Scripts.

Context {E : Env}.

Lemma script_bind {A B : Type} (m : M A) (f : A -> M B) :
  script (x <- m ;; f x) = (script m ++ script (f (result m)))%list.
Proof.
  revert B f.
  induction m as [A a | A a k IH | A body _ k IH | A body _ k IH];
    intros B f; simpl.
  - reflexivity.
  - f_equal. apply IH.
  - rewrite IH. by rewrite app_assoc.
  - apply IH.
Qed.

Lemma seqcode_bind {A B : Type} (m : M A) (f : A -> M B) :
  seqcode (x <- m ;; f x) = seqcode m && seqcode (f (result m)).
Proof.
  revert B f.
  induction m as [A a | A a k IH | A body _ k IH | A body _ k IH];
    intros B f; simpl; auto.
Qed.

Lemma result_bind {A B : Type} (m : M A) (f : A -> M B) :
  result (x <- m ;; f x) = result (f (result m)).
Proof.
  revert B f.
  induction m as [A a | A a k IH | A body _ k IH | A body _ k IH];
    intros B f; simpl; auto.
Qed.

Lemma script_for_each {X : Type} (l : list X) (body : X -> M unit) :
  script (for_each l body) = concat (map (fun x => script (body x)) l).
Proof.
  induction l as [| x l IH]; simpl; [done |].
  change (script (_u <- body x ;; for_each l body) = (script (body x) ++ concat (map (fun x => script (body x)) l))%list).
  by rewrite script_bind, IH.
Qed.

Lemma seqcode_for_each {X : Type} (l : list X) (body : X -> M unit) :
  (forall x, seqcode (body x) = true) -> seqcode (for_each l body) = true.
Proof.
  intros Hb. induction l as [| x l IH]; simpl; [done |].
  change (seqcode (_u <- body x ;; for_each l body) = true).
  by rewrite seqcode_bind, Hb, IH.
Qed.

End Scripts.

(** ** Lists of goroutines *)

Section Pools.

Context {E : Env}.

Implicit Types (p ws : list (M unit)) (t : M unit).

Lemma split_at ws j t :
  ws !! j = Some t ->
  ws = (take j ws ++ t :: drop (S j) ws)%list /\
  forall t', <[j := t']> ws = (take j ws ++ t' :: drop (S j) ws)%list.
Proof.
  intros H. split.
  - symmetry. by apply take_drop_middle.
  - intros t'. apply insert_take_drop. by eapply lookup_lt_Some.
Qed.

Lemma pending_app p1 p2 : pending (p1 ++ p2) = (pending p1 ++ pending p2)%list.
Proof. unfold pending. by rewrite map_app, concat_app. Qed.

Lemma pending_cons t p : pending (t :: p) = (script t ++ pending p)%list.
Proof. reflexivity. Qed.

Lemma pending_insert ws j t t' :
  ws !! j = Some t ->
  exists R, pending ws ≡ₚ (script t ++ R)%list /\
            pending (<[j := t']> ws) ≡ₚ (script t' ++ R)%list.
Proof.
  intros H. destruct (split_at ws j t H) as [H1 H2].
  exists (pending (take j ws) ++ pending (drop (S j) ws))%list. split.
  - rewrite H1 at 1. rewrite pending_app, pending_cons. solve_Permutation.
  - rewrite H2, pending_app, pending_cons. solve_Permutation.
Qed.

Lemma sum_insert (f : M unit -> nat) ws j t t' :
  ws !! j = Some t ->
  (sum_list_with f (<[j := t']> ws) + f t = sum_list_with f ws + f t')%nat.
Proof.
  intros H. destruct (split_at ws j t H) as [H1 H2].
  rewrite H2.
  assert (sum_list_with f ws
          = sum_list_with f (take j ws ++ t :: drop (S j) ws)) as ->
    by (by rewrite <- H1).
  rewrite !sum_list_with_app. simpl. lia.
Qed.

Lemma lookup_pool m ws sp i t :
  (m :: ws ++ sp) !! i = Some t ->
  (i = 0%nat /\ t = m) \/
  (exists j, i = S j /\ ws !! j = Some t) \/
  (exists j, i = S (length ws + j) /\ sp !! j = Some t).
Proof.
  destruct i as [| i]; simpl.
  - intros [= ->]. by left.
  - intros H. apply lookup_app_Some in H as [H | [Hle H]].
    + right. left. eauto.
    + right. right. exists (i - length ws)%nat. split; [f_equal; lia | done].
Qed.

Lemma insert_worker m ws sp j t' :
  (j < length ws)%nat ->
  <[S j := t']> (m :: ws ++ sp) = m :: <[j := t']> ws ++ sp.
Proof. intros H. simpl. f_equal. by apply insert_app_l. Qed.

Lemma insert_sup m ws st t' :
  <[S (length ws + 0) := t']> (m :: ws ++ [st]) = m :: ws ++ [t'].
Proof. simpl. f_equal. by rewrite insert_app_r. Qed.

End Pools.

(** ** Workers *)

Section Workers.

Context {E : Env}.

Lemma ends_done_cons a l :
  ends_done (a :: l) = true ->
  (is_done a = true /\ l = []) \/ (io_send a = true /\ ends_done l = true).
Proof.
  simpl. destruct l as [| a' l']; [by left |].
  intros H. apply andb_true_iff in H. by right.
Qed.

Lemma ends_done_last l :
  ends_done l = true -> exists l0, l = (l0 ++ [WgDone])%list /\ forallb io_send l0 = true.
Proof.
  induction l as [| a l IH]; [done |].
  intros H. apply ends_done_cons in H as [[Ha ->] | [Ha Hl]].
  - exists []. destruct a; try done.
  - destruct (IH Hl) as (l0 & -> & H0). exists (a :: l0). split; [done |].
    simpl. by rewrite Ha, H0.
Qed.

Lemma unit_ret (u : unit) : @Ret E unit u = Ret tt.
Proof. by destruct u. Qed.

(** A worker has returned, or is about to execute the head of its
    script. *)
Lemma worker_cases t :
  worker t ->
  (t = Ret tt /\ script t = []) \/
  (exists a k, t = Do a k /\ script t = a :: script (k (oracle a)) /\
     worker (k (oracle a)) /\
     ((is_done a = true /\ script (k (oracle a)) = []) \/
      (io_send a = true /\ ends_done (script (k (oracle a))) = true))).
Proof.
  intros [Hs Hd]. destruct t as [u | a k | |]; try done.
  - left. by rewrite unit_ret.
  - right. exists a, k. simpl in *. split; [done |]. split; [done |].
    destruct Hd as [Hd | Hd]; [done |].
    apply ends_done_cons in Hd as [[Ha Hl] | [Ha Hl]].
    + split; [split; [done | by left] | by left].
    + split; [split; [done | by right] | by right].
Qed.

Lemma worker_of_body b : worker_body b -> worker b.
Proof. intros [H1 H2]. split; [done | by right]. Qed.

Lemma live_body b : worker_body b -> live b = 1%nat.
Proof.
  intros [_ H]. unfold live. destruct (script b); [done | done].
Qed.

Lemma lives_0 ws t :
  lives ws = 0%nat -> t ∈ ws -> worker t -> t = Ret tt.
Proof.
  intros H Hin Hw.
  assert (live t = 0%nat) as Hl.
  { pose proof (sum_list_with_in t live ws Hin). unfold lives in H. lia. }
  destruct (worker_cases t Hw) as [[-> _] | (a & k & -> & Hs & _)]; [done |].
  unfold live in Hl. by rewrite Hs in Hl.
Qed.

End Workers.

(** ** The log and the script *)

Section Logs.

Context {E : Env}.

Implicit Types (l lg R : list Act) (b : list string).

Lemma sent_app l1 l2 : sent (l1 ++ l2) = (sent l1 ++ sent l2)%list.
Proof. apply omap_app. Qed.

Lemma console_app l1 l2 : console (l1 ++ l2) = (console l1 ++ console l2)%list.
Proof. apply omap_app. Qed.

Lemma written_app l1 l2 : written (l1 ++ l2) = (written l1 ++ written l2)%list.
Proof. apply omap_app. Qed.

Lemma finished_lines_app l1 l2 :
  finished_lines (l1 ++ l2) = (finished_lines l1 ++ finished_lines l2)%list.
Proof. unfold finished_lines. by rewrite console_app, List.filter_app. Qed.

Lemma is_finished_finished v : is_finished (finished v) = true.
Proof.
  unfold is_finished, finished. simpl. by destruct v.
Qed.

Lemma finished_lines_line v : finished_lines [finished_line v] = [finished v].
Proof.
  unfold finished_lines, finished_line. simpl. by rewrite is_finished_finished.
Qed.

(** An action of a worker before its [wg.Done()] is not a line of the
    collector. *)
Lemma finished_lines_io a : io_send a = true -> finished_lines [a] = [].
Proof.
  destruct a; try done. unfold finished_lines; simpl.
  intros H. apply negb_true_iff in H. by rewrite H.
Qed.

Lemma finished_lines_ios l : forallb io_send l = true -> finished_lines l = [].
Proof.
  induction l as [| a l IH]; [done |]. simpl.
  intros H. apply andb_true_iff in H as [Ha Hl].
  change (a :: l) with ([a] ++ l)%list.
  by rewrite finished_lines_app, finished_lines_io, IH.
Qed.

Lemma finished_lines_body (b : M unit) :
  worker_body b -> finished_lines (script b) = [].
Proof.
  intros [_ H]. apply ends_done_last in H as (l0 & -> & H0).
  by rewrite finished_lines_app, finished_lines_ios.
Qed.

Lemma finished_lines_spawn (bs : list (M unit)) :
  Forall worker_body bs -> finished_lines (script (spawn_all bs collect)) = [].
Proof.
  induction 1 as [| b bs Hb _ IH]; [done |]. simpl.
  change (WgAdd 1 :: ?l) with ([WgAdd 1] ++ l)%list.
  by rewrite !finished_lines_app, finished_lines_body, IH.
Qed.

Lemma account_perm lg X Y b : X ≡ₚ Y -> account lg X b ≡ₚ account lg Y b.
Proof.
  intros H. unfold account.
  apply Permutation_app_head, Permutation_app; [done |].
  apply Permutation_map, Permutation_app_tail.
  unfold sent. by apply omap_Permutation.
Qed.

Lemma account_do lg a R b :
  sent [a] = [] -> account (lg ++ [a]) R b ≡ₚ account lg (a :: R) b.
Proof.
  intros H. unfold account.
  change (a :: R) with ([a] ++ R)%list. rewrite sent_app, H. simpl.
  solve_Permutation.
Qed.

Lemma account_send_buffered lg v R b :
  account (lg ++ [Send v]) R (b ++ [v]) ≡ₚ account lg (Send v :: R) b.
Proof.
  unfold account. simpl. rewrite !map_app. simpl. solve_Permutation.
Qed.

Lemma account_send_handed lg v R :
  account (lg ++ [Send v]) (finished_line v :: R) [] ≡ₚ account lg (Send v :: R) [].
Proof.
  unfold account. simpl. rewrite !map_app. simpl. solve_Permutation.
Qed.

Lemma account_receive lg v R b :
  account lg (finished_line v :: R) b ≡ₚ account lg R (v :: b).
Proof.
  unfold account. simpl. rewrite !map_app. simpl. solve_Permutation.
Qed.

Lemma length_sent_perm X Y : X ≡ₚ Y -> length (sent X) = length (sent Y).
Proof.
  intros H. apply Permutation_length. unfold sent. by apply omap_Permutation.
Qed.

End Logs.

(** ** One step, in numbers *)

Section Effects.

Context {E : Env}.

Implicit Types (s : State) (p : list (M unit)).

Lemma step_fire i s s' :
  step i s = Some s' ->
  panicked s = false /\ exited s = false /\ fire i s = Some s'.
Proof.
  unfold step. destruct (panicked s), (exited s); simpl; try done.
Qed.

Lemma fire_step i s s' :
  panicked s = false -> exited s = false -> fire i s = Some s' ->
  step i s = Some s'.
Proof. intros Hp He H. unfold step. by rewrite Hp, He. Qed.

(** A call into a package or a console line changes nothing but the
    log. *)
Lemma exec_io a s : io_send a = true -> sent [a] = [] -> exec a s = Next s.
Proof. by destruct a. Qed.

Lemma sent_io_cases a :
  io_send a = true -> sent [a] = [] \/ exists v, a = Send v.
Proof. destruct a; try done; eauto. Qed.

(** Replacing the goroutine that executes [a] by its continuation. *)
Lemma replace_do p i a (k : Res a -> M unit) :
  p !! i = Some (Do a k) ->
  exists R,
    pending p ≡ₚ a :: (script (k (oracle a)) ++ R)%list /\
    pending (<[i := k (oracle a)]> p) ≡ₚ (script (k (oracle a)) ++ R)%list /\
    sum_list_with cost p = S (sum_list_with cost (<[i := k (oracle a)]> p)).
Proof.
  intros H.
  destruct (pending_insert p i _ (k (oracle a)) H) as (R & H1 & H2).
  exists R. split; [done |]. split; [done |].
  pose proof (sum_insert cost p i _ (k (oracle a)) H) as Hc. simpl in Hc. lia.
Qed.

Lemma account_step_do lg p i a (k : Res a -> M unit) b :
  p !! i = Some (Do a k) -> sent [a] = [] ->
  account (lg ++ [a]) (pending (<[i := k (oracle a)]> p)) b
    ≡ₚ account lg (pending p) b /\
  length (sent (pending (<[i := k (oracle a)]> p))) = length (sent (pending p)).
Proof.
  intros H Ha. destruct (replace_do p i a k H) as (R & H1 & H2 & _). split.
  - rewrite (account_perm _ _ _ _ H1), (account_perm _ _ _ _ H2).
    by apply account_do.
  - rewrite (length_sent_perm _ _ H1), (length_sent_perm _ _ H2).
    change (a :: ?l) with ([a] ++ l)%list. by rewrite (sent_app [a]), Ha.
Qed.

Lemma account_step_send lg p i v (k : Res (Send v) -> M unit) b :
  p !! i = Some (Do (Send v) k) ->
  account (lg ++ [Send v]) (pending (<[i := k tt]> p)) (b ++ [v])
    ≡ₚ account lg (pending p) b /\
  S (length (sent (pending (<[i := k tt]> p)))) = length (sent (pending p)).
Proof.
  intros H. destruct (replace_do p i _ k H) as (R & H1 & H2 & _).
  simpl in *. split.
  - rewrite (account_perm _ _ _ _ H1), (account_perm _ _ _ _ H2).
    by apply account_send_buffered.
  - by rewrite (length_sent_perm _ _ H1), (length_sent_perm _ _ H2).
Qed.

(** The collector takes [v]: from the buffer, or from the hand of the
    sender. *)
Lemma replace_collector p v :
  p !! 0%nat = Some collector ->
  exists R,
    pending p ≡ₚ R /\
    pending (<[0%nat := printing v]> p) ≡ₚ finished_line v :: R /\
    sum_list_with cost (<[0%nat := printing v]> p) = S (sum_list_with cost p).
Proof.
  intros H. destruct p as [| m p]; [done |]. simpl in H. injection H as ->.
  exists (pending p). split; [done |]. split; [done |]. reflexivity.
Qed.

Lemma account_step_receive lg p v b :
  p !! 0%nat = Some collector ->
  account lg (pending (<[0%nat := printing v]> p)) b
    ≡ₚ account lg (pending p) (v :: b) /\
  length (sent (pending (<[0%nat := printing v]> p))) = length (sent (pending p)).
Proof.
  intros H. destruct (replace_collector p v H) as (R & H1 & H2 & _). split.
  - rewrite (account_perm _ _ _ _ H1), (account_perm _ _ _ _ H2).
    by apply account_receive.
  - by rewrite (length_sent_perm _ _ H1), (length_sent_perm _ _ H2).
Qed.

(** With a single sender the values pending are sent in order. *)
Lemma sent_pending_do p i a (k : Res a -> M unit) :
  p !! i = Some (Do a k) -> sent [a] = [] ->
  sent (pending (<[i := k (oracle a)]> p)) = sent (pending p).
Proof.
  intros H Ha. destruct (split_at p i _ H) as [H1 H2]. rewrite H2.
  assert (pending p = pending (take i p ++ Do a k :: drop (S i) p)) as ->
    by (by rewrite <- H1).
  rewrite !pending_app, !pending_cons, !sent_app.
  change (script (Do a k)) with ([a] ++ script (k (oracle a)))%list.
  by rewrite (sent_app [a]), Ha.
Qed.

Lemma sent_pending_send p i v (k : Res (Send v) -> M unit) :
  p !! i = Some (Do (Send v) k) -> sent (pending (take i p)) = [] ->
  sent (pending p) = v :: sent (pending (<[i := k tt]> p)).
Proof.
  intros H Ht. destruct (split_at p i _ H) as [H1 H2]. rewrite H2.
  assert (pending p = pending (take i p ++ Do (Send v) k :: drop (S i) p)) as ->
    by (by rewrite <- H1).
  rewrite !pending_app, !pending_cons, !sent_app, Ht. reflexivity.
Qed.

Lemma sent_pending_collector p v :
  p !! 0%nat = Some collector ->
  sent (pending (<[0%nat := printing v]> p)) = sent (pending p).
Proof.
  intros H. destruct p as [| m p]; [done |]. simpl in H. injection H as ->.
  reflexivity.
Qed.

Lemma pending_go p (body k : M unit) :
  p !! 0%nat = Some (Go body k) ->
  pending (<[0%nat := k]> p ++ [body]) ≡ₚ pending p /\
  sum_list_with cost p = S (sum_list_with cost (<[0%nat := k]> p ++ [body])).
Proof.
  intros H. destruct p as [| m p]; [done |]. simpl in H. injection H as ->.
  simpl. split.
  - rewrite pending_cons, pending_app, !pending_cons. simpl.
    unfold pending at 2. simpl. solve_Permutation.
  - rewrite sum_list_with_app. simpl. lia.
Qed.

End Effects.


(** ** The invariant of the shared shape *)

Section Preservation.

Context {E : Env}.

Variables (c : nat) (bodies : list (M unit)) (L0 : list Act).

Hypothesis Hbodies : Forall worker_body bodies.
Hypothesis Hcap :
  c = 0%nat \/ (length (sent (script (dispatch c bodies))) <= c)%nat.

Local Abbreviation inv' := (inv c bodies L0).
Local Abbreviation phase' := (phase c bodies).

Lemma lives_nonneg_live ws t :
  t ∈ ws -> (live t <= lives ws)%nat.
Proof. apply sum_list_with_in. Qed.

(** The phase of main does not depend on what the workers are at, as
    long as the counter of the wait group follows them. *)
Lemma phase_stable m m' ws ws' sp s s' :
  phase' m ws sp s ->
  exited s = false -> pool s !! 0%nat = Some m ->
  m' = m \/ (range_main m /\ range_main m') ->
  length ws' = length ws ->
  wg s' - Z.of_nat (lives ws') = wg s - Z.of_nat (lives ws) ->
  (lives ws' <= lives ws)%nat ->
  (chan s = None -> chan s' = None) ->
  (chan_open s -> chan_open s') ->
  (chan_closed s = true -> chan_closed s' = true) ->
  phase' m' ws' sp s'.
Proof.
  intros Hph He Hm Hm' Hlen Hwg Hlv Hn Ho Hc.
  assert (forall st, sup_at st ws s -> sup_at st ws' s') as Hsup.
  { intros st [[-> H] | [(-> & H & H0) | (-> & H & H0)]].
    - left. auto.
    - right; left. split; [done |]. split; [auto | lia].
    - right; right. split; [done |]. split; [auto | lia]. }
  destruct Hph as [-> -> -> H1 H2 | -> H1 -> H2 H3 | b Hb -> -> H2 H3
                   | st Hr H1 -> H2 H3 | st -> H1 -> H2 H3 H4 H5].
  - destruct Hm' as [-> | [[H | [v H]] _]]; [| done | done].
    destruct ws'; [| done]. apply ph_make; auto. simpl in *. lia.
  - destruct Hm' as [-> | [[H | [v H]] _]].
    + apply ph_add; auto; try lia. by rewrite Hlen.
    + exfalso. destruct (drop (length ws) bodies); done.
    + exfalso. destruct (drop (length ws) bodies); done.
  - destruct Hm' as [-> | [[H | [v H]] _]]; [| done | done].
    eapply ph_go; eauto; try lia; by rewrite Hlen.
  - eapply ph_range; eauto; try lia.
    destruct Hm' as [-> | [_ H]]; done.
  - exfalso. unfold exited in He. by rewrite Hm in He.
Qed.

Lemma phase_live m ws sp s :
  phase' m ws sp s -> (1 <= lives ws)%nat ->
  chan_open s /\ Z.of_nat (lives ws) <= wg s.
Proof.
  intros [-> -> -> H1 H2 | -> H1 -> H2 H3 | b Hb -> -> H2 H3
          | st Hr H1 -> H2 H3 | st -> H1 -> H2 H3 H4 H5] Hl.
  - simpl in Hl. lia.
  - split; [done | lia].
  - split; [done | lia].
  - destruct H2 as [[_ H] | [(_ & _ & H) | (_ & _ & H)]]; [| lia | lia].
    split; [done | lia].
  - destruct H2 as [[_ H] | [(_ & _ & H) | (_ & _ & H)]]; [| lia | lia].
    split; [done | lia].
Qed.

Lemma phase_length m ws sp s :
  phase' m ws sp s -> (length ws <= length bodies)%nat.
Proof.
  intros [-> -> -> H1 H2 | -> H1 -> H2 H3 | b Hb -> -> H2 H3
          | st Hr H1 -> H2 H3 | st -> H1 -> H2 H3 H4 H5]; simpl; try lia.
  apply lookup_lt_Some in Hb. lia.
Qed.

(** With a single worker, main has nothing to send once the worker is
    started. *)
Lemma phase_single_main m ws sp s :
  phase' m ws sp s -> (length bodies <= 1)%nat -> ws <> [] ->
  sent (script m) = [].
Proof.
  intros [-> -> -> H1 H2 | -> H1 -> H2 H3 | b Hb -> -> H2 H3
          | st Hr H1 -> H2 H3 | st -> H1 -> H2 H3 H4 H5] Hsg Hne; try done.
  - rewrite drop_ge; [done |]. destruct ws; [done | simpl in *; lia].
  - apply lookup_lt_Some in Hb. destruct ws; [done | simpl in *; lia].
  - destruct Hr as [-> | [v ->]]; done.
Qed.

Lemma single_worker_first m ws sp s j t :
  inv' m ws sp s -> (length bodies <= 1)%nat -> ws !! j = Some t ->
  sent (pending (take (S j) (pool s))) = [].
Proof.
  intros I Hsg Hj. pose proof I as [Hp Hnp Hw Hph Hc Ha Ho Hg].
  pose proof (phase_length _ _ _ _ Hph) as Hlen.
  assert (j = 0%nat) as -> by (apply lookup_lt_Some in Hj; lia).
  rewrite Hp. simpl. rewrite take_0. unfold pending. simpl.
  rewrite app_nil_r. eapply phase_single_main; eauto.
  by destruct ws.
Qed.

Lemma cap_ok_same s s' :
  cap_ok c s -> chan s' = chan s ->
  (length (sent (pending (pool s'))) <= length (sent (pending (pool s))))%nat ->
  cap_ok c s'.
Proof.
  unfold cap_ok. intros H -> Hl. destruct (chan s) as [ch |]; [| done].
  destruct H as (H1 & H2 & H3). split; [done |]. split; [done |].
  destruct H3; [by left | right; lia].
Qed.

Lemma cap_ok_do s i a (k : Res a -> M unit) s' :
  cap_ok c s -> pool s !! i = Some (Do a k) -> sent [a] = [] ->
  pool s' = <[i := k (oracle a)]> (pool s) -> chan s' = chan s ->
  cap_ok c s'.
Proof.
  intros Hc Hlook Hsent Hpool Hchan.
  destruct (account_step_do (log s) (pool s) i a k (buffer s) Hlook Hsent)
    as [_ Hlen].
  eapply cap_ok_same; eauto. rewrite Hpool, Hlen. done.
Qed.

(** No goroutine but main is ever in a receive. *)
Lemma find_receiver_workers (p : list (M unit)) :
  Forall (fun t => seqcode t = true) p -> find_receiver p = None.
Proof.
  induction 1 as [| t p Ht _ IH]; [done |]. simpl.
  rewrite IH. by destruct t.
Qed.

Lemma find_receiver_pool m ws sp s j body k :
  inv' m ws sp s -> find_receiver (pool s) = Some (j, body, k) ->
  j = 0%nat /\ m = collector /\ RangeCh body k = collector.
Proof.
  intros I. destruct I as [Hp _ Hw Hph _ _ _ _]. rewrite Hp.
  assert (find_receiver (ws ++ sp) = None) as Hn.
  { apply find_receiver_workers, Forall_app. split.
    - eapply Forall_impl; [exact Hw |]. by intros t [H _].
    - destruct Hph as [-> -> -> H1 H2 | -> H1 -> H2 H3 | b Hb -> -> H2 H3
          | st Hr H1 -> H2 H3 | st -> H1 -> H2 H3 H4 H5]; try done.
      + destruct H2 as [[-> _] | [(-> & _) | (-> & _)]]; by repeat constructor.
      + destruct H2 as [[-> _] | [(-> & _) | (-> & _)]]; by repeat constructor. }
  simpl. rewrite Hn.
  destruct Hph as [-> -> -> H1 H2 | -> H1 -> H2 H3 | b Hb -> -> H2 H3
          | st Hr H1 -> H2 H3 | st -> H1 -> H2 H3 H4 H5]; try done.
  - destruct (drop (length ws) bodies); done.
  - destruct Hr as [-> | [v ->]]; [| done].
    intros [= <- <- <-]. done.
Qed.

Lemma measure_eq s :
  measure s = (sum_list_with cost (pool s)
     + 2 * (length (sent (pending (pool s))) + length (buffer s)))%nat.
Proof. reflexivity. Qed.

Lemma buffer_chan s s' : chan s' = chan s -> buffer s' = buffer s.
Proof. unfold buffer. by intros ->. Qed.

(** A worker executes an action other than a send. *)
Lemma worker_step_plain m ws sp s j a (k : Res a -> M unit) s' :
  inv' m ws sp s -> exited s = false ->
  ws !! j = Some (Do a k) -> worker (k (oracle a)) ->
  sent [a] = [] -> finished_lines [a] = [] ->
  pool s' = <[S j := k (oracle a)]> (pool s) ->
  chan s' = chan s ->
  wg s' - Z.of_nat (live (k (oracle a))) = wg s - 1 ->
  log s' = (log s ++ [a])%list ->
  panicked s' = false ->
  inv' m (<[j := k (oracle a)]> ws) sp s' /\ (measure s' < measure s)%nat.
Proof.
  intros I He Hj Hk Hsent Hfin Hpool Hchan Hwg Hlog Hpan.
  pose proof I as [Hp Hnp Hw Hph Hc Ha Ho Hg].
  assert (pool s !! S j = Some (Do a k)) as Hlook.
  { rewrite Hp. simpl. by apply lookup_app_l_Some. }
  assert (j < length ws)%nat as Hjl by (by eapply lookup_lt_Some).
  assert (live (Do a k) = 1%nat) as Hlive by reflexivity.
  pose proof (sum_insert live ws j _ (k (oracle a)) Hj) as Hsum.
  fold (lives (<[j := k (oracle a)]> ws)) in Hsum. fold (lives ws) in Hsum.
  assert (live (k (oracle a)) <= 1)%nat as Hle.
  { unfold live. destruct (script (k (oracle a))); lia. }
  destruct (account_step_do (log s) (pool s) (S j) a k (buffer s) Hlook Hsent)
    as [Hacc Hlen].
  destruct (replace_do (pool s) (S j) a k Hlook) as (_ & _ & _ & Hcost).
  pose proof (buffer_chan s s' Hchan) as Hbuf.
  split.
  - constructor.
    + rewrite Hpool, Hp. by apply insert_worker.
    + done.
    + by apply Forall_insert.
    + eapply phase_stable; eauto.
      * by rewrite Hp.
      * by rewrite length_insert.
      * lia.
      * lia.
      * by rewrite Hchan.
      * unfold chan_open. by rewrite Hchan.
      * unfold chan_closed. by rewrite Hchan.
    + eapply cap_ok_same; eauto. rewrite Hpool. lia.
    + rewrite Hlog, Hpool, Hbuf. by rewrite Hacc.
    + rewrite Hlog, Hbuf, finished_lines_app, sent_app, Hfin, Hsent.
      by rewrite !app_nil_r.
    + intros Hsg. rewrite Hlog, Hpool, sent_app, Hsent, app_nil_r.
      rewrite (sent_pending_do _ _ _ _ Hlook Hsent). by apply Hg.
  - rewrite !measure_eq, Hbuf, Hpool. lia.
Qed.

Lemma pending_collector (p : list (M unit)) v :
  p !! 0%nat = Some collector ->
  pending (<[0%nat := printing v]> p) ≡ₚ finished_line v :: pending p /\
  sum_list_with cost (<[0%nat := printing v]> p) = S (sum_list_with cost p).
Proof.
  intros H. destruct p as [| m p]; [done |]. simpl in H. injection H as ->.
  split; reflexivity.
Qed.

(** A worker puts its value in the buffer. *)
Lemma worker_step_send_buffered m ws sp s j v (k : Res (Send v) -> M unit) ch s' :
  inv' m ws sp s -> exited s = false ->
  ws !! j = Some (Do (Send v) k) -> worker (k tt) ->
  ends_done (script (k tt)) = true ->
  chan s = Some ch -> closed ch = false -> (length (buf ch) < cap ch)%nat ->
  pool s' = <[S j := k tt]> (pool s) ->
  chan s' = Some (mkChan (cap ch) (buf ch ++ [v]) false) ->
  wg s' = wg s ->
  log s' = (log s ++ [Send v])%list ->
  panicked s' = false ->
  inv' m (<[j := k tt]> ws) sp s' /\ (measure s' < measure s)%nat.
Proof.
  intros I He Hj Hk Hrest Hch Hcl Hroom Hpool Hchan Hwg Hlog Hpan.
  pose proof I as [Hp Hnp Hw Hph Hc Ha Ho Hg].
  assert (pool s !! S j = Some (Do (Send v) k)) as Hlook.
  { rewrite Hp. simpl. by apply lookup_app_l_Some. }
  assert (j < length ws)%nat as Hjl by (by eapply lookup_lt_Some).
  pose proof (sum_insert live ws j _ (k tt) Hj) as Hsum.
  fold (lives (<[j := k tt]> ws)) in Hsum. fold (lives ws) in Hsum.
  assert (live (Do (Send v) k) = 1%nat) as Hlive by reflexivity.
  assert (live (k tt) = 1%nat) as Hlive'.
  { unfold live. by destruct (script (k tt)). }
  destruct (account_step_send (log s) (pool s) (S j) v k (buffer s) Hlook)
    as [Hacc Hlen].
  destruct (replace_do (pool s) (S j) _ k Hlook) as (_ & _ & _ & Hcost).
  simpl in Hcost.
  assert (buffer s = buf ch) as Hb by (unfold buffer; by rewrite Hch).
  assert (buffer s' = (buf ch ++ [v])%list) as Hb' by (unfold buffer; by rewrite Hchan).
  split.
  - constructor.
    + rewrite Hpool, Hp. by apply insert_worker.
    + done.
    + by apply Forall_insert.
    + eapply phase_stable; eauto.
      * by rewrite Hp.
      * by rewrite length_insert.
      * lia.
      * lia.
      * by rewrite Hch.
      * intros _. by eexists.
      * unfold chan_closed. by rewrite Hch, Hcl.
    + unfold cap_ok in *. rewrite Hchan. rewrite Hch in Hc. simpl.
      destruct Hc as (H1 & H2 & H3). rewrite Hpool, length_app. simpl.
      split; [done |]. split; [lia |]. right. lia.
    + rewrite Hlog, Hpool, Hb'. rewrite <- Hb. by rewrite Hacc.
    + rewrite Hlog, Hb', finished_lines_app, sent_app, !map_app. simpl.
      rewrite <- Ho, Hb. unfold finished_lines at 2. simpl.
      by rewrite !app_nil_r, <- !app_assoc.
    + intros Hsg. rewrite Hlog, Hpool, sent_app, <- app_assoc. simpl.
      rewrite <- (sent_pending_send _ _ _ _ Hlook); [by apply Hg |].
      by eapply single_worker_first.
  - rewrite !measure_eq, Hb', Hb, Hpool, length_app. simpl. lia.
Qed.

(** A worker hands its value to the collector. *)
Lemma worker_step_send_handed ws sp s j v (k : Res (Send v) -> M unit) s' :
  inv' collector ws sp s -> exited s = false ->
  ws !! j = Some (Do (Send v) k) -> worker (k tt) ->
  ends_done (script (k tt)) = true ->
  buffer s = [] ->
  pool s' = <[S j := k tt]> (<[0%nat := printing v]> (pool s)) ->
  chan s' = chan s ->
  wg s' = wg s ->
  log s' = (log s ++ [Send v])%list ->
  panicked s' = false ->
  inv' (printing v) (<[j := k tt]> ws) sp s' /\ (measure s' < measure s)%nat.
Proof.
  intros I He Hj Hk Hrest Hb Hpool Hchan Hwg Hlog Hpan.
  pose proof I as [Hp Hnp Hw Hph Hc Ha Ho Hg].
  assert (pool s !! S j = Some (Do (Send v) k)) as Hlook.
  { rewrite Hp. simpl. by apply lookup_app_l_Some. }
  assert (j < length ws)%nat as Hjl by (by eapply lookup_lt_Some).
  pose proof (sum_insert live ws j _ (k tt) Hj) as Hsum.
  fold (lives (<[j := k tt]> ws)) in Hsum. fold (lives ws) in Hsum.
  assert (live (Do (Send v) k) = 1%nat) as Hlive by reflexivity.
  assert (live (k tt) = 1%nat) as Hlive'.
  { unfold live. by destruct (script (k tt)). }
  rewrite list_insert_insert_ne in Hpool by done.
  set (p1 := <[S j := k tt]> (pool s)) in *.
  destruct (replace_do (pool s) (S j) _ k Hlook) as (R & H1 & H2 & Hcost).
  simpl in H1, H2, Hcost. fold p1 in H2, Hcost.
  assert (p1 !! 0%nat = Some collector) as H0.
  { unfold p1. rewrite list_lookup_insert_ne by done. by rewrite Hp. }
  destruct (pending_collector p1 v H0) as [H3 H4].
  pose proof (buffer_chan s s' Hchan) as Hbuf.
  assert (length (sent (pending (pool s'))) = length (sent (pending p1))) as Hn'.
  { rewrite Hpool. by rewrite (length_sent_perm _ _ H3). }
  assert (length (sent (pending (pool s))) = S (length (sent (pending p1)))) as Hn.
  { by rewrite (length_sent_perm _ _ H1), (length_sent_perm _ _ H2). }
  split.
  - constructor.
    + rewrite Hpool. unfold p1. rewrite Hp. by rewrite insert_worker.
    + done.
    + by apply Forall_insert.
    + eapply phase_stable; eauto.
      * by rewrite Hp.
      * right. split; [by left | right; by eexists].
      * by rewrite length_insert.
      * lia.
      * lia.
      * by rewrite Hchan.
      * unfold chan_open. by rewrite Hchan.
      * unfold chan_closed. by rewrite Hchan.
    + eapply cap_ok_same; eauto. lia.
    + rewrite Hlog, Hpool, Hbuf, Hb. rewrite <- Ha, Hb.
      etrans; [apply account_perm; etrans;
        [exact H3 | apply Permutation_cons; [done | exact H2]] |].
      etrans; [apply account_send_handed |].
      symmetry. by apply account_perm.
    + rewrite Hlog, Hbuf, Hb, finished_lines_app, sent_app, !map_app.
      rewrite <- Ho, Hb. simpl.
      change (finished_lines [Printf (finished v)])
        with (finished_lines [finished_line v]).
      rewrite finished_lines_line.
      change (finished_lines [Send v]) with (@nil string).
      by rewrite !app_nil_r.
    + intros Hsg. rewrite Hlog, Hpool, sent_app, <- app_assoc. simpl.
      rewrite (sent_pending_collector _ _ H0). unfold p1.
      rewrite <- (sent_pending_send _ _ _ _ Hlook); [by apply Hg |].
      by eapply single_worker_first.
  - rewrite !measure_eq, Hbuf, Hn', Hn, Hpool. lia.
Qed.

Lemma inv_step_worker m ws sp s j t s' :
  inv' m ws sp s -> exited s = false ->
  ws !! j = Some t -> fire (S j) s = Some s' ->
  exists m' ws' sp', inv' m' ws' sp' s' /\ (measure s' < measure s)%nat.
Proof.
  intros I He Hj H.
  pose proof I as [Hp Hnp Hw Hph Hc Ha Ho Hg].
  assert (pool s !! S j = Some t) as Hlook.
  { rewrite Hp. simpl. by apply lookup_app_l_Some. }
  pose proof (Forall_lookup_1 _ _ _ _ Hw Hj) as Hwt.
  unfold fire in H. rewrite Hlook in H.
  destruct (worker_cases t Hwt) as [[-> _] | (a & k & -> & Hs & Hk & Hcase)];
    [done |].
  assert (1 <= lives ws)%nat as Hl1.
  { change 1%nat with (live (Do a k)). apply lives_nonneg_live.
    by eapply list_elem_of_lookup_2. }
  destruct (phase_live _ _ _ _ Hph Hl1) as [(ch & Hch & Hcl) Hwg].
  destruct Hcase as [[Hd Hnil] | [Hio Hrest]].
  - (* wg.Done() *)
    destruct a; try done. simpl in H.
    destruct (Z.ltb_spec (wg s - 1) 0); [lia |]. injection H as <-.
    eexists _, _, _. eapply worker_step_plain; eauto; simpl; try done.
    unfold live. simpl in Hnil. rewrite Hnil. simpl. lia.
  - destruct (sent_io_cases a Hio) as [Hsent | [v ->]].
    + (* a call or a console line *)
      rewrite (exec_io a s Hio Hsent) in H. injection H as <-.
      eexists _, _, _. eapply worker_step_plain; eauto; simpl; try done.
      * by apply finished_lines_io.
      * unfold live. destruct (script (k (oracle a))); [done | simpl; lia].
    + (* ch <- v *)
      simpl in H. rewrite Hch, Hcl in H.
      destruct (Nat.ltb_spec (length (buf ch)) (cap ch)).
      * injection H as <-.
        eexists _, _, _. eapply worker_step_send_buffered; eauto.
      * destruct (buf ch) eqn:Hb; [| done].
        destruct (find_receiver (pool s)) as [[[j' body] k'] |] eqn:Hf; [| done].
        destruct (find_receiver_pool _ _ _ _ _ _ _ I Hf) as (-> & -> & Heq).
        injection Heq as -> ->. injection H as <-.
        eexists _, _, _. eapply worker_step_send_handed; eauto.
        unfold buffer. by rewrite Hch.
Qed.

(** Main or the supervisor executes an action that is neither a send nor
    a line of the collector. *)
Lemma plain_step m ws sp s i a (k : Res a -> M unit) m' ws' sp' s' :
  inv' m ws sp s ->
  pool s !! i = Some (Do a k) ->
  sent [a] = [] ->
  (finished_lines [a] ++ finished_lines (script m'))%list
    = finished_lines (script m) ->
  pool s' = <[i := k (oracle a)]> (pool s) ->
  pool s' = m' :: ws' ++ sp' ->
  Forall worker ws' -> phase' m' ws' sp' s' -> cap_ok c s' ->
  buffer s' = buffer s ->
  log s' = (log s ++ [a])%list ->
  panicked s' = false ->
  inv' m' ws' sp' s' /\ (measure s' < measure s)%nat.
Proof.
  intros I Hlook Hsent Hfin Hpool Hdec Hw' Hph' Hc' Hbuf Hlog Hpan.
  pose proof I as [Hp Hnp Hw Hph Hc Ha Ho Hg].
  destruct (account_step_do (log s) (pool s) i a k (buffer s) Hlook Hsent)
    as [Hacc Hlen].
  destruct (replace_do (pool s) i a k Hlook) as (_ & _ & _ & Hcost).
  split.
  - constructor; try done.
    + rewrite Hlog, Hpool, Hbuf. by rewrite Hacc.
    + rewrite Hlog, Hbuf, finished_lines_app, sent_app, Hsent, app_nil_r.
      rewrite <- Ho, <- Hfin. by rewrite <- !app_assoc.
    + intros Hsg. rewrite Hlog, Hpool, sent_app, Hsent, app_nil_r.
      rewrite (sent_pending_do _ _ _ _ Hlook Hsent). by apply Hg.
  - rewrite !measure_eq, Hbuf, Hpool. lia.
Qed.

Lemma exited_ret (s : State) p :
  pool s = Ret tt :: p -> exited s = true.
Proof. intros H. unfold exited. by rewrite H. Qed.

Lemma inv_step_sup m ws sp s j t s' :
  inv' m ws sp s -> exited s = false ->
  sp !! j = Some t -> fire (S (length ws + j)) s = Some s' ->
  exists m' ws' sp', inv' m' ws' sp' s' /\ (measure s' < measure s)%nat.
Proof.
  intros I He Hj H.
  pose proof I as [Hp Hnp Hw Hph Hc Ha Ho Hg].
  assert (pool s !! S (length ws + j) = Some t) as Hlook.
  { rewrite Hp. simpl. rewrite lookup_app_r by lia.
    by replace (length ws + j - length ws)%nat with j by lia. }
  unfold fire in H. rewrite Hlook in H.
  destruct Hph as [-> -> -> H1 H2 | -> H1 -> H2 H3 | b Hb -> -> H2 H3
          | st Hr H1 -> H2 H3 | st -> H1 -> H2 H3 H4 H5]; try done.
  2: { by rewrite (exited_ret s _ Hp) in He. }
  destruct j; [| done]. simpl in Hj. injection Hj as <-.
  destruct H2 as [[-> Hopen] | [(-> & Hopen & Hl) | (-> & Hcl & Hl)]].
  - (* wg.Wait() *)
    simpl in H. destruct (Z.eqb_spec (wg s) 0) as [Hz |]; [| done].
    injection H as <-.
    exists m, ws, [closing].
    eapply (plain_step m ws [supervisor] s (S (length ws + 0)) WgWait);
      [exact I | exact Hlook | try done ..].
    + change (<[S (length ws + 0) := closing]> (pool s) = m :: ws ++ [closing]).
      by rewrite Hp, insert_sup.
    + eapply ph_range; eauto.
      right; left. split; [done |]. split; [done | simpl in *; lia].
    + by eapply (cap_ok_do s _ _ _ _ Hc Hlook).
  - (* close(ch) *)
    destruct Hopen as (ch & Hch & Hcl).
    simpl in H. rewrite Hch, Hcl in H. injection H as <-.
    exists m, ws, [Ret tt].
    eapply (plain_step m ws [closing] s (S (length ws + 0)) Close);
      [exact I | exact Hlook | try done ..].
    + change (<[S (length ws + 0) := Ret tt]> (pool s) = m :: ws ++ [Ret tt]).
      by rewrite Hp, insert_sup.
    + eapply ph_range; eauto.
      right; right. split; [done |]. split; [| done].
      unfold chan_closed. done.
    + unfold cap_ok in *. simpl. rewrite Hch in Hc.
      destruct Hc as (Hc1 & Hc2 & Hc3). split; [done |]. split; [done |].
      destruct (account_step_do (log s) (pool s) _ _ _ (buffer s) Hlook eq_refl)
        as [_ Hlen].
      simpl in Hlen. rewrite Hlen. done.
    + unfold buffer. simpl. by rewrite Hch.
  - done.
Qed.

(** Main starts a goroutine. *)
Lemma go_step m ws sp s (body k : M unit) m' ws' sp' s' :
  inv' m ws sp s ->
  pool s !! 0%nat = Some (Go body k) ->
  pool s' = (<[0%nat := k]> (pool s) ++ [body])%list ->
  pool s' = m' :: ws' ++ sp' ->
  Forall worker ws' -> phase' m' ws' sp' s' ->
  finished_lines (script m') = finished_lines (script m) ->
  ((length bodies <= 1)%nat ->
   sent (script body) = [] \/ sent (pending (<[0%nat := k]> (pool s))) = []) ->
  chan s' = chan s ->
  log s' = log s ->
  panicked s' = false ->
  inv' m' ws' sp' s' /\ (measure s' < measure s)%nat.
Proof.
  intros I Hlook Hpool Hdec Hw' Hph' Hfm Hone Hchan Hlog Hpan.
  pose proof I as [Hp Hnp Hw Hph Hc Ha Ho Hg].
  destruct (pending_go (pool s) body k Hlook) as [Hperm Hcost].
  pose proof (buffer_chan s s' Hchan) as Hbuf.
  pose proof (length_sent_perm _ _ Hperm) as Hlen.
  split.
  - constructor; try done.
    + eapply cap_ok_same; eauto. rewrite Hpool. lia.
    + rewrite Hlog, Hpool, Hbuf. by rewrite (account_perm _ _ _ _ Hperm).
    + by rewrite Hlog, Hbuf, Hfm.
    + intros Hsg. rewrite Hlog, Hpool, <- (Hg Hsg). f_equal.
      destruct (pool s) as [| m0 p0]; [done |].
      simpl in Hlook. injection Hlook as ->.
      simpl. rewrite !pending_cons, pending_app, !sent_app.
      change (pending [body]) with (script body ++ [])%list.
      change (script (Go body k)) with (script body ++ script k)%list.
      rewrite app_nil_r, (sent_app (script body)).
      destruct (Hone Hsg) as [Hz | Hz].
      * by rewrite Hz, !app_nil_r.
      * simpl in Hz. rewrite pending_cons, sent_app in Hz.
        apply app_eq_nil in Hz as [Hz1 Hz2]. by rewrite Hz1, Hz2, !app_nil_r.
  - rewrite !measure_eq, Hbuf, Hpool. lia.
Qed.

Lemma drop_cons_inv {X : Type} (l : list X) n x r :
  drop n l = x :: r -> l !! n = Some x /\ r = drop (S n) l.
Proof.
  intros H.
  assert (l !! n = Some x) as Hl.
  { pose proof (lookup_drop l n 0) as H0. rewrite H in H0. simpl in H0.
    by rewrite Nat.add_0_r in H0. }
  split; [done |]. rewrite (drop_S l x n Hl) in H. by injection H.
Qed.

Lemma drop_nil_inv {X : Type} (l : list X) n :
  drop n l = [] -> (length l <= n)%nat.
Proof.
  intros H. pose proof (length_drop l n) as Hl. rewrite H in Hl. simpl in Hl. lia.
Qed.

Lemma sup_at_chan st ws s :
  sup_at st ws s -> exists ch, chan s = Some ch.
Proof.
  unfold sup_at, chan_closed.
  intros [[_ (ch & H & _)] | [(_ & (ch & H & _) & _) | (_ & H & _)]]; eauto.
  destruct (chan s); [eauto | done].
Qed.

Lemma sup_at_same st ws s s' :
  sup_at st ws s ->
  (forall ch, chan s = Some ch ->
     exists ch', chan s' = Some ch' /\ closed ch' = closed ch) ->
  sup_at st ws s'.
Proof.
  intros H Hch.
  assert (chan_open s -> chan_open s') as Ho.
  { intros (ch & H1 & H2). destruct (Hch ch H1) as (ch' & H3 & H4).
    exists ch'. split; [done | congruence]. }
  assert (chan_closed s = true -> chan_closed s' = true) as Hc.
  { unfold chan_closed. destruct (chan s) as [ch |]; [| done].
    destruct (Hch ch eq_refl) as (ch' & -> & ->). done. }
  destruct H as [[-> H] | [(-> & H & H0) | (-> & H & H0)]].
  - left. auto.
  - right; left. auto.
  - right; right. auto.
Qed.

(** The collector takes a value from the buffer. *)
Lemma receive_step ws sp s v bf ch s' :
  inv' collector ws sp s -> exited s = false ->
  chan s = Some ch -> buf ch = v :: bf ->
  pool s' = <[0%nat := printing v]> (pool s) ->
  chan s' = Some (mkChan (cap ch) bf (closed ch)) ->
  wg s' = wg s -> log s' = log s -> panicked s' = false ->
  inv' (printing v) ws sp s' /\ (measure s' < measure s)%nat.
Proof.
  intros I He Hch Hb Hpool Hchan Hwg Hlog Hpan.
  pose proof I as [Hp Hnp Hw Hph Hc Ha Ho Hg].
  assert (pool s !! 0%nat = Some collector) as Hlook by (by rewrite Hp).
  destruct (account_step_receive (log s) (pool s) v bf Hlook) as [Hacc Hlen].
  destruct (pending_collector (pool s) v Hlook) as [_ Hcost].
  assert (buffer s = v :: bf) as Hbs by (unfold buffer; by rewrite Hch).
  assert (buffer s' = bf) as Hbs' by (unfold buffer; by rewrite Hchan).
  split.
  - constructor; try done.
    + rewrite Hpool, Hp. done.
    + eapply phase_stable; eauto.
      * right. split; [by left | right; by eexists].
      * lia.
      * by rewrite Hch.
      * intros (ch0 & H1 & H2). rewrite Hch in H1. injection H1 as <-.
        by eexists.
      * unfold chan_closed. by rewrite Hch, Hchan.
    + unfold cap_ok in *. rewrite Hchan. rewrite Hch in Hc. simpl.
      destruct Hc as (H1 & H2 & H3). rewrite Hb in H2, H3. simpl in H2, H3.
      rewrite Hpool, Hlen. split; [done |]. split; [lia |].
      destruct H3; [by left | right; lia].
    + rewrite Hlog, Hpool, Hbs'. rewrite <- Ha, Hbs. by rewrite Hacc.
    + rewrite Hlog, Hbs', <- Ho, Hbs. simpl.
      change (finished_lines [Printf (finished v)])
        with (finished_lines [finished_line v]).
      by rewrite finished_lines_line.
    + intros Hsg. rewrite Hlog, Hpool, (sent_pending_collector _ _ Hlook).
      by apply Hg.
  - rewrite !measure_eq, Hbs', Hbs, Hpool, Hlen, Hcost. simpl. lia.
Qed.

(** The collector finds the channel closed and empty. *)
Lemma leave_step ws sp s ch s' :
  inv' collector ws sp s ->
  chan s = Some ch -> buf ch = [] -> closed ch = true ->
  pool s' = <[0%nat := Ret tt]> (pool s) ->
  chan s' = chan s -> wg s' = wg s -> log s' = log s -> panicked s' = false ->
  inv' (Ret tt) ws sp s' /\ (measure s' < measure s)%nat.
Proof.
  intros I Hch Hb Hcl Hpool Hchan Hwg Hlog Hpan.
  pose proof I as [Hp Hnp Hw Hph Hc Ha Ho Hg].
  pose proof (buffer_chan s s' Hchan) as Hbuf.
  assert (buffer s = []) as Hbs by (unfold buffer; by rewrite Hch).
  assert (pending (pool s') = pending (pool s)) as Hpend.
  { rewrite Hpool, Hp. reflexivity. }
  split.
  - constructor; try done.
    + rewrite Hpool, Hp. done.
    + destruct Hph as [H0 -> -> H1 H2 | H0 H1 -> H2 H3 | b Hb0 H0 -> H2 H3
          | st Hr H1 -> H2 H3 | st H0 H1 -> H2 H3 H4 H5]; try done.
      * exfalso. destruct (drop (length ws) bodies); done.
      * eapply ph_exit; eauto.
        -- eapply sup_at_same; eauto. intros ch0 H0. rewrite Hchan. eauto.
        -- congruence.
        -- unfold chan_closed. by rewrite Hchan, Hch.
        -- congruence.
    + eapply cap_ok_same; eauto. by rewrite Hpend.
    + by rewrite Hlog, Hpend, Hbuf.
    + by rewrite Hlog, Hbuf.
    + intros Hsg. rewrite Hlog, Hpend. by apply Hg.
  - rewrite !measure_eq, Hbuf, Hpend, Hpool, Hp. simpl. lia.
Qed.

Lemma inv_step_main m ws sp s s' :
  inv' m ws sp s -> exited s = false -> fire 0%nat s = Some s' ->
  exists m' ws' sp', inv' m' ws' sp' s' /\ (measure s' < measure s)%nat.
Proof.
  intros I He H.
  pose proof I as [Hp Hnp Hw Hph Hc Ha Ho Hg].
  assert (pool s !! 0%nat = Some m) as Hlook by (by rewrite Hp).
  unfold fire in H. rewrite Hlook in H.
  destruct Hph as [-> -> -> H1 H2 | -> H1 -> H2 H3 | b Hb -> -> H2 H3
          | st Hr H1 -> H2 H3 | st -> H1 -> H2 H3 H4 H5].
  - (* ch := make(chan string, c) *)
    simpl in H. injection H as <-.
    exists (spawn_all bodies collect), [], [].
    eapply (plain_step _ _ _ s 0%nat (MakeChan c));
      [exact I | exact Hlook | try done ..].
    + simpl. by rewrite Hp.
    + apply ph_add; try done.
      * simpl. lia.
      * by eexists.
    + unfold cap_ok. simpl. split; [done |]. split; [lia |].
      rewrite Hp. unfold pending. simpl. rewrite app_nil_r.
      destruct Hcap as [? | Hle]; [by left | by right].
    + unfold buffer. simpl. by rewrite H1.
  - destruct (drop (length ws) bodies) as [| b rest] eqn:Hd.
    + (* go supervisor *)
      simpl in H. injection H as <-.
      apply drop_nil_inv in Hd.
      exists collector, ws, [supervisor].
      eapply (go_step _ _ _ s supervisor collector);
        [exact I | exact Hlook | try done ..].
      * simpl. rewrite Hp. simpl. by rewrite app_nil_r.
      * apply (ph_range c bodies _ _ _ _ supervisor);
          [by left | lia | done | by left | done].
      * intros _. by left.
    + (* wg.Add(1) *)
      apply drop_cons_inv in Hd as [Hb ->].
      simpl in H.
      destruct (Z.ltb_spec (wg s + 1) 0) as [? | _]; [lia |].
      injection H as <-.
      exists (Go b (spawn_all (drop (S (length ws)) bodies) collect)), ws, [].
      eapply (plain_step _ _ _ s 0%nat (WgAdd 1));
        [exact I | exact Hlook | try done ..].
      * simpl. by rewrite Hp.
      * eapply ph_go; eauto. simpl. lia.
      * by eapply (cap_ok_do s _ _ _ _ Hc Hlook).
  - (* go worker *)
    simpl in H. injection H as <-.
    assert (worker_body b) as Hwb.
    { eapply Forall_lookup_1; eauto. }
    exists (spawn_all (drop (S (length ws)) bodies) collect), (ws ++ [b])%list, [].
    eapply (go_step _ _ _ s b);
      [exact I | exact Hlook | try done ..].
    + simpl. rewrite Hp. simpl. by rewrite !app_nil_r.
    + apply Forall_app. split; [done |]. constructor; [| done].
      by apply worker_of_body.
    + apply ph_add; try done.
      * rewrite length_app. simpl. by rewrite Nat.add_1_r.
      * rewrite length_app. simpl. apply lookup_lt_Some in Hb. lia.
      * unfold lives. rewrite sum_list_with_app. simpl.
        rewrite (live_body b Hwb). fold (lives ws). simpl in H3. lia.
    + simpl. by rewrite finished_lines_app, (finished_lines_body b Hwb).
    + intros Hsg. right.
      assert (length ws = 0%nat) as Hz by (apply lookup_lt_Some in Hb; lia).
      destruct ws; [| done]. rewrite Hp. simpl.
      rewrite drop_ge by lia. reflexivity.
  - destruct Hr as [-> | [v ->]].
    + (* for fileName := range ch *)
      destruct (sup_at_chan _ _ _ H2) as [ch Hch].
      simpl in H. rewrite Hch in H.
      destruct (buf ch) as [| v bf] eqn:Hbuf.
      * destruct (closed ch) eqn:Hcl; [| done]. injection H as <-.
        eexists _, _, _. eapply leave_step; eauto.
      * injection H as <-.
        eexists _, _, _. eapply receive_step; eauto.
    + (* fmt.Printf("Finished processing: %s\n", fileName) *)
      simpl in H. injection H as <-.
      exists collector, ws, [st].
      eapply (plain_step _ _ _ s 0%nat (Printf (finished v)));
        [exact I | exact Hlook | try done ..].
      * change (script collector) with (@nil Act).
        change (script (printing v)) with [Printf (finished v)].
        apply app_nil_r.
      * simpl. by rewrite Hp.
      * eapply (phase_stable (printing v) collector ws ws [st] s);
          [exact (i_phase _ _ _ _ _ _ _ I) | done | done | | done ..].
        right. split; [right; by eexists | by left].
      * by eapply (cap_ok_do s _ _ _ _ Hc Hlook).
  - by rewrite (exited_ret s _ Hp) in He.
Qed.

Lemma inv_step m ws sp s i s' :
  inv' m ws sp s -> step i s = Some s' ->
  exists m' ws' sp', inv' m' ws' sp' s' /\ (measure s' < measure s)%nat.
Proof.
  intros I H. apply step_fire in H as (_ & He & H).
  destruct (pool s !! i) as [t |] eqn:Ht.
  2: { unfold fire in H. by rewrite Ht in H. }
  rewrite (i_pool _ _ _ _ _ _ _ I) in Ht.
  apply lookup_pool in Ht as [[-> ->] | [(j & -> & Hj) | (j & -> & Hj)]].
  - by eapply inv_step_main.
  - by eapply inv_step_worker.
  - by eapply inv_step_sup.
Qed.

Lemma inv_init s0 :
  pool s0 = [dispatch c bodies] -> chan s0 = None -> wg s0 = 0 ->
  log s0 = L0 -> panicked s0 = false ->
  sent L0 = [] -> finished_lines L0 = [] ->
  inv' (dispatch c bodies) [] [] s0.
Proof.
  intros Hp Hch Hwg Hlog Hpan Hs Hf.
  assert (buffer s0 = []) as Hb by (unfold buffer; by rewrite Hch).
  constructor; try done.
  - by apply ph_make.
  - unfold cap_ok. by rewrite Hch.
  - rewrite Hlog, Hp, Hb. unfold pending. simpl. by rewrite app_nil_r.
  - rewrite Hlog, Hb, Hf, Hs. simpl.
    change (finished_lines (MakeChan c :: ?l)) with (finished_lines l).
    by rewrite (finished_lines_spawn _ Hbodies).
  - intros _. rewrite Hlog, Hp, Hs. unfold pending. simpl. by rewrite app_nil_r.
Qed.

Lemma lives_pos ws :
  (0 < lives ws)%nat -> exists j t, ws !! j = Some t /\ live t = 1%nat.
Proof.
  induction ws as [| t ws IH]; simpl; [lia |].
  intros H. destruct (live t) eqn:Hl.
  - destruct IH as (j & t' & H1 & H2); [simpl in H; lia |].
    exists (S j), t'. done.
  - exists 0%nat, t. split; [done |].
    unfold live in *. destruct (script t); [done | by injection Hl].
Qed.

(** Before main has returned some goroutine can take a step. *)
Lemma inv_progress m ws sp s :
  inv' m ws sp s -> exited s = true \/ exists i s', step i s = Some s'.
Proof.
  intros I. pose proof I as [Hp Hnp Hw Hph Hc Ha Ho Hg].
  destruct (exited s) eqn:He; [by left | right].
  assert (forall i s', fire i s = Some s' -> exists i s', step i s = Some s') as Hfire.
  { intros i s' H. exists i, s'. by apply fire_step. }
  assert (pool s !! 0%nat = Some m) as Hlook by (by rewrite Hp).
  destruct Hph as [-> -> -> H1 H2 | -> H1 -> H2 H3 | b Hb -> -> H2 H3
          | st Hr H1 -> H2 H3 | st -> H1 -> H2 H3 H4 H5].
  - eapply (Hfire 0%nat). unfold fire. rewrite Hlook. reflexivity.
  - destruct (drop (length ws) bodies) as [| b rest] eqn:Hd.
    + eapply (Hfire 0%nat). unfold fire. rewrite Hlook. reflexivity.
    + eapply (Hfire 0%nat). unfold fire. rewrite Hlook. simpl.
      destruct (Z.ltb_spec (wg s + 1) 0) as [? | _]; [lia | reflexivity].
  - eapply (Hfire 0%nat). unfold fire. rewrite Hlook. reflexivity.
  - destruct Hr as [-> | [v ->]].
    2: { eapply (Hfire 0%nat). unfold fire. rewrite Hlook. reflexivity. }
    destruct (sup_at_chan _ _ _ H2) as [ch Hch].
    destruct (buf ch) as [| v bf] eqn:Hbuf.
    2: { eapply (Hfire 0%nat). unfold fire. rewrite Hlook. simpl.
         rewrite Hch, Hbuf. reflexivity. }
    destruct (closed ch) eqn:Hcl.
    { eapply (Hfire 0%nat). unfold fire. rewrite Hlook. simpl.
      rewrite Hch, Hbuf, Hcl. reflexivity. }
    assert (pool s !! S (length ws + 0) = Some st) as Hst.
    { rewrite Hp. simpl. rewrite lookup_app_r by lia.
      by replace (length ws + 0 - length ws)%nat with 0%nat by lia. }
    destruct H2 as [[-> Hopen] | [(-> & Hopen & Hl) | (-> & Hclosed & Hl)]].
    + destruct (Z.eqb_spec (wg s) 0) as [Hz | Hz].
      { eapply (Hfire (S (length ws + 0))). unfold fire. rewrite Hst. simpl.
        rewrite Hz. reflexivity. }
      destruct (lives_pos ws) as (j & t & Hj & Hlive); [lia |].
      assert (pool s !! S j = Some t) as Hlt.
      { rewrite Hp. simpl. by apply lookup_app_l_Some. }
      pose proof (Forall_lookup_1 _ _ _ _ Hw Hj) as Hwt.
      destruct (worker_cases t Hwt) as [[-> _] | (a & k & -> & Hs & Hk & Hcase)];
        [done |].
      destruct Hcase as [[Hd Hnil] | [Hio Hrest]].
      * destruct a; try done.
        eapply (Hfire (S j)). unfold fire. rewrite Hlt. simpl.
        destruct (Z.ltb_spec (wg s - 1) 0) as [? | _]; [lia | reflexivity].
      * destruct (sent_io_cases a Hio) as [Hsent | [v ->]].
        -- eapply (Hfire (S j)). unfold fire. rewrite Hlt.
           rewrite (exec_io a s Hio Hsent). reflexivity.
        -- destruct (cap ch) eqn:Hcap0.
           ++ eapply (Hfire (S j)). unfold fire. rewrite Hlt. simpl.
              rewrite Hch, Hcl, Hbuf, Hcap0, Hp. reflexivity.
           ++ eapply (Hfire (S j)). unfold fire. rewrite Hlt. simpl.
              rewrite Hch, Hcl, Hbuf, Hcap0. reflexivity.
    + eapply (Hfire (S (length ws + 0))). unfold fire. rewrite Hst. simpl.
      rewrite Hch, Hcl. reflexivity.
    + unfold chan_closed in Hclosed. rewrite Hch in Hclosed. congruence.
  - by rewrite (exited_ret s _ Hp) in He.
Qed.

Lemma pending_done ws :
  Forall worker ws -> lives ws = 0%nat -> pending ws = [].
Proof.
  induction 1 as [| t ws Ht _ IH]; [done |].
  unfold lives. simpl. intros H.
  rewrite pending_cons, IH by (unfold lives; lia).
  unfold live in H. destruct (script t); [done | simpl in H; lia].
Qed.

(** When main has returned: every worker has called [wg.Done()], the
    supervisor has closed the channel, the buffer is empty, and the log
    holds every action of the script and a line of the collector for
    every value sent. *)
Lemma inv_exit m ws sp s :
  inv' m ws sp s -> exited s = true ->
  log s ≡ₚ account L0 (script (dispatch c bodies)) [] /\
  finished_lines (log s) = map finished (sent (log s)) /\
  chan_closed s = true /\ buffer s = [] /\ wg s = 0 /\
  length (pool s) = (length bodies + 2)%nat /\
  pool s = replicate (length bodies + 2) (Ret tt) /\
  ((length bodies <= 1)%nat ->
   sent (log s) = (sent L0 ++ sent (script (dispatch c bodies)))%list).
Proof.
  intros I He. pose proof I as [Hp Hnp Hw Hph Hc Ha Ho Hg].
  assert (pool s !! 0%nat = Some m) as Hlook by (by rewrite Hp).
  unfold exited in He. rewrite Hlook in He.
  destruct Hph as [-> -> -> H1 H2 | -> H1 -> H2 H3 | b Hb -> -> H2 H3
          | st Hr H1 -> H2 H3 | st -> H1 -> H2 H3 H4 H5]; try done.
  { destruct (drop (length ws) bodies); done. }
  { destruct Hr as [-> | [v ->]]; done. }
  assert (st = Ret tt /\ lives ws = 0%nat) as [-> Hl].
  { destruct H2 as [[_ (ch & Ho1 & Ho2)] | [(_ & (ch & Ho1 & Ho2) & _) | (-> & _ & Hl)]];
      [| | done];
      unfold chan_closed in H4; rewrite Ho1 in H4; congruence. }
  assert (pending (pool s) = []) as Hpend.
  { rewrite Hp, pending_cons, pending_app, (pending_done ws Hw Hl). done. }
  rewrite Hpend, H5 in Ha. unfold account at 1 in Ha. simpl in Ha.
  rewrite app_nil_r in Ha.
  rewrite H5 in Ho. simpl in Ho. rewrite !app_nil_r in Ho.
  split; [done |]. split; [done |]. split; [done |]. split; [done |].
  split; [lia |].
  assert (ws = replicate (length ws) (Ret tt)) as Hws.
  { assert (forall l : list (M unit),
              Forall (fun t => t = Ret tt) l -> l = replicate (length l) (Ret tt))
      as Hrep.
    { induction 1 as [| t l -> _ IH]; simpl; [done | by f_equal]. }
    apply Hrep, Forall_forall. intros t Ht. eapply lives_0; eauto.
    eapply Forall_forall in Hw; eauto. }
  split; [| split].
  - rewrite Hp. simpl. rewrite length_app. simpl. lia.
  - rewrite Hp, Hws, H1.
    replace (length bodies + 2)%nat with (S (length bodies + 1)) by lia.
    simpl. f_equal. by rewrite replicate_add.
  - intros Hsg. rewrite <- (Hg Hsg), Hpend. simpl. by rewrite app_nil_r.
Qed.

Lemma run_inv sched s s' :
  Inv c bodies L0 s -> run sched s = Some s' ->
  Inv c bodies L0 s' /\ (length sched + measure s' <= measure s)%nat.
Proof.
  revert s. induction sched as [| i sched IH]; intros s I H; simpl in H.
  - injection H as <-. split; [done | simpl; lia].
  - destruct (step i s) as [s1 |] eqn:Hs; [| done].
    destruct I as (m & ws & sp & I).
    destruct (inv_step _ _ _ _ _ _ I Hs) as (m1 & ws1 & sp1 & I1 & Hlt).
    destruct (IH s1) as [I' Hle]; [by exists m1, ws1, sp1 | done |].
    split; [done | simpl; lia].
Qed.

Hypothesis HL0 : sent L0 = [] /\ finished_lines L0 = [].

Lemma dispatch_always s0 :
  dispatch_start c bodies L0 s0 -> always s0 (Inv c bodies L0).
Proof.
  intros (H1 & H2 & H3 & H4 & H5) sched s Hrun. destruct HL0 as [H6 H7].
  eapply run_inv; [| exact Hrun].
  exists (dispatch c bodies), [], []. by apply inv_init.
Qed.

Lemma dispatch_completes s0 :
  dispatch_start c bodies L0 s0 ->
  completes s0 (fun s =>
    log s ≡ₚ account L0 (script (dispatch c bodies)) [] /\
    finished_lines (log s) = map finished (sent (log s)) /\
    chan_closed s = true /\ buffer s = [] /\ wg s = 0 /\
    length (pool s) = (length bodies + 2)%nat /\
    pool s = replicate (length bodies + 2) (Ret tt) /\
    ((length bodies <= 1)%nat ->
     sent (log s) = (sent L0 ++ sent (script (dispatch c bodies)))%list)).
Proof.
  intros Hs0. pose proof Hs0 as (H1 & H2 & H3 & H4 & H5).
  destruct HL0 as [H6 H7].
  assert (Inv c bodies L0 s0) as I0.
  { exists (dispatch c bodies), [], []. by apply inv_init. }
  split; [| split].
  - exists (measure s0). intros sched s Hrun.
    destruct (run_inv sched s0 s I0 Hrun) as [_ Hle]. lia.
  - intros sched s Hrun.
    destruct (run_inv sched s0 s I0 Hrun) as [(m & ws & sp & I) _].
    by eapply inv_progress.
  - intros sched s Hrun He.
    destruct (run_inv sched s0 s I0 Hrun) as [(m & ws & sp & I) _].
    split; [by destruct I |]. by eapply inv_exit.
Qed.

(** ** What the invariant gives in every state *)

Lemma sent_finished_lines (l : list string) : sent (map finished_line l) = [].
Proof. induction l as [| v l IH]; [done | exact IH]. Qed.

Lemma sent_account lg X b :
  sent (account lg X b) = (sent lg ++ sent X)%list.
Proof.
  unfold account. by rewrite !sent_app, sent_finished_lines, app_nil_r.
Qed.

(** Every action executed is an action of the script, or a line of the
    collector for a value the script sends. *)
Lemma inv_log_in m ws sp s a :
  inv' m ws sp s -> a ∈ log s ->
  a ∈ account L0 (script (dispatch c bodies)) [].
Proof.
  intros I Ha. rewrite <- (i_account _ _ _ _ _ _ _ I).
  unfold account. apply elem_of_app. by left.
Qed.

Lemma inv_cap m ws sp s ch :
  inv' m ws sp s -> chan s = Some ch -> cap ch = c.
Proof.
  intros I H. pose proof (i_cap _ _ _ _ _ _ _ I) as Hc.
  unfold cap_ok in Hc. rewrite H in Hc. by destruct Hc.
Qed.

Lemma inv_pool_length m ws sp s :
  inv' m ws sp s -> (length (pool s) <= length bodies + 2)%nat.
Proof.
  intros I. pose proof I as [Hp Hnp Hw Hph Hc Ha Ho Hg].
  pose proof (phase_length _ _ _ _ Hph) as Hlen.
  rewrite Hp. simpl. rewrite length_app.
  destruct Hph as [-> -> -> H1 H2 | -> H1 -> H2 H3 | b Hb -> -> H2 H3
          | st Hr H1 -> H2 H3 | st -> H1 -> H2 H3 H4 H5]; simpl; lia.
Qed.

(** The values still to be sent are values of the script. *)
Lemma inv_pending_sends m ws sp s :
  inv' m ws sp s ->
  (length (sent (log s)) + length (sent (pending (pool s)))
   = length (sent (script (dispatch c bodies))))%nat.
Proof.
  intros I. pose proof (i_account _ _ _ _ _ _ _ I) as Ha.
  apply length_sent_perm in Ha.
  rewrite !sent_account, !length_app, (proj1 HL0) in Ha. exact Ha.
Qed.

(** A send of a worker meets a buffer with room, whenever the capacity
    is at least the number of values of the script. *)
Lemma inv_send_room m ws sp s i v (k : Res (Send v) -> M unit) :
  inv' m ws sp s ->
  (length (sent (script (dispatch c bodies))) <= c)%nat ->
  pool s !! i = Some (Do (Send v) k) ->
  exists ch, chan s = Some ch /\ closed ch = false /\
             (length (buf ch) < cap ch)%nat /\ exited s = false.
Proof.
  intros I Hle Hlook. pose proof I as [Hp Hnp Hw Hph Hc Ha Ho Hg].
  pose proof (inv_pending_sends _ _ _ _ I) as Hps.
  destruct (replace_do (pool s) i _ k Hlook) as (R & H1 & _ & _).
  apply length_sent_perm in H1. simpl in H1.
  pose proof Hlook as Hl. rewrite Hp in Hl.
  apply lookup_pool in Hl as [[-> Hm] | [(j & -> & Hj) | (j & -> & Hj)]].
  - exfalso.
    destruct Hph as [-> -> -> H2 H3 | -> H2 -> H3 H4 | b Hb -> -> H3 H4
          | st Hr H2 -> H3 H4 | st -> H2 -> H3 H4 H5 H6]; try done.
    + destruct (drop (length ws) bodies); done.
    + destruct Hr as [-> | [v' ->]]; done.
  - assert (1 <= lives ws)%nat as Hl1.
    { change 1%nat with (live (Do (Send v) k)). apply sum_list_with_in.
      by eapply list_elem_of_lookup_2. }
    destruct (phase_live _ _ _ _ Hph Hl1) as [(ch & Hch & Hcl) Hwg].
    exists ch. split; [done |]. split; [done |].
    unfold cap_ok in Hc. rewrite Hch in Hc. destruct Hc as (Hc1 & Hc2 & Hc3).
    split; [lia |].
    destruct (exited s) eqn:He; [| done]. exfalso.
    unfold exited in He. rewrite Hp in He. simpl in He.
    destruct Hph as [-> -> -> H2 H3 | -> H2 -> H3 H4 | b Hb -> -> H3 H4
          | st Hr H2 -> H3 H4 | st -> H2 -> H3 H4 H5 H6]; try done.
    + destruct (drop (length ws) bodies); done.
    + destruct Hr as [-> | [v' ->]]; done.
    + unfold chan_closed in H5. rewrite Hch in H5. congruence.
  - exfalso.
    destruct Hph as [-> -> -> H2 H3 | -> H2 -> H3 H4 | b Hb -> -> H3 H4
          | st Hr H2 -> H3 H4 | st -> H2 -> H3 H4 H5 H6]; try done.
    + destruct j; [| done]. simpl in Hj. injection Hj as ->.
      destruct H3 as [[H _] | [(H & _) | (H & _)]]; done.
    + destruct j; [| done]. simpl in Hj. injection Hj as ->.
      destruct H3 as [[H _] | [(H & _) | (H & _)]]; done.
Qed.

Lemma inv_send_step m ws sp s i v (k : Res (Send v) -> M unit) :
  inv' m ws sp s ->
  (length (sent (script (dispatch c bodies))) <= c)%nat ->
  pool s !! i = Some (Do (Send v) k) ->
  exists s', step i s = Some s' /\ panicked s' = false /\
             buffer s' = (buffer s ++ [v])%list.
Proof.
  intros I Hle Hlook.
  destruct (inv_send_room _ _ _ _ _ _ _ I Hle Hlook) as (ch & Hch & Hcl & Hlt & He).
  pose proof (i_nopanic _ _ _ _ _ _ _ I) as Hnp.
  eexists. split; [| split].
  - apply fire_step; [done | done |]. unfold fire. rewrite Hlook. simpl.
    rewrite Hch, Hcl. destruct (Nat.ltb_spec (length (buf ch)) (cap ch)); [| lia].
    reflexivity.
  - done.
  - unfold buffer. simpl. by rewrite Hch.
Qed.

(** With a single worker the values are sent in the order of its
    script, and at any time the lines of the collector follow the
    sends. *)
Lemma inv_sent_prefix m ws sp s :
  inv' m ws sp s -> (length bodies <= 1)%nat ->
  sent (log s) `prefix_of` sent (script (dispatch c bodies)).
Proof.
  intros I Hsg. pose proof (i_single _ _ _ _ _ _ _ I Hsg) as H.
  rewrite (proj1 HL0), app_nil_l in H. rewrite <- H. by eexists.
Qed.

Lemma inv_lines_prefix m ws sp s :
  inv' m ws sp s ->
  finished_lines (log s) `prefix_of` map finished (sent (log s)).
Proof.
  intros I. rewrite <- (i_order _ _ _ _ _ _ _ I). by eexists.
Qed.

End Preservation.

(** ** Runs *)

Section Runs.

Context {E : Env}.

Lemma run_stopped sched s s' :
  exited s = true -> run sched s = Some s' -> sched = [] /\ s' = s.
Proof.
  intros He. destruct sched as [| i sched]; simpl.
  - by intros [= ->].
  - unfold step. rewrite He, orb_true_r. done.
Qed.

Lemma completes_exited s (P : State -> Prop) :
  exited s = true -> panicked s = false -> P s -> completes s P.
Proof.
  intros He Hp HP. split; [| split].
  - exists 0%nat. intros sched s' H.
    destruct (run_stopped _ _ _ He H) as [-> _]. done.
  - intros sched s' H. destruct (run_stopped _ _ _ He H) as [_ ->]. by left.
  - intros sched s' H _. destruct (run_stopped _ _ _ He H) as [_ ->]. done.
Qed.

(** A state with a single successor. *)
Lemma completes_step init s1 (P : State -> Prop) :
  exited init = false ->
  (exists i, step i init = Some s1) ->
  (forall i s', step i init = Some s' -> s' = s1) ->
  completes s1 P -> completes init P.
Proof.
  intros He [i0 H0] Hdet (Hb & Hpr & Hpost).
  assert (forall sched s, run sched init = Some s ->
            (sched = [] /\ s = init) \/
            (exists sched', length sched = S (length sched') /\
                            run sched' s1 = Some s)) as Hrun.
  { intros [| i sched] s; simpl.
    - intros [= <-]. by left.
    - destruct (step i init) as [s' |] eqn:Hs; [| done].
      rewrite (Hdet _ _ Hs). intros H. right. by exists sched. }
  destruct Hb as [bound Hb]. split; [| split].
  - exists (S bound). intros sched s H.
    destruct (Hrun _ _ H) as [[-> _] | (sched' & Hl & H')]; [simpl; lia |].
    specialize (Hb _ _ H'). lia.
  - intros sched s H.
    destruct (Hrun _ _ H) as [[_ ->] | (sched' & Hl & H')]; [| eauto].
    right. eauto.
  - intros sched s H Hex.
    destruct (Hrun _ _ H) as [[_ ->] | (sched' & Hl & H')]; [congruence | eauto].
Qed.

Lemma always_step init s1 (P : State -> Prop) :
  P init ->
  (forall i s', step i init = Some s' -> s' = s1) ->
  always s1 P -> always init P.
Proof.
  intros H0 Hdet H1 [| i sched] s; simpl.
  - by intros [= <-].
  - destruct (step i init) as [s' |] eqn:Hs; [| done].
    rewrite (Hdet _ _ Hs). apply H1.
Qed.

Lemma always_stopped s (P : State -> Prop) :
  exited s = true -> P s -> always s P.
Proof.
  intros He HP sched s' H. destruct (run_stopped _ _ _ He H) as [_ ->]. done.
Qed.

Lemma completes_impl init (P Q : State -> Prop) :
  completes init P -> (forall s, P s -> Q s) -> completes init Q.
Proof.
  intros (Hb & Hpr & Hpost) HPQ. split; [done |]. split; [done |].
  intros sched s H He. destruct (Hpost _ _ H He). auto.
Qed.

Lemma always_impl init (P Q : State -> Prop) :
  always init P -> (forall s, P s -> Q s) -> always init Q.
Proof. intros H HPQ sched s Hr. eauto. Qed.

(** A single goroutine about to execute an action that neither blocks
    nor panics. *)
Lemma lone_step s a (k : Res a -> M unit) :
  pool s = [Do a k] -> panicked s = false -> exec a s = Next s ->
  exited s = false /\
  step 0%nat s = Some (add_log a (set_pool [k (oracle a)] s)) /\
  forall i s', step i s = Some s' ->
               s' = add_log a (set_pool [k (oracle a)] s).
Proof.
  intros Hp Hnp Hx.
  assert (exited s = false) as He by (unfold exited; by rewrite Hp).
  split; [done |]. split.
  - unfold step, fire. rewrite Hnp, He, Hp. simpl. by rewrite Hx, Hp.
  - intros i s'. unfold step, fire. rewrite Hnp, He, Hp. simpl.
    destruct i as [| i]; simpl; [| done].
    rewrite Hx, Hp. by intros [= <-].
Qed.

(** A single goroutine that prints a line and returns. *)
Lemma print_completes s t (P : State -> Prop) :
  pool s = [act (Printf t)] -> panicked s = false ->
  P (add_log (Printf t) (set_pool [Ret tt] s)) ->
  completes s P.
Proof.
  intros Hp Hnp HP.
  destruct (lone_step s (Printf t) Ret Hp Hnp eq_refl) as (He & Hs & Hdet).
  eapply completes_step; eauto.
  apply completes_exited; done.
Qed.

Lemma print_always s t (P : State -> Prop) :
  pool s = [act (Printf t)] -> panicked s = false ->
  P s -> P (add_log (Printf t) (set_pool [Ret tt] s)) ->
  always s P.
Proof.
  intros Hp Hnp H0 HP.
  destruct (lone_step s (Printf t) Ret Hp Hnp eq_refl) as (He & Hs & Hdet).
  eapply always_step; eauto.
  apply always_stopped; done.
Qed.

End Runs.


(** ** The item processor *)

Section Items.

Context {E : Env}.

Variables (src dst filter : string).

Ltac item_cases :=
  unfold processItem, applyGrayscaleFilter, applyBlurFilter;
  destruct (String.eqb filter "grayscale");
  [| destruct (String.eqb filter "blur")];
  simpl;
  repeat match goal with
    | |- context [imaging_Open ?p] => destruct (imaging_Open p); simpl
    | |- context [imaging_Save ?i ?p] => destruct (imaging_Save i p); simpl
    end.

Lemma processItem_seqcode file :
  seqcode (processItem src dst filter file) = true.
Proof. item_cases; reflexivity. Qed.

Lemma processItem_io file :
  forallb io_send (script (processItem src dst filter file)) = true.
Proof. item_cases; reflexivity. Qed.

(** Whatever the filter and whatever [imaging] answers, the item
    processor sends the name of the file, once. *)
Lemma processItem_sent file :
  sent (script (processItem src dst filter file)) = [Name file].
Proof. item_cases; reflexivity. Qed.

Lemma processItem_written file :
  Forall (fun p => p = filepath_Join dst (Name file))
    (written (script (processItem src dst filter file))).
Proof. item_cases; repeat constructor. Qed.

Lemma processItem_blur file :
  Forall blur_ok (script (processItem src dst filter file)).
Proof. item_cases; repeat constructor. Qed.

Lemma processItem_opens file :
  Forall (fun a => match a with
                   | Open p => p = filepath_Join src (Name file)
                   | _ => True
                   end)
    (script (processItem src dst filter file)).
Proof. item_cases; repeat constructor. Qed.

(** The transform applied is the one the filter names. *)
Lemma processItem_transform file a :
  a ∈ script (processItem src dst filter file) ->
  match a with
  | Grayscale _ => filter = "grayscale"
  | Blur _ _ => filter = "blur"
  | _ => True
  end.
Proof.
  unfold processItem, applyGrayscaleFilter, applyBlurFilter.
  destruct (String.eqb_spec filter "grayscale") as [-> | Hg];
    [| destruct (String.eqb_spec filter "blur") as [-> | Hb]];
    simpl;
    repeat match goal with
      | |- context [imaging_Open ?p] => destruct (imaging_Open p); simpl
      | |- context [imaging_Save ?i ?p] => destruct (imaging_Save i p); simpl
      end;
    intros Ha; decompose_list_elem_of; subst; done.
Qed.

(** An unrecognized filter: a report, and the completion event. *)
Lemma processItem_invalid file :
  String.eqb filter "grayscale" = false -> String.eqb filter "blur" = false ->
  script (processItem src dst filter file)
  = [Printf ("Invalid filter: " ++ filter ++ nl); Send (Name file)].
Proof. intros H1 H2. unfold processItem. by rewrite H1, H2. Qed.

(** With the blur filter, an image that opens is blurred with the
    constant radius. *)
Lemma processItem_blurred file img :
  filter = "blur" ->
  imaging_Open (filepath_Join src (Name file)) = inl img ->
  Blur img blur_sigma ∈ script (processItem src dst filter file).
Proof.
  intros -> H. unfold processItem, applyBlurFilter. simpl. rewrite H. simpl.
  destruct (imaging_Save _ _); simpl;
    apply elem_of_cons; right; apply elem_of_cons; by left.
Qed.

End Items.

(** ** The scripts of the two strategies *)

Section Strategies.

Context {E : Env}.

Variables (src dst filter : string).

Lemma visible_app l1 l2 : visible (l1 ++ l2) = (visible l1 ++ visible l2)%list.
Proof. apply omap_app. Qed.

Lemma visible_perm l1 l2 : l1 ≡ₚ l2 -> visible l1 ≡ₚ visible l2.
Proof. apply omap_Permutation. Qed.

Lemma visible_io l : forallb io_send l = true -> visible l = l.
Proof.
  unfold visible. induction l as [| a l IH]; [done |].
  intros H. simpl in H. apply andb_true_iff in H as [Ha Hl].
  specialize (IH Hl). destruct a; try done; simpl; f_equal; exact IH.
Qed.

Lemma visible_lines l : visible (map finished_line l) = map finished_line l.
Proof.
  induction l as [| v l IH]; [done |].
  change (visible (map finished_line (v :: l)))
    with (finished_line v :: visible (map finished_line l)).
  by rewrite IH.
Qed.

Lemma elem_of_visible a l : a ∈ l -> is_sync a = false -> a ∈ visible l.
Proof.
  intros Ha Hs. unfold visible. apply list_elem_of_omap. exists a. split; [done |].
  by rewrite Hs.
Qed.

Lemma omap_visible {X : Type} (g : Act -> option X) l :
  (forall a, is_sync a = true -> g a = None) ->
  omap g (visible l) = omap g l.
Proof.
  intros Hg. unfold visible. induction l as [| a l IH]; [done |].
  pose proof (Hg a) as Ha.
  destruct a; simpl in *;
    first [ rewrite Ha by done; exact IH
          | match goal with
            | |- context [g ?x] => destruct (g x)
            end; [f_equal |]; exact IH ].
Qed.

Lemma sent_visible l : sent (visible l) = sent l.
Proof. apply omap_visible. by intros []. Qed.

Lemma console_visible l : console (visible l) = console l.
Proof. apply omap_visible. by intros []. Qed.

Lemma written_visible l : written (visible l) = written l.
Proof. apply omap_visible. by intros []. Qed.

Lemma imaging_calls_visible l : imaging_calls (visible l) = imaging_calls l.
Proof. apply omap_visible. by intros []. Qed.

Lemma forallb_concat {X Y : Type} (P : Y -> bool) (f : X -> list Y) l :
  (forall x, forallb P (f x) = true) -> forallb P (concat (map f l)) = true.
Proof.
  intros H. induction l as [| x l IH]; [done |]. simpl.
  by rewrite forallb_app, H, IH.
Qed.

Lemma entry_io f : forallb io_send (entry_script src dst filter f) = true.
Proof.
  unfold entry_script. destruct (IsDir f); [done |]. apply processItem_io.
Qed.

Lemma entries_io fl : forallb io_send (entries src dst filter fl) = true.
Proof. apply forallb_concat, entry_io. Qed.

Lemma entries_sent fl : sent (entries src dst filter fl) = eligible_names fl.
Proof.
  unfold entries, eligible_names, eligible.
  induction fl as [| f fl IH]; [done |]. simpl.
  rewrite sent_app, IH. unfold entry_script.
  destruct (IsDir f); simpl; [done |]. by rewrite processItem_sent.
Qed.

Lemma ends_done_snoc l :
  forallb io_send l = true -> ends_done (l ++ [WgDone]) = true.
Proof.
  induction l as [| a l IH]; [done |]. simpl.
  intros H. apply andb_true_iff in H as [Ha Hl].
  rewrite Ha, (IH Hl). by destruct l.
Qed.

(** [applyFilters]: the listing, the entries in the order of the listing,
    and the deferred [wg.Done()]. *)
Lemma applyFilters_script :
  script (applyFilters src dst filter)
  = ReadDir src ::
    (match ioutil_ReadDir src with
     | inl fl => entries src dst filter fl
     | inr err => [Printf (read_error err)]
     end ++ [WgDone])%list.
Proof.
  unfold applyFilters, defer. rewrite script_bind. simpl. f_equal. f_equal.
  destruct (ioutil_ReadDir src) as [fl | err]; simpl; [| done].
  rewrite script_for_each. unfold entries. f_equal.
  apply map_ext. intros f. unfold entry_script. by destruct (IsDir f).
Qed.

Lemma applyFilters_seqcode : seqcode (applyFilters src dst filter) = true.
Proof.
  unfold applyFilters, defer. rewrite seqcode_bind. simpl.
  destruct (ioutil_ReadDir src) as [fl | err]; simpl; [| done].
  rewrite seqcode_for_each; [done |].
  intros f. destruct (IsDir f); [done |]. apply processItem_seqcode.
Qed.

Lemma applyFilters_body : worker_body (applyFilters src dst filter).
Proof.
  split; [apply applyFilters_seqcode |].
  rewrite applyFilters_script.
  change (ReadDir src :: ?l ++ [WgDone])%list with ((ReadDir src :: l) ++ [WgDone])%list.
  apply ends_done_snoc. simpl.
  destruct (ioutil_ReadDir src) as [fl | err]; [apply entries_io | done].
Qed.

Lemma channelWorker_script fl i f :
  fl !! i = Some f ->
  script (channelWorker src dst filter fl i)
  = (entry_script src dst filter f ++ [WgDone])%list.
Proof.
  intros H. unfold channelWorker, defer. rewrite script_bind, H.
  unfold entry_script. by destruct (IsDir f).
Qed.

Lemma channelWorker_body fl i f :
  fl !! i = Some f -> worker_body (channelWorker src dst filter fl i).
Proof.
  intros H. split.
  - unfold channelWorker, defer. rewrite seqcode_bind, H.
    destruct (IsDir f); simpl; [done |]. by rewrite processItem_seqcode.
  - rewrite (channelWorker_script _ _ _ H). apply ends_done_snoc, entry_io.
Qed.

Lemma channel_workers_body fl :
  Forall worker_body (channel_workers src dst filter fl).
Proof.
  unfold channel_workers. apply List.Forall_map, List.Forall_forall.
  intros i Hi. apply in_seq in Hi as [_ Hi]. simpl in Hi.
  destruct (lookup_lt_is_Some_2 fl i Hi) as [f Hf].
  by eapply channelWorker_body.
Qed.

End Strategies.

Section Dispatching.

Context {E : Env}.

Variables (src dst filter : string).

Lemma script_spawn_all (bodies : list (M unit)) (rest : M unit) :
  script (spawn_all bodies rest)
  = (concat (map (fun b => WgAdd 1 :: script b) bodies) ++ script rest)%list.
Proof.
  induction bodies as [| b bs IH]; [done |]. simpl. rewrite IH.
  by rewrite <- app_assoc.
Qed.

Lemma visible_spawn (bodies : list (M unit)) :
  visible (script (spawn_all bodies collect))
  = visible (concat (map script bodies)).
Proof.
  induction bodies as [| b bs IH]; [done |]. simpl.
  change (WgAdd 1 :: ?l) with ([WgAdd 1] ++ l)%list.
  rewrite !visible_app, IH. reflexivity.
Qed.

Lemma sent_spawn (bodies : list (M unit)) :
  sent (script (spawn_all bodies collect)) = sent (concat (map script bodies)).
Proof. by rewrite <- sent_visible, visible_spawn, sent_visible. Qed.

Lemma visible_account L0 c (bodies : list (M unit)) :
  visible (account L0 (script (dispatch c bodies)) [])
  = (visible L0 ++ visible (concat (map script bodies))
     ++ map finished_line (sent (concat (map script bodies))))%list.
Proof.
  unfold account. rewrite !visible_app, visible_lines, app_nil_r.
  change (script (dispatch c bodies))
    with ([MakeChan c] ++ script (spawn_all bodies collect))%list.
  by rewrite visible_app, sent_app, visible_spawn, sent_spawn.
Qed.

(** The loop of Strategy B starts the workers in the order of the
    indices. *)
Lemma spawn_loop (fl : list FileInfo) (idxs : list nat) (rest : M unit) :
  (_u <- for_each idxs (fun i =>
           _v <- act (WgAdd 1) ;; go (channelWorker src dst filter fl i)) ;;
   rest)
  = spawn_all (map (channelWorker src dst filter fl) idxs) rest.
Proof.
  induction idxs as [| i idxs IH]; [done |].
  change (Do (WgAdd 1) (fun _ =>
            Go (channelWorker src dst filter fl i)
               (_u <- for_each idxs (fun i =>
                        _v <- act (WgAdd 1) ;;
                        go (channelWorker src dst filter fl i)) ;;
                rest))
          = spawn_all (map (channelWorker src dst filter fl) (i :: idxs)) rest).
  by rewrite IH.
Qed.

Lemma map_seq_lookup {X Y : Type} (F : nat -> Y) (G : X -> Y) (l : list X) n :
  (forall i x, l !! i = Some x -> F (n + i)%nat = G x) ->
  map F (seq n (length l)) = map G l.
Proof.
  revert n. induction l as [| x l IH]; intros n H; [done |]. simpl. f_equal.
  - rewrite <- (H 0%nat x eq_refl). f_equal. lia.
  - apply IH. intros i y Hi. rewrite <- (H (S i) y Hi). f_equal. lia.
Qed.

Lemma channel_workers_scripts fl :
  map script (channel_workers src dst filter fl)
  = map (fun f => entry_script src dst filter f ++ [WgDone])%list fl.
Proof.
  unfold channel_workers. rewrite map_map.
  apply (map_seq_lookup _ _ fl 0). intros i f Hi. simpl.
  by apply channelWorker_script.
Qed.

Lemma channel_workers_length fl :
  length (channel_workers src dst filter fl) = length fl.
Proof. unfold channel_workers. by rewrite length_map, length_seq. Qed.

Lemma visible_channel_workers fl :
  visible (concat (map script (channel_workers src dst filter fl)))
  = entries src dst filter fl.
Proof.
  rewrite channel_workers_scripts. unfold entries.
  induction fl as [| f fl IH]; [done |]. simpl.
  rewrite <- app_assoc, !visible_app, IH, (visible_io _ (entry_io src dst filter f)).
  reflexivity.
Qed.

Lemma sent_channel_workers fl :
  sent (concat (map script (channel_workers src dst filter fl)))
  = eligible_names fl.
Proof.
  by rewrite <- sent_visible, visible_channel_workers, entries_sent.
Qed.

Lemma visible_applyFilters :
  visible (script (applyFilters src dst filter))
  = ReadDir src ::
    match ioutil_ReadDir src with
    | inl fl => entries src dst filter fl
    | inr err => [Printf (read_error err)]
    end.
Proof.
  rewrite applyFilters_script.
  change (ReadDir src :: ?l)%list with ([ReadDir src] ++ l)%list.
  rewrite !visible_app. simpl. rewrite app_nil_r. f_equal.
  destruct (ioutil_ReadDir src) as [fl | err]; [| done].
  apply visible_io, entries_io.
Qed.

Lemma sent_applyFilters :
  sent (script (applyFilters src dst filter)) = batch_names src.
Proof.
  rewrite <- sent_visible, visible_applyFilters. unfold batch_names.
  destruct (ioutil_ReadDir src) as [fl | err]; [| done].
  apply entries_sent.
Qed.

End Dispatching.


(** ** The runs of the two strategies *)

Section Results.

Context {E : Env}.

Variables (src dst filter : string).

Lemma waitgroup_dispatch :
  processImagesWithWaitGroup src dst filter
  = dispatch 0 [applyFilters src dst filter].
Proof. reflexivity. Qed.

Lemma waitgroup_start :
  dispatch_start 0 [applyFilters src dst filter] []
    (start (processImagesWithWaitGroup src dst filter)).
Proof. repeat split. Qed.

Lemma waitgroup_bodies : Forall worker_body [applyFilters src dst filter].
Proof. constructor; [apply applyFilters_body | done]. Qed.

Lemma waitgroup_expected :
  visible (account [] (script (dispatch 0 [applyFilters src dst filter])) [])
  = expected src dst filter.
Proof.
  rewrite visible_account.
  change (concat (map script [applyFilters src dst filter]))
    with (script (applyFilters src dst filter) ++ [])%list.
  rewrite app_nil_r, visible_applyFilters, sent_applyFilters.
  unfold expected, batch_names. simpl. f_equal.
  destruct (ioutil_ReadDir src); [done |]. by rewrite app_nil_r.
Qed.

Lemma waitgroup_sent :
  sent (script (dispatch 0 [applyFilters src dst filter])) = batch_names src.
Proof.
  change (script (dispatch 0 ?b)) with ([MakeChan 0] ++ script (spawn_all b collect))%list.
  rewrite sent_app, sent_spawn.
  change (concat (map script [applyFilters src dst filter]))
    with (script (applyFilters src dst filter) ++ [])%list.
  rewrite app_nil_r. apply sent_applyFilters.
Qed.

(** Strategy A, when main has returned. *)
Lemma waitgroup_completes :
  completes (start (processImagesWithWaitGroup src dst filter)) (fun s =>
    visible (log s) ≡ₚ expected src dst filter /\
    sent (log s) = batch_names src /\
    finished_lines (log s) = map finished (batch_names src) /\
    chan_closed s = true /\ wg s = 0 /\ pool s = [Ret tt; Ret tt; Ret tt]).
Proof.
  eapply completes_impl.
  - eapply (dispatch_completes 0 [applyFilters src dst filter] []).
    + apply waitgroup_bodies.
    + by left.
    + done.
    + apply waitgroup_start.
  - intros s (H1 & H2 & H3 & H4 & H5 & H6 & H7 & H8).
    specialize (H8 (le_n 1)). rewrite waitgroup_sent in H8.
    change (sent (log s) = batch_names src) in H8.
    split; [| split; [| split]]; try done.
    + rewrite <- waitgroup_expected. by apply visible_perm.
    + by rewrite H2, H8.
Qed.

(** Strategy A, at any time. *)
Lemma waitgroup_always :
  always (start (processImagesWithWaitGroup src dst filter)) (fun s =>
    panicked s = false /\
    (forall a, a ∈ log s -> is_sync a = false -> a ∈ expected src dst filter) /\
    sent (log s) `prefix_of` batch_names src /\
    finished_lines (log s) `prefix_of` map finished (sent (log s)) /\
    (length (pool s) <= 3)%nat).
Proof.
  eapply always_impl.
  - eapply (dispatch_always 0 [applyFilters src dst filter] []).
    + apply waitgroup_bodies.
    + by left.
    + done.
    + apply waitgroup_start.
  - intros s (m & ws & sp & I).
    split; [by destruct I |]. split; [| split; [| split]].
    + intros a Ha Hs. rewrite <- waitgroup_expected.
      apply elem_of_visible; [| done]. eapply inv_log_in; eauto.
    + rewrite <- waitgroup_sent.
      eapply (inv_sent_prefix 0 [applyFilters src dst filter] []);
        [by split | exact I | simpl; lia].
    + eapply inv_lines_prefix; exact I.
    + eapply (inv_pool_length 0 [applyFilters src dst filter]);
        [by left | exact I].
Qed.

Lemma channel_after_read :
  exists s1,
    exited (start (processImagesWithChannel src dst filter)) = false /\
    step 0%nat (start (processImagesWithChannel src dst filter)) = Some s1 /\
    (forall i s', step i (start (processImagesWithChannel src dst filter)) = Some s'
                  -> s' = s1) /\
    log s1 = [ReadDir src] /\ chan s1 = None /\ wg s1 = 0 /\
    panicked s1 = false /\
    pool s1 = [match ioutil_ReadDir src with
               | inl fl => dispatch (length fl) (channel_workers src dst filter fl)
               | inr err => act (Printf (read_error err))
               end].
Proof.
  edestruct (lone_step (start (processImagesWithChannel src dst filter)))
    as (He & Hs & Hdet); [reflexivity | reflexivity | reflexivity |].
  eexists. split; [exact He |]. split; [exact Hs |]. split; [exact Hdet |].
  repeat (split; [reflexivity |]).
  simpl. f_equal. destruct (ioutil_ReadDir src) as [fl | err]; [| done].
  change (Do (MakeChan (length fl)) (fun _ =>
            _u <- for_each (seq 0 (length fl)) (fun i =>
                    _v <- act (WgAdd 1) ;;
                    go (channelWorker src dst filter fl i)) ;;
            collect)
          = dispatch (length fl) (channel_workers src dst filter fl)).
  by rewrite spawn_loop.
Qed.

Lemma channel_sent fl :
  sent (script (dispatch (length fl) (channel_workers src dst filter fl)))
  = eligible_names fl.
Proof.
  change (script (dispatch ?c ?b)) with ([MakeChan c] ++ script (spawn_all b collect))%list.
  by rewrite sent_app, sent_spawn, sent_channel_workers.
Qed.

Lemma eligible_length fl : (length (eligible_names fl) <= length fl)%nat.
Proof.
  unfold eligible_names, eligible. rewrite length_map. apply List.filter_length_le.
Qed.

Lemma channel_cap fl :
  (length (sent (script (dispatch (length fl) (channel_workers src dst filter fl))))
   <= length fl)%nat.
Proof. rewrite channel_sent. apply eligible_length. Qed.

Lemma channel_expected fl :
  ioutil_ReadDir src = inl fl ->
  visible (account [ReadDir src]
             (script (dispatch (length fl) (channel_workers src dst filter fl))) [])
  = expected src dst filter.
Proof.
  intros H. rewrite visible_account, visible_channel_workers, sent_channel_workers.
  unfold expected. by rewrite H.
Qed.

(** Strategy B, when main has returned. *)
Lemma channel_completes :
  completes (start (processImagesWithChannel src dst filter)) (fun s =>
    visible (log s) ≡ₚ expected src dst filter /\
    sent (log s) ≡ₚ batch_names src /\
    finished_lines (log s) = map finished (sent (log s)) /\
    match ioutil_ReadDir src with
    | inl fl =>
        chan_closed s = true /\ wg s = 0 /\
        pool s = replicate (length fl + 2) (Ret tt)
    | inr _ => chan s = None /\ pool s = [Ret tt]
    end).
Proof.
  destruct channel_after_read
    as (s1 & He & Hs & Hdet & Hlog & Hch & Hwg & Hpan & Hpool).
  eapply completes_step; eauto.
  destruct (ioutil_ReadDir src) as [fl | err] eqn:Hrd.
  - eapply completes_impl.
    + eapply (dispatch_completes (length fl)
                (channel_workers src dst filter fl) [ReadDir src]).
      * apply channel_workers_body.
      * right. apply channel_cap.
      * done.
      * done.
    + intros s (H1 & H2 & H3 & H4 & H5 & H6 & H7 & _).
      rewrite channel_workers_length in H7.
      apply visible_perm in H1. rewrite (channel_expected fl Hrd) in H1.
      split; [done |]. split; [| done].
      rewrite <- sent_visible. unfold sent at 1. rewrite H1.
      fold (sent (expected src dst filter)).
      unfold expected, batch_names. rewrite Hrd.
      change (ReadDir src :: ?l) with ([ReadDir src] ++ l)%list.
      rewrite !sent_app, entries_sent, sent_finished_lines.
      simpl. by rewrite app_nil_r.
  - eapply print_completes; eauto.
    simpl. rewrite Hlog. unfold expected, batch_names. rewrite Hrd. simpl.
    done.
Qed.

(** Strategy B, at any time. *)
Lemma channel_always :
  always (start (processImagesWithChannel src dst filter)) (fun s =>
    panicked s = false /\
    (forall a, a ∈ log s -> is_sync a = false -> a ∈ expected src dst filter) /\
    finished_lines (log s) `prefix_of` map finished (sent (log s)) /\
    match ioutil_ReadDir src with
    | inl fl =>
        (length (pool s) <= length fl + 2)%nat /\
        (forall ch, chan s = Some ch -> cap ch = length fl) /\
        (forall i v (k : Res (Send v) -> M unit),
           pool s !! i = Some (Do (Send v) k) ->
           exists s', step i s = Some s' /\ panicked s' = false /\
                      buffer s' = (buffer s ++ [v])%list)
    | inr _ => length (pool s) = 1%nat /\ chan s = None
    end).
Proof.
  destruct channel_after_read
    as (s1 & He & Hs & Hdet & Hlog & Hch & Hwg & Hpan & Hpool).
  eapply always_step; eauto.
  { split; [done |]. split; [by intros a Ha; apply elem_of_nil in Ha |].
    split; [by exists [] |].
    destruct (ioutil_ReadDir src) as [fl | err]; [| done].
    split; [simpl; lia |]. split; [done |].
    intros [| i] v k H; [| done]. simpl in H. by injection H. }
  destruct (ioutil_ReadDir src) as [fl | err] eqn:Hrd.
  - eapply always_impl.
    + eapply (dispatch_always (length fl)
                (channel_workers src dst filter fl) [ReadDir src]).
      * apply channel_workers_body.
      * right. apply channel_cap.
      * done.
      * done.
    + intros s (m & ws & sp & I).
      split; [by destruct I |]. split; [| split; [| split; [| split]]].
      * intros a Ha Hsy. rewrite <- (channel_expected fl Hrd).
        apply elem_of_visible; [| done]. eapply inv_log_in; eauto.
      * eapply inv_lines_prefix; exact I.
      * pose proof (inv_pool_length (length fl) _ _
                      (or_intror (channel_cap fl)) _ _ _ _ I) as Hl.
        by rewrite channel_workers_length in Hl.
      * intros ch H. eapply inv_cap; eauto.
      * intros i v k H.
        eapply (inv_send_step (length fl)
                  (channel_workers src dst filter fl) [ReadDir src]);
          [right; apply channel_cap | done | exact I | apply channel_cap | exact H].
  - eapply print_always; eauto.
    + rewrite Hlog. split; [done |]. split.
      { intros a Ha Hsy. apply list_elem_of_singleton in Ha as ->.
        unfold expected. apply elem_of_cons. by left. }
      split; [by exists [] |]. rewrite Hpool. done.
    + simpl. rewrite Hlog. split; [done |]. split.
      { intros a Ha Hsy. unfold expected. by rewrite Hrd. }
      split; [by exists [] | done].
Qed.

End Results.


(** ** What a complete run shows *)

Section Expected.

Context {E : Env}.

Variables (src dst filter : string).

Lemma sent_expected : sent (expected src dst filter) = batch_names src.
Proof.
  unfold expected, batch_names.
  change (ReadDir src :: ?l) with ([ReadDir src] ++ l)%list.
  rewrite sent_app. destruct (ioutil_ReadDir src) as [fl | err]; [| done].
  rewrite sent_app, entries_sent, sent_finished_lines. simpl.
  by rewrite app_nil_r.
Qed.

Lemma console_lines (l : list string) : console (map finished_line l) = map finished l.
Proof. induction l as [| v l IH]; [done |]. simpl. by f_equal. Qed.

Lemma filter_perm {X : Type} (P : X -> bool) (l l' : list X) :
  l ≡ₚ l' -> List.filter P l ≡ₚ List.filter P l'.
Proof.
  induction 1 as [| x l l' _ IH | x y l | l l' l'' _ IH1 _ IH2]; simpl.
  - done.
  - destruct (P x); [by constructor | done].
  - destruct (P x), (P y); try done. apply perm_swap.
  - by etrans.
Qed.

Lemma entries_in a fl :
  a ∈ entries src dst filter fl ->
  exists f, f ∈ eligible fl /\ a ∈ script (processItem src dst filter f).
Proof.
  unfold entries, eligible. induction fl as [| f fl IH]; simpl.
  - intros H. by apply elem_of_nil in H.
  - intros H. apply elem_of_app in H as [H | H].
    + unfold entry_script in H. destruct (IsDir f) eqn:Hd; simpl.
      * by apply elem_of_nil in H.
      * exists f. split; [apply elem_of_cons; by left | done].
    + destruct (IH H) as (f' & H1 & H2). exists f'. split; [| done].
      destruct (IsDir f); simpl; [done | apply elem_of_cons; by right].
Qed.

Lemma in_entries a f fl :
  f ∈ eligible fl -> a ∈ script (processItem src dst filter f) ->
  a ∈ entries src dst filter fl.
Proof.
  unfold entries, eligible. induction fl as [| f0 fl IH]; simpl.
  - intros H. by apply elem_of_nil in H.
  - intros H Ha. apply elem_of_app. unfold entry_script at 1.
    destruct (IsDir f0) eqn:Hd; simpl in *.
    + right. auto.
    + apply elem_of_cons in H as [-> | H]; [by left | right; auto].
Qed.

(** An action of a complete run: the listing, an action of the item
    processor on a file of the listing, a line of the collector for such
    a file, or the report of a failed listing. *)
Lemma expected_in a :
  a ∈ expected src dst filter ->
  a = ReadDir src \/
  match ioutil_ReadDir src with
  | inl fl =>
      exists f, f ∈ eligible fl /\
        (a ∈ script (processItem src dst filter f) \/ a = finished_line (Name f))
  | inr err => a = Printf (read_error err)
  end.
Proof.
  unfold expected. intros H. apply elem_of_cons in H as [-> | H]; [by left |].
  right. destruct (ioutil_ReadDir src) as [fl | err].
  - apply elem_of_app in H as [H | H].
    + destruct (entries_in _ _ H) as (f & H1 & H2). eauto.
    + unfold eligible_names in H. rewrite map_map in H.
      apply list_elem_of_In, in_map_iff in H as (f & <- & H).
      apply list_elem_of_In in H. eauto.
  - by apply list_elem_of_singleton in H.
Qed.

End Expected.


(** * The claims *)

Lemma batch_names_listed {E : Env} (src : string) (fileList : list FileInfo) :
  ioutil_ReadDir src = inl fileList -> batch_names src = eligible_names fileList.
Proof. unfold batch_names. by intros ->. Qed.

Lemma eligible_names_length (fileList : list FileInfo) :
  length (eligible_names fileList) = length (eligible fileList).
Proof. unfold eligible_names. apply length_map. Qed.

(** The counts of a complete run, for a directory that can be listed. *)
Lemma waitgroup_counts {E : Env} (src dst filter : string)
    (fileList : list FileInfo) :
  ioutil_ReadDir src = inl fileList ->
  completes (start (processImagesWithWaitGroup src dst filter)) (fun s =>
    visible (log s) ≡ₚ expected src dst filter /\
    length (sent (log s)) = length (eligible fileList) /\
    length (finished_lines (log s)) = length (eligible fileList) /\
    chan_closed s = true).
Proof.
  intros Hrd. pose proof (batch_names_listed src fileList Hrd) as Hn.
  eapply completes_impl; [apply waitgroup_completes |].
  intros s (H1 & H2 & H3 & H4 & _).
  rewrite H2, H3, length_map, Hn, eligible_names_length. done.
Qed.

Lemma channel_counts {E : Env} (src dst filter : string)
    (fileList : list FileInfo) :
  ioutil_ReadDir src = inl fileList ->
  completes (start (processImagesWithChannel src dst filter)) (fun s =>
    visible (log s) ≡ₚ expected src dst filter /\
    length (sent (log s)) = length (eligible fileList) /\
    length (finished_lines (log s)) = length (eligible fileList) /\
    chan_closed s = true).
Proof.
  intros Hrd. pose proof (batch_names_listed src fileList Hrd) as Hn.
  eapply completes_impl; [apply channel_completes |].
  intros s (H1 & H2 & H3 & H4). rewrite Hrd in H4. destruct H4 as (H4 & _).
  rewrite H3, length_map, (Permutation_length H2), Hn, eligible_names_length.
  done.
Qed.

(** C1.  When the source directory lists [fileList], every run of either
    strategy is finite, never gets stuck, and ends with main returned, the
    channel closed, and exactly one completion event and one "Finished
    processing" line for every non-directory entry.  For an empty listing
    no such line is printed. *)
Theorem completion_is_complete (E : Env) (src dst filter : string)
    (fileList : list FileInfo) :
  ioutil_ReadDir src = inl fileList ->
  let all_reported := fun s : State =>
    length (sent (log s)) = length (eligible fileList) /\
    length (finished_lines (log s)) = length (eligible fileList) /\
    chan_closed s = true in
  completes (start (processImagesWithWaitGroup src dst filter)) all_reported /\
  completes (start (processImagesWithChannel src dst filter)) all_reported /\
  (fileList = [] ->
   completes (start (processImagesWithWaitGroup src dst filter))
     (fun s => finished_lines (log s) = []) /\
   completes (start (processImagesWithChannel src dst filter))
     (fun s => finished_lines (log s) = [])).
Proof.
  intros Hrd all_reported.
  assert (completes (start (processImagesWithWaitGroup src dst filter)) all_reported)
    as HA.
  { eapply completes_impl; [by apply waitgroup_counts |]. by intros s (_ & H). }
  assert (completes (start (processImagesWithChannel src dst filter)) all_reported)
    as HB.
  { eapply completes_impl; [by apply channel_counts |]. by intros s (_ & H). }
  split; [done |]. split; [done |]. intros ->.
  split; (eapply completes_impl; [eassumption |]);
    intros s (_ & H & _); by destruct (finished_lines (log s)).
Qed.

(** The listing [photos]: two files and a directory. *)
Lemma completion_is_complete_witness :
  @ioutil_ReadDir demo "photos"
  = inl [mkFileInfo "a.png" false; mkFileInfo "sub" true; mkFileInfo "b.txt" false] /\
  completes (E := demo) (start (processImagesWithWaitGroup "photos" "out" "grayscale"))
    (fun s => length (sent (log s)) = 2%nat /\
              length (finished_lines (log s)) = 2%nat /\
              chan_closed s = true).
Proof.
  split; [reflexivity |].
  exact (proj1 (completion_is_complete demo "photos" "out" "grayscale" _ eq_refl)).
Defined.

Lemma is_invalid_filter_report (filter : string) :
  is_invalid_filter ("Invalid filter: " ++ filter ++ nl) = true.
Proof. unfold is_invalid_filter. simpl. by destruct filter. Qed.

Lemma invalid_entries {E : Env} (src dst filter : string) (fl : list FileInfo) :
  String.eqb filter "grayscale" = false -> String.eqb filter "blur" = false ->
  written (entries src dst filter fl) = [] /\
  imaging_calls (entries src dst filter fl) = [] /\
  length (List.filter is_invalid_filter (console (entries src dst filter fl)))
  = length (eligible fl).
Proof.
  intros H1 H2. unfold entries, eligible.
  induction fl as [| f fl (IH1 & IH2 & IH3)]; [done |]. simpl.
  rewrite written_app, IH1. unfold imaging_calls in *. rewrite omap_app, IH2.
  rewrite console_app, List.filter_app, length_app, IH3.
  unfold entry_script. destruct (IsDir f); simpl; [done |].
  rewrite (processItem_invalid src dst filter f H1 H2).
  change (console [Printf ?t; Send ?v]) with [t].
  change (List.filter is_invalid_filter [?t])
    with (if is_invalid_filter t then [t] else []).
  by rewrite is_invalid_filter_report.
Qed.

Lemma no_invalid_finished (l : list string) :
  List.filter is_invalid_filter (map finished l) = [].
Proof. induction l as [| v l IH]; [done | exact IH]. Qed.

Lemma invalid_expected {E : Env} (src dst filter : string) (fl : list FileInfo) :
  String.eqb filter "grayscale" = false -> String.eqb filter "blur" = false ->
  ioutil_ReadDir src = inl fl ->
  written (expected src dst filter) = [] /\
  imaging_calls (expected src dst filter) = [] /\
  length (List.filter is_invalid_filter (console (expected src dst filter)))
  = length (eligible fl).
Proof.
  intros H1 H2 Hrd. unfold expected. rewrite Hrd.
  destruct (invalid_entries src dst filter fl H1 H2) as (E1 & E2 & E3).
  change (ReadDir src :: ?l) with ([ReadDir src] ++ l)%list.
  unfold imaging_calls in *.
  rewrite !written_app, !omap_app, !console_app, E1, E2.
  rewrite !List.filter_app, !length_app, E3, console_lines, no_invalid_finished.
  split; [| split].
  - simpl. clear. induction (eligible_names fl); [done | done].
  - simpl. clear. induction (eligible_names fl); [done | done].
  - simpl. lia.
Qed.

(** What a run shows of an unrecognized filter. *)
Lemma invalid_filter_shown {E : Env} (src dst filter : string)
    (fl : list FileInfo) (s : State) :
  String.eqb filter "grayscale" = false -> String.eqb filter "blur" = false ->
  ioutil_ReadDir src = inl fl ->
  visible (log s) ≡ₚ expected src dst filter ->
  written (log s) = [] /\ imaging_calls (log s) = [] /\
  length (List.filter is_invalid_filter (console (log s))) = length (eligible fl).
Proof.
  intros H1 H2 Hrd Hv.
  destruct (invalid_expected src dst filter fl H1 H2 Hrd) as (E1 & E2 & E3).
  split; [| split].
  - rewrite <- written_visible. apply Permutation_nil_r. rewrite <- E1.
    unfold written. by apply omap_Permutation.
  - rewrite <- imaging_calls_visible. apply Permutation_nil_r. rewrite <- E2.
    unfold imaging_calls. by apply omap_Permutation.
  - rewrite <- console_visible, <- E3. apply Permutation_length, filter_perm.
    unfold console. by apply omap_Permutation.
Qed.

(** C2.  Whatever the filter and whatever the image library answers, the
    item processor is straight-line code that sends the name of the file
    exactly once.  For a filter that is neither "grayscale" nor "blur" the
    item processor only reports "Invalid filter" and sends the name; a
    complete run of either strategy then writes no file, calls no
    transform, prints one "Invalid filter" line and one "Finished
    processing" line for every non-directory entry. *)
Theorem one_completion_event_per_item (E : Env) (src dst filter : string) :
  (forall file,
     seqcode (processItem src dst filter file) = true /\
     sent (script (processItem src dst filter file)) = [Name file]) /\
  (String.eqb filter "grayscale" = false -> String.eqb filter "blur" = false ->
   (forall file,
      script (processItem src dst filter file)
      = [Printf ("Invalid filter: " ++ filter ++ nl); Send (Name file)]) /\
   forall fileList, ioutil_ReadDir src = inl fileList ->
     let reported := fun s : State =>
       written (log s) = [] /\ imaging_calls (log s) = [] /\
       length (List.filter is_invalid_filter (console (log s)))
       = length (eligible fileList) /\
       length (finished_lines (log s)) = length (eligible fileList) in
     completes (start (processImagesWithWaitGroup src dst filter)) reported /\
     completes (start (processImagesWithChannel src dst filter)) reported).
Proof.
  split.
  - intros file. split; [apply processItem_seqcode | apply processItem_sent].
  - intros H1 H2. split; [intros file; by apply processItem_invalid |].
    intros fileList Hrd reported.
    split.
    + eapply completes_impl; [by apply waitgroup_counts |].
      intros s (Hv & _ & Hf & _).
      destruct (invalid_filter_shown src dst filter fileList s H1 H2 Hrd Hv)
        as (E1 & E2 & E3).
      done.
    + eapply completes_impl; [by apply channel_counts |].
      intros s (Hv & _ & Hf & _).
      destruct (invalid_filter_shown src dst filter fileList s H1 H2 Hrd Hv)
        as (E1 & E2 & E3).
      done.
Qed.

(** The filter "sepia" on the listing [photos]. *)
Lemma one_completion_event_per_item_witness :
  String.eqb "sepia" "grayscale" = false /\ String.eqb "sepia" "blur" = false /\
  @ioutil_ReadDir demo "photos"
  = inl [mkFileInfo "a.png" false; mkFileInfo "sub" true; mkFileInfo "b.txt" false] /\
  completes (E := demo) (start (processImagesWithChannel "photos" "out" "sepia"))
    (fun s => written (log s) = [] /\ imaging_calls (log s) = [] /\
              length (List.filter is_invalid_filter (console (log s))) = 2%nat /\
              length (finished_lines (log s)) = 2%nat).
Proof.
  split; [reflexivity |]. split; [reflexivity |]. split; [reflexivity |].
  exact (proj2 (proj2 (proj2 (one_completion_event_per_item demo "photos" "out" "sepia")
                         eq_refl eq_refl) _ eq_refl)).
Defined.

Lemma prefix_map {X Y : Type} (f : X -> Y) (l1 l2 : list X) :
  l1 `prefix_of` l2 -> map f l1 `prefix_of` map f l2.
Proof. intros [k ->]. exists (map f k). apply map_app. Qed.

(** C3.  Under Strategy A, when the source directory lists [fileList]: at
    any time of any run the completion events sent so far, and the
    "Finished processing" lines printed so far, are the first ones of the
    non-directory entries in the order of the listing; when main has
    returned they are all of them, in that order. *)
Theorem waitgroup_keeps_the_order (E : Env) (src dst filter : string)
    (fileList : list FileInfo) :
  ioutil_ReadDir src = inl fileList ->
  always (start (processImagesWithWaitGroup src dst filter)) (fun s =>
    sent (log s) `prefix_of` eligible_names fileList /\
    finished_lines (log s) `prefix_of` map finished (eligible_names fileList)) /\
  completes (start (processImagesWithWaitGroup src dst filter)) (fun s =>
    sent (log s) = eligible_names fileList /\
    finished_lines (log s) = map finished (eligible_names fileList)).
Proof.
  intros Hrd. pose proof (batch_names_listed src fileList Hrd) as Hn. split.
  - eapply always_impl; [apply waitgroup_always |].
    intros s (_ & _ & H1 & H2 & _). rewrite Hn in H1. split; [done |].
    etrans; [exact H2 |]. by apply prefix_map.
  - eapply completes_impl; [apply waitgroup_completes |].
    intros s (_ & H1 & H2 & _). by rewrite <- Hn.
Qed.

Lemma waitgroup_keeps_the_order_witness :
  @ioutil_ReadDir demo "photos"
  = inl [mkFileInfo "a.png" false; mkFileInfo "sub" true; mkFileInfo "b.txt" false] /\
  completes (E := demo) (start (processImagesWithWaitGroup "photos" "out" "grayscale"))
    (fun s => sent (log s) = ["a.png"; "b.txt"] /\
              finished_lines (log s) = [finished "a.png"; finished "b.txt"]).
Proof.
  split; [reflexivity |].
  exact (proj2 (waitgroup_keeps_the_order demo "photos" "out" "grayscale" _ eq_refl)).
Defined.

(** C5.  When the source directory cannot be listed, every run of either
    strategy is finite and ends with main returned, the error reported
    once and no completion event.  Under Strategy A the worker has
    returned, the counter of the wait group is zero and the channel is
    closed; under Strategy B main is the only goroutine there ever is, and
    the channel is never made. *)
Theorem enumeration_failure_aborts (E : Env) (src dst filter err : string) :
  ioutil_ReadDir src = inr err ->
  completes (start (processImagesWithWaitGroup src dst filter)) (fun s =>
    console (log s) = ["Error reading directory: " ++ err ++ nl] /\
    sent (log s) = [] /\ wg s = 0 /\ chan_closed s = true /\
    pool s = [Ret tt; Ret tt; Ret tt]) /\
  completes (start (processImagesWithChannel src dst filter)) (fun s =>
    console (log s) = ["Error reading directory: " ++ err ++ nl] /\
    sent (log s) = [] /\ chan s = None /\ pool s = [Ret tt]) /\
  always (start (processImagesWithChannel src dst filter)) (fun s =>
    length (pool s) = 1%nat /\ chan s = None).
Proof.
  intros Hrd.
  assert (forall s, visible (log s) ≡ₚ expected src dst filter ->
            console (log s) = ["Error reading directory: " ++ err ++ nl]) as Hc.
  { intros s Hv. rewrite <- console_visible. apply Permutation_singleton_r.
    unfold console at 1. rewrite Hv. unfold expected. by rewrite Hrd. }
  assert (batch_names src = []) as Hn by (unfold batch_names; by rewrite Hrd).
  split; [| split].
  - eapply completes_impl; [apply waitgroup_completes |].
    intros s (H1 & H2 & H3 & H4 & H5 & H6). rewrite Hn in H2. auto.
  - eapply completes_impl; [apply channel_completes |].
    intros s (H1 & H2 & H3 & H4). rewrite Hrd in H4. rewrite Hn in H2.
    apply Permutation_nil_r in H2. destruct H4. auto.
  - eapply always_impl; [apply channel_always |].
    intros s (_ & _ & _ & H). by rewrite Hrd in H.
Qed.

Lemma enumeration_failure_aborts_witness :
  @ioutil_ReadDir demo "nowhere" = inr "open nowhere: no such file or directory" /\
  always (E := demo) (start (processImagesWithChannel "nowhere" "out" "blur"))
    (fun s => length (pool s) = 1%nat /\ chan s = None).
Proof.
  split; [reflexivity |].
  exact (proj2 (proj2 (enumeration_failure_aborts demo "nowhere" "out" "blur" _ eq_refl))).
Defined.

(** C7.  Two complete runs, one of each strategy, on the same source
    directory, destination directory and filter: the completion events,
    the calls into the image library with their arguments, the paths
    written and the console lines are the same up to their order; and the
    events of Strategy A are in the order of the listing. *)
Theorem strategies_agree (E : Env) (src dst filter : string)
    (schedA schedB : list nat) (sA sB : State) :
  run schedA (start (processImagesWithWaitGroup src dst filter)) = Some sA ->
  exited sA = true ->
  run schedB (start (processImagesWithChannel src dst filter)) = Some sB ->
  exited sB = true ->
  sent (log sA) ≡ₚ sent (log sB) /\
  imaging_calls (log sA) ≡ₚ imaging_calls (log sB) /\
  written (log sA) ≡ₚ written (log sB) /\
  console (log sA) ≡ₚ console (log sB) /\
  sent (log sA) = batch_names src.
Proof.
  intros HA HeA HB HeB.
  destruct (waitgroup_completes src dst filter) as (_ & _ & HpA).
  destruct (channel_completes src dst filter) as (_ & _ & HpB).
  destruct (HpA _ _ HA HeA) as (_ & HvA & HsA & _).
  destruct (HpB _ _ HB HeB) as (_ & HvB & HsB & _).
  assert (visible (log sA) ≡ₚ visible (log sB)) as Hv by (by rewrite HvA, HvB).
  split; [by rewrite HsA, HsB |]. split; [| split; [| split]]; [| | | done].
  - rewrite <- (imaging_calls_visible (log sA)), <- (imaging_calls_visible (log sB)).
    unfold imaging_calls. by apply omap_Permutation.
  - rewrite <- (written_visible (log sA)), <- (written_visible (log sB)).
    unfold written. by apply omap_Permutation.
  - rewrite <- (console_visible (log sA)), <- (console_visible (log sB)).
    unfold console. by apply omap_Permutation.
Qed.

Lemma strategies_agree_witness :
  exists sA sB : @State demo,
    run [0; 0; 0; 0; 1; 1; 1; 1; 1; 0; 1; 1; 1; 0; 1; 2; 2; 0]%nat
      (start (processImagesWithWaitGroup "photos" "out" "grayscale")) = Some sA /\
    exited sA = true /\
    run [0; 0; 0; 0; 1; 1; 1; 1; 1; 0; 0; 2; 0; 0; 3; 3; 3; 3; 0; 4; 4;
         0; 0; 0; 0; 0]%nat
      (start (processImagesWithChannel "photos" "out" "grayscale")) = Some sB /\
    exited sB = true /\
    sent (log sA) ≡ₚ sent (log sB) /\
    imaging_calls (log sA) ≡ₚ imaging_calls (log sB).
Proof.
  assert (exists sA : @State demo,
            run [0; 0; 0; 0; 1; 1; 1; 1; 1; 0; 1; 1; 1; 0; 1; 2; 2; 0]%nat
              (start (processImagesWithWaitGroup "photos" "out" "grayscale"))
            = Some sA /\ exited sA = true) as (sA & HA & HeA).
  { eexists. split; vm_compute; reflexivity. }
  assert (exists sB : @State demo,
            run [0; 0; 0; 0; 1; 1; 1; 1; 1; 0; 0; 2; 0; 0; 3; 3; 3; 3; 0; 4; 4;
                 0; 0; 0; 0; 0]%nat
              (start (processImagesWithChannel "photos" "out" "grayscale"))
            = Some sB /\ exited sB = true) as (sB & HB & HeB).
  { eexists. split; vm_compute; reflexivity. }
  exists sA, sB.
  destruct (strategies_agree demo "photos" "out" "grayscale" _ _ _ _ HA HeA HB HeB)
    as (H1 & H2 & _).
  repeat (split; [assumption |]). exact H2.
Defined.

Lemma main_usage {E : Env} (src dst filter task : string) :
  src = "" \/ dst = "" \/ filter = "" \/ task = "" ->
  main src dst filter task = act (Printf usage).
Proof.
  unfold main. intros [-> | [-> | [-> | ->]]]; simpl;
    rewrite ?orb_true_r; reflexivity.
Qed.

Lemma main_invalid_task {E : Env} (src dst filter task : string) :
  src <> "" -> dst <> "" -> filter <> "" -> task <> "" ->
  task <> "waitgrp" -> task <> "channel" ->
  main src dst filter task = act (Printf ("Invalid task method: " ++ task ++ nl)).
Proof.
  intros H1 H2 H3 H4 H5 H6. unfold main.
  apply String.eqb_neq in H1, H2, H3, H4, H5, H6.
  by rewrite H1, H2, H3, H4, H5, H6.
Qed.

(** A program that prints one line and returns. *)
Lemma print_only {E : Env} (t : string) :
  completes (start (act (Printf t))) (fun s => log s = [Printf t]) /\
  always (start (act (Printf t))) (fun s =>
    forall a, a ∈ log s -> a = Printf t).
Proof.
  split.
  - eapply print_completes; done.
  - eapply print_always; try done.
    + intros a Ha. by apply elem_of_nil in Ha.
    + intros a Ha. by apply list_elem_of_singleton in Ha.
Qed.

(** C8.  When one of the four flags is empty, every run of [main] prints
    the usage line and returns: nothing else is executed, so no directory
    is listed and no file is opened or saved, and there is no panic.
    When the four flags are given and the task is neither "waitgrp" nor
    "channel", every run prints the "Invalid task method" line and
    returns, and nothing else is executed. *)
Theorem missing_flag_or_unknown_task (E : Env) (src dst filter task : string) :
  (src = "" \/ dst = "" \/ filter = "" \/ task = "" ->
   completes (start (main src dst filter task)) (fun s =>
     log s = [Printf usage]) /\
   always (start (main src dst filter task)) (fun s =>
     forall a, a ∈ log s -> a = Printf usage /\ is_file_access a = false)) /\
  (src <> "" -> dst <> "" -> filter <> "" -> task <> "" ->
   task <> "waitgrp" -> task <> "channel" ->
   completes (start (main src dst filter task)) (fun s =>
     log s = [Printf ("Invalid task method: " ++ task ++ nl)]) /\
   always (start (main src dst filter task)) (fun s =>
     forall a, a ∈ log s ->
       a = Printf ("Invalid task method: " ++ task ++ nl) /\
       is_file_access a = false)).
Proof.
  split.
  - intros H. rewrite (main_usage _ _ _ _ H).
    destruct (print_only usage) as [Hc Ha]. split; [done |].
    eapply always_impl; [exact Ha |]. intros s Hs a Hin.
    by rewrite (Hs a Hin).
  - intros H1 H2 H3 H4 H5 H6.
    rewrite (main_invalid_task _ _ _ _ H1 H2 H3 H4 H5 H6).
    destruct (print_only ("Invalid task method: " ++ task ++ nl)) as [Hc Ha].
    split; [done |].
    eapply always_impl; [exact Ha |]. intros s Hs a Hin.
    by rewrite (Hs a Hin).
Qed.

Lemma missing_flag_or_unknown_task_witness :
  ("photos" = "" \/ "" = "" \/ "blur" = "" \/ "channel" = "") /\
  completes (E := demo) (start (main "photos" "" "blur" "channel")) (fun s =>
    log s = [Printf usage]).
Proof.
  split; [right; left; reflexivity |].
  exact (proj1 (proj1 (missing_flag_or_unknown_task demo "photos" "" "blur" "channel")
                  (or_intror (or_introl eq_refl)))).
Defined.

Lemma visible_in {E : Env} (a : Act) (l : list Act) : a ∈ visible l -> a ∈ l.
Proof.
  unfold visible. intros H. apply list_elem_of_omap in H as (a' & Ha & H).
  destruct (is_sync a'); [done |]. by injection H as <-.
Qed.

(** The calls of [imaging.Blur] of a complete run. *)
Lemma expected_blur {E : Env} (src dst filter : string) (img : Image) (sigma : float) :
  Blur img sigma ∈ expected src dst filter ->
  sigma = blur_sigma /\ filter = "blur".
Proof.
  intros H. apply expected_in in H as [H | H]; [done |].
  destruct (ioutil_ReadDir src) as [fl | err]; [| done].
  destruct H as (f & _ & [H | H]); [| done]. split.
  - pose proof (processItem_blur src dst filter f) as Hb.
    rewrite Forall_forall in Hb. exact (Hb _ H).
  - exact (processItem_transform src dst filter f _ H).
Qed.

(** C10.  The radius is the constant 5.0.  At any time of any run of
    either strategy, every call of [imaging.Blur] executed has this
    radius, and there is such a call only when the filter is "blur".
    With the filter "blur", when main has returned, the image of every
    non-directory entry that could be opened has been blurred with this
    radius. *)
Theorem blur_radius_is_constant (E : Env) (src dst filter : string) :
  blur_sigma = 5%float /\
  (let constant_radius := fun s : State =>
     forall img sigma, Blur img sigma ∈ log s ->
       sigma = 5%float /\ filter = "blur" in
   always (start (processImagesWithWaitGroup src dst filter)) constant_radius /\
   always (start (processImagesWithChannel src dst filter)) constant_radius) /\
  (filter = "blur" ->
   forall fileList, ioutil_ReadDir src = inl fileList ->
     let all_blurred := fun s : State =>
       forall f img, f ∈ eligible fileList ->
         imaging_Open (filepath_Join src (Name f)) = inl img ->
         Blur img 5%float ∈ log s in
     completes (start (processImagesWithWaitGroup src dst filter)) all_blurred /\
     completes (start (processImagesWithChannel src dst filter)) all_blurred).
Proof.
  split; [reflexivity |]. split.
  - intros constant_radius. split.
    + eapply always_impl; [apply waitgroup_always |].
      intros s (_ & H & _) img sigma Hin.
      apply (expected_blur src dst filter img sigma). by apply H.
    + eapply always_impl; [apply channel_always |].
      intros s (_ & H & _) img sigma Hin.
      apply (expected_blur src dst filter img sigma). by apply H.
  - intros Hf fileList Hrd all_blurred.
    assert (forall s, visible (log s) ≡ₚ expected src dst filter -> all_blurred s)
      as Hall.
    { intros s Hv f img Hin Hopen. apply visible_in. rewrite Hv.
      unfold expected. rewrite Hrd. apply elem_of_cons. right.
      apply elem_of_app. left. eapply in_entries; [exact Hin |].
      by apply processItem_blurred. }
    split.
    + eapply completes_impl; [apply waitgroup_completes |].
      intros s (Hv & _). by apply Hall.
    + eapply completes_impl; [apply channel_completes |].
      intros s (Hv & _). by apply Hall.
Qed.

Lemma blur_radius_is_constant_witness :
  "blur" = "blur" /\
  @ioutil_ReadDir demo "photos"
  = inl [mkFileInfo "a.png" false; mkFileInfo "sub" true; mkFileInfo "b.txt" false] /\
  completes (E := demo) (start (processImagesWithChannel "photos" "out" "blur"))
    (fun s =>
       forall f img,
         f ∈ @eligible [mkFileInfo "a.png" false; mkFileInfo "sub" true;
                        mkFileInfo "b.txt" false] ->
         @imaging_Open demo (@filepath_Join demo "photos" (Name f)) = inl img ->
         @Blur demo img 5%float ∈ log s).
Proof.
  split; [reflexivity |]. split; [reflexivity |].
  exact (proj2 (proj2 (proj2 (blur_radius_is_constant demo "photos" "out" "blur"))
                  eq_refl _ eq_refl)).
Defined.


(** * Further properties *)

(** ** What the invariant says about the synchronization *)

Section Synchronization.

Context {E : Env}.

Variables (c : nat) (bodies : list (M unit)) (L0 : list Act).

Lemma lives_le (ws : list (M unit)) : (lives ws <= length ws)%nat.
Proof.
  unfold lives. induction ws as [| t ws IH]; [done |]. simpl.
  unfold live at 1. destruct (script t); lia.
Qed.

Lemma open_not_closed (s : State) : chan_open s -> chan_closed s = true -> False.
Proof.
  intros (ch & H1 & H2). unfold chan_closed. rewrite H1. congruence.
Qed.

(** The counter of the wait group counts workers. *)
Lemma inv_wg_bounds m ws sp s :
  inv c bodies L0 m ws sp s -> 0 <= wg s <= Z.of_nat (length bodies).
Proof.
  intros I. pose proof (i_phase _ _ _ _ _ _ _ I) as Hph.
  pose proof (lives_le ws) as Hl.
  destruct Hph as [-> -> -> H1 H2 | -> H1 -> H2 H3 | b Hb -> -> H2 H3
          | st Hr H1 -> H2 H3 | st -> H1 -> H2 H3 H4 H5]; try lia.
  apply lookup_lt_Some in Hb. lia.
Qed.

(** The channel is closed only when every worker has called
    [wg.Done()]: nothing is left to send. *)
Lemma inv_closed m ws sp s :
  c = 0%nat \/ (length (sent (script (dispatch c bodies))) <= c)%nat ->
  inv c bodies L0 m ws sp s -> chan_closed s = true ->
  wg s = 0 /\ sent (pending (pool s)) = [].
Proof.
  intros Hcap I Hcl. pose proof I as [Hp Hnp Hw Hph Hc Ha Ho Hg].
  assert (forall st, sup_at st ws s -> st = Ret tt /\ lives ws = 0%nat) as Hsup.
  { intros st [[_ H] | [(_ & H & _) | (-> & _ & H)]]; [| | done];
      destruct (open_not_closed s H Hcl). }
  assert (forall st, st = Ret tt -> lives ws = 0%nat ->
            m = collector \/ (exists v, m = printing v) \/ m = Ret tt ->
            sp = [st] -> sent (pending (pool s)) = []) as Hpend.
  { intros st -> Hl Hm ->. rewrite Hp, pending_cons, pending_app.
    rewrite (pending_done c bodies Hcap ws Hw Hl).
    destruct Hm as [-> | [[v ->] | ->]]; done. }
  destruct Hph as [-> -> -> H1 H2 | -> H1 -> H2 H3 | b Hb -> -> H2 H3
          | st Hr H1 -> H2 H3 | st -> H1 -> H2 H3 H4 H5].
  - unfold chan_closed in Hcl. by rewrite H1 in Hcl.
  - destruct (open_not_closed s H2 Hcl).
  - destruct (open_not_closed s H2 Hcl).
  - destruct (Hsup st H2) as [-> Hl]. split; [lia |].
    eapply Hpend; eauto. destruct Hr as [-> | [v ->]]; eauto.
  - destruct (Hsup st H2) as [-> Hl]. split; [lia |].
    eapply Hpend; eauto.
Qed.

(** The values sent and the values still to be sent are the values of
    the script. *)
Lemma inv_sent_perm m ws sp s :
  inv c bodies L0 m ws sp s ->
  (sent (log s) ++ sent (pending (pool s)))%list
  ≡ₚ (sent L0 ++ sent (script (dispatch c bodies)))%list.
Proof.
  intros I. pose proof (i_account _ _ _ _ _ _ _ I) as Ha.
  apply (omap_Permutation (fun a => match a with Send v => Some v | _ => None end))
    in Ha.
  fold (sent (account (log s) (pending (pool s)) (buffer s))) in Ha.
  fold (sent (account L0 (script (dispatch c bodies)) [])) in Ha.
  by rewrite !sent_account in Ha.
Qed.

(** Every value sent is on the console, in the buffer, or in the hand
    of the collector. *)
Lemma inv_conservation m ws sp s :
  Forall worker_body bodies ->
  inv c bodies L0 m ws sp s ->
  exists hand : nat,
    (hand <= 1)%nat /\
    length (sent (log s))
    = (length (finished_lines (log s)) + length (buffer s) + hand)%nat.
Proof.
  intros Hb I. pose proof (i_order _ _ _ _ _ _ _ I) as Ho.
  apply (f_equal length) in Ho. rewrite !length_app, !length_map in Ho.
  exists (length (finished_lines (script m))). split; [| lia].
  destruct (i_phase _ _ _ _ _ _ _ I)
    as [-> -> -> H1 H2 | -> H1 -> H2 H3 | b Hbb -> -> H2 H3
          | st Hr H1 -> H2 H3 | st -> H1 -> H2 H3 H4 H5].
  - change (script (dispatch c bodies))
      with ([MakeChan c] ++ script (spawn_all bodies collect))%list.
    rewrite finished_lines_app, finished_lines_spawn by done. simpl. lia.
  - rewrite finished_lines_spawn; [simpl; lia |].
    by apply Forall_drop.
  - change (script (Go b ?k)) with (script b ++ script k)%list.
    rewrite finished_lines_app, finished_lines_spawn by (by apply Forall_drop).
    rewrite finished_lines_body; [simpl; lia |].
    eapply Forall_forall in Hb; [exact Hb |]. by eapply list_elem_of_lookup_2.
  - destruct Hr as [-> | [v ->]]; [simpl; lia |].
    change (script (printing v)) with [finished_line v].
    rewrite finished_lines_line. simpl. lia.
  - simpl. lia.
Qed.

(** While a worker has not called [wg.Done()], main has not returned. *)
Lemma live_not_exited m ws sp s :
  inv c bodies L0 m ws sp s -> (1 <= lives ws)%nat -> exited s = false.
Proof.
  intros I Hl. pose proof I as [Hp Hnp Hw Hph Hc Ha Ho Hg].
  unfold exited. rewrite Hp. simpl.
  destruct Hph as [-> -> -> H1 H2 | -> H1 -> H2 H3 | b Hb -> -> H2 H3
          | st Hr H1 -> H2 H3 | st -> H1 -> H2 H3 H4 H5]; try done.
  - destruct (drop (length ws) bodies); done.
  - destruct Hr as [-> | [v ->]]; done.
  - exfalso. destruct H2 as [[_ H] | [(_ & _ & H) | (_ & _ & H)]]; [| lia | lia].
    by destruct (open_not_closed s H H4).
Qed.

(** With room in the buffer for every value of the script, a worker
    that has not returned can take its step: it waits for nobody. *)
Lemma inv_worker_step m ws sp s j a (k : Res a -> M unit) :
  Forall worker_body bodies ->
  c = 0%nat \/ (length (sent (script (dispatch c bodies))) <= c)%nat ->
  sent L0 = [] /\ finished_lines L0 = [] ->
  (length (sent (script (dispatch c bodies))) <= c)%nat ->
  inv c bodies L0 m ws sp s -> ws !! j = Some (Do a k) ->
  exists s', step (S j) s = Some s' /\ panicked s' = false.
Proof.
  intros Hbodies Hcap HL0 Hroom I Hj.
  pose proof I as [Hp Hnp Hw Hph Hc Ha Ho Hg].
  assert (pool s !! S j = Some (Do a k)) as Hlook.
  { rewrite Hp. simpl. rewrite lookup_app_l; [done |]. by eapply lookup_lt_Some. }
  assert (1 <= lives ws)%nat as Hl1.
  { change 1%nat with (live (Do a k)). apply sum_list_with_in.
    by eapply list_elem_of_lookup_2. }
  pose proof (live_not_exited _ _ _ _ I Hl1) as He.
  destruct (phase_live c bodies Hcap _ _ _ _ Hph Hl1) as [_ Hwg].
  assert (worker (Do a k)) as Hwk.
  { eapply Forall_forall in Hw; [exact Hw |]. by eapply list_elem_of_lookup_2. }
  destruct (worker_cases _ Hwk) as [[H _] | (a' & k' & Heq & _ & _ & Hcase)];
    [done |].
  assert (a' = a) as -> by (by injection Heq).
  destruct Hcase as [[Hd _] | [Hio _]].
  - destruct a; try done. eexists. split.
    + apply fire_step; [done | done |]. unfold fire. rewrite Hlook. simpl.
      destruct (Z.ltb_spec (wg s - 1) 0); [lia | reflexivity].
    + done.
  - destruct (sent_io_cases a Hio) as [Hns | [v ->]].
    + eexists. split.
      * apply fire_step; [done | done |]. unfold fire. rewrite Hlook.
        rewrite (exec_io a s Hio Hns). reflexivity.
      * done.
    + destruct (inv_send_step c bodies L0 Hcap HL0 _ _ _ _ _ _ _ I Hroom Hlook)
        as (s' & H1 & H2 & _).
      eauto.
Qed.

Lemma synchronization_app (l1 l2 : list Act) :
  synchronization (l1 ++ l2)
  = (synchronization l1 ++ synchronization l2)%list.
Proof. apply List.filter_app. Qed.

Lemma synchronization_io (l : list Act) :
  forallb io_send l = true -> synchronization l = [].
Proof.
  induction l as [| a l IH]; [done |]. simpl. intros H.
  apply andb_true_iff in H as [Ha Hl]. specialize (IH Hl).
  unfold synchronization in *. by destruct a.
Qed.

Lemma synchronization_lines (l : list string) :
  synchronization (map finished_line l) = [].
Proof. induction l as [| v l IH]; [done | exact IH]. Qed.

(** A worker synchronizes once: by its [wg.Done()]. *)
Lemma synchronization_body (b : M unit) :
  worker_body b -> synchronization (script b) = [WgDone].
Proof.
  intros [_ H]. apply ends_done_last in H as (l0 & -> & H0).
  by rewrite synchronization_app, synchronization_io.
Qed.

Lemma synchronization_spawn (bs : list (M unit)) :
  Forall worker_body bs ->
  synchronization (script (spawn_all bs collect))
  ≡ₚ (replicate (length bs) (WgAdd 1) ++ replicate (length bs) WgDone
      ++ [WgWait; Close])%list.
Proof.
  induction 1 as [| b bs Hb _ IH]; [done |]. simpl.
  change (WgAdd 1 :: ?l) with ([WgAdd 1] ++ l)%list.
  rewrite !synchronization_app, synchronization_body by done.
  rewrite IH. simpl. constructor. apply Permutation_middle.
Qed.

(** What a complete run has executed of the synchronization: the
    [make], an [Add] and a [Done] for every worker, the [Wait] and the
    [close]. *)
Lemma inv_exit_synchronization m ws sp s :
  Forall worker_body bodies ->
  c = 0%nat \/ (length (sent (script (dispatch c bodies))) <= c)%nat ->
  synchronization L0 = [] ->
  inv c bodies L0 m ws sp s -> exited s = true ->
  synchronization (log s)
  ≡ₚ MakeChan c ::
     (replicate (length bodies) (WgAdd 1) ++ replicate (length bodies) WgDone
      ++ [WgWait; Close])%list.
Proof.
  intros Hbodies Hcap HL0 I He.
  destruct (inv_exit c bodies L0 Hcap _ _ _ _ I He) as (H & _).
  apply (filter_perm is_sync) in H.
  fold (synchronization (log s)) in H. rewrite H.
  fold (synchronization (account L0 (script (dispatch c bodies)) [])).
  unfold account.
  rewrite !synchronization_app, HL0, synchronization_lines, app_nil_r.
  change (script (dispatch c bodies))
    with ([MakeChan c] ++ script (spawn_all bodies collect))%list.
  rewrite synchronization_app. simpl. constructor.
  by apply synchronization_spawn.
Qed.

End Synchronization.

(** ** The invariant, for the two strategies *)

Section Reachable.

Context {E : Env}.

Variables (src dst filter : string).

Lemma completes_always init (P Q : State -> Prop) :
  completes init P -> always init Q ->
  completes init (fun s => P s /\ Q s /\ exited s = true).
Proof.
  intros (Hb & Hpr & Hpost) Hq. split; [done |]. split; [done |].
  intros sched s H He. destruct (Hpost _ _ H He) as [H1 H2].
  split; [done |]. split; [done |]. split; [| done]. eapply Hq; eauto.
Qed.

Lemma waitgroup_inv :
  always (start (processImagesWithWaitGroup src dst filter))
    (Inv 0 [applyFilters src dst filter] []).
Proof.
  apply (dispatch_always 0 [applyFilters src dst filter] []).
  - apply waitgroup_bodies.
  - by left.
  - done.
  - apply waitgroup_start.
Qed.

(** Strategy B: before the listing, or in the skeleton. *)
Lemma channel_inv fl :
  ioutil_ReadDir src = inl fl ->
  always (start (processImagesWithChannel src dst filter)) (fun s =>
    s = start (processImagesWithChannel src dst filter) \/
    Inv (length fl) (channel_workers src dst filter fl) [ReadDir src] s).
Proof.
  intros Hrd.
  destruct (channel_after_read src dst filter)
    as (s1 & He & Hs & Hdet & Hlog & Hch & Hwg & Hpan & Hpool).
  rewrite Hrd in Hpool.
  eapply always_step; [by left | exact Hdet |].
  eapply always_impl.
  - eapply (dispatch_always (length fl)
              (channel_workers src dst filter fl) [ReadDir src]).
    + apply channel_workers_body.
    + right. apply channel_cap.
    + done.
    + done.
  - intros s I. by right.
Qed.

(** Strategy B, when the listing fails: the three states of the run. *)
Lemma channel_failed err :
  ioutil_ReadDir src = inr err ->
  always (start (processImagesWithChannel src dst filter)) (fun s =>
    s = start (processImagesWithChannel src dst filter) \/
    s = mkState [act (Printf (read_error err))] None 0 [ReadDir src] false \/
    s = mkState [Ret tt] None 0 [ReadDir src; Printf (read_error err)] false).
Proof.
  intros Hrd.
  destruct (channel_after_read src dst filter)
    as (s1 & He & Hs & Hdet & Hlog & Hch & Hwg & Hpan & Hpool).
  rewrite Hrd in Hpool.
  eapply always_step; [by left | exact Hdet |].
  destruct s1 as [p1 c1 w1 l1 b1]. simpl in *. subst.
  eapply print_always; [reflexivity | reflexivity | |].
  - right. by left.
  - right. by right.
Qed.

Lemma waitgroup_any (P : State -> Prop) :
  (forall m ws sp s, inv 0 [applyFilters src dst filter] [] m ws sp s -> P s) ->
  always (start (processImagesWithWaitGroup src dst filter)) P.
Proof.
  intros H. eapply always_impl; [apply waitgroup_inv |].
  intros s (m & ws & sp & I). eauto.
Qed.

Lemma waitgroup_exit (P : State -> Prop) :
  (forall m ws sp s, inv 0 [applyFilters src dst filter] [] m ws sp s ->
     exited s = true -> P s) ->
  completes (start (processImagesWithWaitGroup src dst filter)) P.
Proof.
  intros H.
  eapply completes_impl;
    [exact (completes_always _ _ _ (waitgroup_completes src dst filter) waitgroup_inv) |].
  intros s (_ & (m & ws & sp & I) & He). eauto.
Qed.

Lemma channel_any (P : State -> Prop) :
  P (start (processImagesWithChannel src dst filter)) ->
  (forall fl m ws sp s, ioutil_ReadDir src = inl fl ->
     inv (length fl) (channel_workers src dst filter fl) [ReadDir src] m ws sp s ->
     P s) ->
  (forall err, ioutil_ReadDir src = inr err ->
     P (mkState [act (Printf (read_error err))] None 0 [ReadDir src] false) /\
     P (mkState [Ret tt] None 0 [ReadDir src; Printf (read_error err)] false)) ->
  always (start (processImagesWithChannel src dst filter)) P.
Proof.
  intros H0 H1 H2. destruct (ioutil_ReadDir src) as [fl | err] eqn:Hrd.
  - eapply always_impl; [exact (channel_inv fl Hrd) |].
    intros s [-> | (m & ws & sp & I)]; eauto.
  - eapply always_impl; [exact (channel_failed err Hrd) |].
    destruct (H2 err eq_refl) as [H3 H4].
    intros s [-> | [-> | ->]]; done.
Qed.

Lemma channel_exit (P : State -> Prop) :
  (forall fl m ws sp s, ioutil_ReadDir src = inl fl ->
     inv (length fl) (channel_workers src dst filter fl) [ReadDir src] m ws sp s ->
     exited s = true -> P s) ->
  (forall err, ioutil_ReadDir src = inr err ->
     P (mkState [Ret tt] None 0 [ReadDir src; Printf (read_error err)] false)) ->
  completes (start (processImagesWithChannel src dst filter)) P.
Proof.
  intros H1 H2. destruct (ioutil_ReadDir src) as [fl | err] eqn:Hrd.
  - eapply completes_impl;
      [exact (completes_always _ _ _ (channel_completes src dst filter)
                (channel_inv fl Hrd)) |].
    intros s (_ & [-> | (m & ws & sp & I)] & He); [done | eauto].
  - eapply completes_impl;
      [exact (completes_always _ _ _ (channel_completes src dst filter)
                (channel_failed err Hrd)) |].
    intros s (_ & [-> | [-> | ->]] & He); [done | done | eauto].
Qed.

(** The capacity of the channel suits the skeleton. *)
Lemma waitgroup_fits :
  0%nat = 0%nat \/
  (length (sent (script (dispatch 0 [applyFilters src dst filter]))) <= 0)%nat.
Proof. by left. Qed.

Lemma channel_fits fl :
  length fl = 0%nat \/
  (length (sent (script (dispatch (length fl) (channel_workers src dst filter fl))))
   <= length fl)%nat.
Proof. right. apply channel_cap. Qed.

Lemma channel_batch fl :
  ioutil_ReadDir src = inl fl ->
  sent (script (dispatch (length fl) (channel_workers src dst filter fl)))
  = batch_names src.
Proof. intros H. rewrite channel_sent. unfold batch_names. by rewrite H. Qed.

(** When main has returned, every goroutine has. *)
Lemma strategies_return :
  completes (start (processImagesWithWaitGroup src dst filter)) all_returned /\
  completes (start (processImagesWithChannel src dst filter)) all_returned.
Proof.
  assert (forall (n : nat) (s : State),
            pool s = replicate n (Ret tt) -> all_returned s) as Hrep.
  { intros n s H. unfold all_returned. rewrite H. apply Forall_forall.
    intros g Hg. by apply elem_of_replicate in Hg as [-> _]. }
  split.
  - apply waitgroup_exit. intros m ws sp s I He.
    destruct (inv_exit _ _ _ waitgroup_fits _ _ _ _ I He)
      as (_ & _ & _ & _ & _ & _ & H & _).
    by eapply Hrep.
  - apply channel_exit.
    + intros fl m ws sp s Hrd I He.
      destruct (inv_exit _ _ _ (channel_fits fl) _ _ _ _ I He)
        as (_ & _ & _ & _ & _ & _ & H & _).
      by eapply Hrep.
    + intros err Hrd. by apply (Hrep 1%nat).
Qed.

Lemma strategies_never_panic :
  always (start (processImagesWithWaitGroup src dst filter)) (fun s =>
    panicked s = false) /\
  always (start (processImagesWithChannel src dst filter)) (fun s =>
    panicked s = false).
Proof.
  split.
  - apply waitgroup_any. intros m ws sp s I. by destruct I.
  - apply channel_any; [done | |].
    + intros fl m ws sp s Hrd I. by destruct I.
    + intros err Hrd. done.
Qed.

End Reachable.

(** ** Synchronization of the goroutines *)

(** X1.  When main returns, every goroutine has returned: the workers, and
    the supervisor after closing the channel; the counter of the wait
    group is zero and no value is left in the channel.  So the end of the
    program cuts no work short. *)
Theorem no_goroutine_outlives_main (E : Env) (src dst filter : string) :
  let quiet := fun s : State =>
    all_returned s /\ wg s = 0 /\ buffer s = [] in
  completes (start (processImagesWithWaitGroup src dst filter)) quiet /\
  completes (start (processImagesWithChannel src dst filter)) quiet.
Proof.
  intros quiet.
  assert (forall (n : nat) (s : State),
            pool s = replicate n (Ret tt) -> all_returned s) as Hrep.
  { intros n s H. unfold all_returned. rewrite H. apply Forall_forall.
    intros g Hg. by apply elem_of_replicate in Hg as [-> _]. }
  split.
  - apply waitgroup_exit. intros m ws sp s I He.
    destruct (inv_exit _ _ _ (waitgroup_fits src dst filter) _ _ _ _ I He)
      as (_ & _ & _ & H4 & H5 & _ & H7 & _).
    split; [by eapply Hrep | done].
  - apply channel_exit.
    + intros fl m ws sp s Hrd I He.
      destruct (inv_exit _ _ _ (channel_fits src dst filter fl) _ _ _ _ I He)
        as (_ & _ & _ & H4 & H5 & _ & H7 & _).
      split; [by eapply Hrep | done].
    + intros err Hrd. split; [by apply (Hrep 1%nat) | done].
Qed.

(** X2.  At any time of any run of either strategy: if the channel is
    closed, then the counter of the wait group is zero and every
    completion event of the batch has been sent.  The supervisor never
    closes the channel ahead of a worker. *)
Theorem channel_closed_after_last_send (E : Env) (src dst filter : string) :
  let all_sent := fun s : State =>
    chan_closed s = true ->
    wg s = 0 /\ sent (log s) ≡ₚ batch_names src in
  always (start (processImagesWithWaitGroup src dst filter)) all_sent /\
  always (start (processImagesWithChannel src dst filter)) all_sent.
Proof.
  split.
  - apply waitgroup_any. intros m ws sp s I Hcl.
    destruct (inv_closed _ _ _ _ _ _ _ (waitgroup_fits src dst filter) I Hcl)
      as [H1 H2].
    split; [done |]. pose proof (inv_sent_perm _ _ _ _ _ _ _ I) as H.
    rewrite H2, app_nil_r, waitgroup_sent in H. exact H.
  - apply channel_any.
    + done.
    + intros fl m ws sp s Hrd I Hcl.
      destruct (inv_closed _ _ _ _ _ _ _ (channel_fits src dst filter fl) I Hcl)
        as [H1 H2].
      split; [done |]. pose proof (inv_sent_perm _ _ _ _ _ _ _ I) as H.
      rewrite H2, app_nil_r, (channel_batch src dst filter fl Hrd) in H. exact H.
    + intros err Hrd. done.
Qed.

(** X3.  Under both strategies the collector prints in the order of the
    sends: at any time the "Finished processing" lines on the console are
    the lines of the first values sent, in the order they were sent, and
    when main has returned there is a line for every value sent. *)
Theorem lines_follow_events (E : Env) (src dst filter : string) :
  let in_order := fun s : State =>
    finished_lines (log s) `prefix_of` map finished (sent (log s)) in
  let all_printed := fun s : State =>
    finished_lines (log s) = map finished (sent (log s)) in
  always (start (processImagesWithWaitGroup src dst filter)) in_order /\
  always (start (processImagesWithChannel src dst filter)) in_order /\
  completes (start (processImagesWithWaitGroup src dst filter)) all_printed /\
  completes (start (processImagesWithChannel src dst filter)) all_printed.
Proof.
  split; [| split; [| split]].
  - apply waitgroup_any. intros m ws sp s I. eapply inv_lines_prefix; exact I.
  - apply channel_any.
    + by exists [].
    + intros fl m ws sp s Hrd I. eapply inv_lines_prefix; exact I.
    + intros err Hrd. split; by exists [].
  - apply waitgroup_exit. intros m ws sp s I He.
    by destruct (inv_exit _ _ _ (waitgroup_fits src dst filter) _ _ _ _ I He)
      as (_ & H & _).
  - apply channel_exit.
    + intros fl m ws sp s Hrd I He.
      by destruct (inv_exit _ _ _ (channel_fits src dst filter fl) _ _ _ _ I He)
        as (_ & H & _).
    + intros err Hrd. done.
Qed.

(** X4.  The counter of the wait group is never negative and never more
    than the number of workers: one under Strategy A, the number of
    entries of the listing under Strategy B. *)
Theorem wait_group_counter_bounds (E : Env) (src dst filter : string) :
  always (start (processImagesWithWaitGroup src dst filter)) (fun s =>
    0 <= wg s <= 1) /\
  always (start (processImagesWithChannel src dst filter)) (fun s =>
    0 <= wg s <= match ioutil_ReadDir src with
                 | inl fileList => Z.of_nat (length fileList)
                 | inr _ => 0
                 end).
Proof.
  split.
  - apply waitgroup_any. intros m ws sp s I.
    exact (inv_wg_bounds _ _ _ _ _ _ _ I).
  - apply channel_any.
    + simpl. destruct (ioutil_ReadDir src); lia.
    + intros fl m ws sp s Hrd I. rewrite Hrd.
      pose proof (inv_wg_bounds _ _ _ _ _ _ _ I) as H.
      by rewrite channel_workers_length in H.
    + intros err Hrd. rewrite Hrd. simpl. lia.
Qed.

(** X5.  No completion event is lost or printed twice.  At any time of
    any run, the values sent are the lines printed, the values in the
    buffer, and at most one value the collector has received and not yet
    printed.  Under Strategy A the buffer is always empty, so that the
    worker is never more than one event ahead of the console; under
    Strategy B the buffer never holds more than the capacity. *)
Theorem events_are_conserved (E : Env) (src dst filter : string) :
  always (start (processImagesWithWaitGroup src dst filter)) (fun s =>
    buffer s = [] /\
    (length (finished_lines (log s)) <= length (sent (log s))
     <= length (finished_lines (log s)) + 1)%nat) /\
  always (start (processImagesWithChannel src dst filter)) (fun s =>
    (length (finished_lines (log s)) + length (buffer s)
     <= length (sent (log s))
     <= length (finished_lines (log s)) + length (buffer s) + 1)%nat /\
    forall ch, chan s = Some ch -> (length (buf ch) <= cap ch)%nat).
Proof.
  split.
  - apply waitgroup_any. intros m ws sp s I.
    destruct (inv_conservation _ _ _ _ _ _ _ (waitgroup_bodies src dst filter) I)
      as (hand & Hh & Hc).
    assert (buffer s = []) as Hb.
    { pose proof (i_cap _ _ _ _ _ _ _ I) as H. unfold cap_ok in H.
      unfold buffer. destruct (chan s) as [ch |]; [| done].
      destruct H as (_ & H & _). destruct (buf ch); [done | simpl in H; lia]. }
    rewrite Hb in Hc. simpl in Hc. split; [done | lia].
  - apply channel_any.
    + split; [simpl; lia | done].
    + intros fl m ws sp s Hrd I.
      destruct (inv_conservation _ _ _ _ _ _ _
                  (channel_workers_body src dst filter fl) I)
        as (hand & Hh & Hc).
      split; [lia |]. intros ch Hch.
      pose proof (i_cap _ _ _ _ _ _ _ I) as H. unfold cap_ok in H.
      rewrite Hch in H. destruct H as (H1 & H2 & _). lia.
    + intros err Hrd. split; (split; [simpl; lia | done]).
Qed.

(** X6.  Under Strategy B, at any time, the completion events sent so far
    are events of distinct work items: as a multiset they are included
    in the names of the non-directory entries of the listing.  No worker
    sends twice, and no event is sent for a directory. *)
Theorem events_are_distinct_items (E : Env) (src dst filter : string) :
  always (start (processImagesWithChannel src dst filter)) (fun s =>
    sent (log s) ⊆+ batch_names src).
Proof.
  apply channel_any.
  - apply submseteq_nil_l.
  - intros fl m ws sp s Hrd I.
    pose proof (inv_sent_perm _ _ _ _ _ _ _ I) as H.
    rewrite (channel_batch src dst filter fl Hrd) in H. simpl in H.
    rewrite <- H. by apply submseteq_inserts_r.
  - intros err Hrd. split; apply submseteq_nil_l.
Qed.

(** X7.  Every [wg.Add(1)] is matched by one [wg.Done()], and the channel
    is made once and closed once.  In a complete run the operations on
    the wait group and on the channel are, up to their order: under
    Strategy A the [make], one [Add], one [Done], one [Wait] and one
    [close]; under Strategy B, when the source directory lists
    [fileList], the [make] with the capacity [length fileList], an [Add]
    and a [Done] for every entry, one [Wait] and one [close]; and none
    when the directory cannot be listed. *)
Theorem synchronization_is_balanced (E : Env) (src dst filter : string) :
  completes (start (processImagesWithWaitGroup src dst filter)) (fun s =>
    synchronization (log s)
    ≡ₚ [MakeChan 0; WgAdd 1; WgDone; WgWait; Close]) /\
  completes (start (processImagesWithChannel src dst filter)) (fun s =>
    synchronization (log s)
    ≡ₚ match ioutil_ReadDir src with
       | inl fileList =>
           MakeChan (length fileList) ::
           (replicate (length fileList) (WgAdd 1)
            ++ replicate (length fileList) WgDone ++ [WgWait; Close])%list
       | inr _ => []
       end).
Proof.
  split.
  - apply waitgroup_exit. intros m ws sp s I He.
    exact (inv_exit_synchronization 0 [applyFilters src dst filter] [] _ _ _ _
             (waitgroup_bodies src dst filter) (waitgroup_fits src dst filter)
             eq_refl I He).
  - apply channel_exit.
    + intros fl m ws sp s Hrd I He. rewrite Hrd.
      pose proof (inv_exit_synchronization (length fl)
                    (channel_workers src dst filter fl) [ReadDir src] _ _ _ _
                    (channel_workers_body src dst filter fl)
                    (channel_fits src dst filter fl) eq_refl I He) as H.
      by rewrite channel_workers_length in H.
    + intros err Hrd. by rewrite Hrd.
Qed.

(** X8.  Under Strategy B a worker waits for nobody.  When the source
    directory lists [fileList], at any time of any run, every worker
    that has not returned can take its next step, whatever main, the
    supervisor and the other workers are at; and the step does not
    panic. *)
Theorem channel_workers_never_wait (E : Env) (src dst filter : string)
    (fileList : list FileInfo) :
  ioutil_ReadDir src = inl fileList ->
  always (start (processImagesWithChannel src dst filter)) (fun s =>
    forall i a (k : Res a -> M unit),
      (1 <= i <= length fileList)%nat ->
      pool s !! i = Some (Do a k) ->
      exists s', step i s = Some s' /\ panicked s' = false).
Proof.
  intros Hrd. apply channel_any.
  - intros [| i] a k Hi H; [lia | done].
  - intros fl m ws sp s Hrd' I i a k Hi H.
    assert (fl = fileList) as -> by congruence.
    pose proof I as [Hp Hnp Hw Hph Hc Ha Ho Hg].
    rewrite Hp in H.
    apply lookup_pool in H as [[-> _] | [(j & -> & Hj) | (j & -> & Hj)]].
    + lia.
    + eapply (inv_worker_step (length fileList)
                (channel_workers src dst filter fileList) [ReadDir src]);
        [apply channel_workers_body | apply channel_fits | done
        | apply channel_cap | exact I | exact Hj].
    + exfalso.
      destruct Hph as [-> -> -> H1 H2 | -> H1 -> H2 H3 | b Hb -> -> H2 H3
          | st Hr H1 -> H2 H3 | st -> H1 -> H2 H3 H4 H5]; try done;
        rewrite channel_workers_length in H1; lia.
  - intros err Hrd'. congruence.
Qed.

Lemma channel_workers_never_wait_witness :
  @ioutil_ReadDir demo "photos"
  = inl [mkFileInfo "a.png" false; mkFileInfo "sub" true; mkFileInfo "b.txt" false] /\
  always (E := demo) (start (processImagesWithChannel "photos" "out" "blur"))
    (fun s =>
       forall i a (k : Res a -> M unit),
         (1 <= i <= 3)%nat -> pool s !! i = Some (Do a k) ->
         exists s', step i s = Some s' /\ panicked s' = false).
Proof.
  split; [reflexivity |].
  exact (channel_workers_never_wait demo "photos" "out" "blur" _ eq_refl).
Defined.

(** ** What a run has executed *)

Section Contents.

Context {E : Env}.

Variables (src dst : string).

Lemma omap_sub {X : Type} (g : Act -> option X) (l1 l2 : list Act) :
  l1 ⊆+ l2 -> omap g l1 ⊆+ omap g l2.
Proof.
  intros H. apply submseteq_Permutation in H as [k H].
  apply (omap_Permutation g) in H. rewrite H, omap_app.
  by apply submseteq_inserts_r.
Qed.

Lemma concat_option_list {X Y : Type} (h : X -> option Y) (l : list X) :
  concat (map (fun x => option_list (h x)) l) = omap h l.
Proof.
  induction l as [| x l IH]; [done |]. simpl. rewrite IH.
  by destruct (h x).
Qed.

Lemma omap_entries {X : Type} (g : Act -> option X) filter fl :
  omap g (entries src dst filter fl)
  = concat (map (fun f => omap g (script (processItem src dst filter f)))
              (eligible fl)).
Proof.
  unfold entries, eligible. induction fl as [| f fl IH]; [done |]. simpl.
  rewrite omap_app, IH. unfold entry_script. by destruct (IsDir f).
Qed.

Lemma omap_finished_lines {X : Type} (g : Act -> option X) (l : list string) :
  (forall t, g (Printf t) = None) -> omap g (map finished_line l) = [].
Proof.
  intros H. induction l as [| v l IH]; [done |]. simpl.
  unfold finished_line at 1. by rewrite H.
Qed.

(** What a complete run shows, entry by entry. *)
Lemma omap_expected {X : Type} (g : Act -> option X) filter fl :
  ioutil_ReadDir src = inl fl ->
  omap g (expected src dst filter)
  = (option_list (g (ReadDir src))
     ++ concat (map (fun f => omap g (script (processItem src dst filter f)))
                  (eligible fl))
     ++ omap g (map finished_line (eligible_names fl)))%list.
Proof.
  intros Hrd. unfold expected. rewrite Hrd.
  change (ReadDir src :: ?l) with ([ReadDir src] ++ l)%list.
  by rewrite !omap_app, omap_entries.
Qed.

Lemma omap_expected_failed {X : Type} (g : Act -> option X) filter err :
  ioutil_ReadDir src = inr err ->
  omap g (expected src dst filter)
  = omap g [ReadDir src; Printf (read_error err)].
Proof. intros Hrd. unfold expected. by rewrite Hrd. Qed.

Lemma log_sub c bodies L0 m ws sp s :
  inv c bodies L0 m ws sp s ->
  log s ⊆+ account L0 (script (dispatch c bodies)) [].
Proof.
  intros I. rewrite <- (i_account _ _ _ _ _ _ _ I). unfold account.
  by apply submseteq_inserts_r.
Qed.

(** At any time, what a run of either strategy has executed, apart
    from the synchronization, is a part of what a complete run shows. *)
Lemma shown_always filter :
  always (start (processImagesWithWaitGroup src dst filter)) (fun s =>
    visible (log s) ⊆+ expected src dst filter) /\
  always (start (processImagesWithChannel src dst filter)) (fun s =>
    visible (log s) ⊆+ expected src dst filter).
Proof.
  split.
  - apply waitgroup_any. intros m ws sp s I.
    rewrite <- waitgroup_expected. apply omap_sub. by eapply log_sub.
  - apply channel_any.
    + apply submseteq_nil_l.
    + intros fl m ws sp s Hrd I.
      rewrite <- (channel_expected src dst filter fl Hrd).
      apply omap_sub. by eapply log_sub.
    + intros err Hrd. unfold expected. rewrite Hrd. simpl. split.
      * by apply submseteq_skip, submseteq_nil_l.
      * done.
Qed.

Lemma shown_completes filter :
  completes (start (processImagesWithWaitGroup src dst filter)) (fun s =>
    visible (log s) ≡ₚ expected src dst filter) /\
  completes (start (processImagesWithChannel src dst filter)) (fun s =>
    visible (log s) ≡ₚ expected src dst filter).
Proof.
  split.
  - eapply completes_impl; [apply waitgroup_completes |]. by intros s [H _].
  - eapply completes_impl; [apply channel_completes |]. by intros s [H _].
Qed.

(** A view of the log that does not look at the synchronization. *)
Lemma view_always {X : Type} (g : Act -> option X) filter :
  (forall a, is_sync a = true -> g a = None) ->
  always (start (processImagesWithWaitGroup src dst filter)) (fun s =>
    omap g (log s) ⊆+ omap g (expected src dst filter)) /\
  always (start (processImagesWithChannel src dst filter)) (fun s =>
    omap g (log s) ⊆+ omap g (expected src dst filter)).
Proof.
  intros Hg. destruct (shown_always filter) as [HA HB].
  split; (eapply always_impl; [eassumption |]); intros s H; simpl in H;
    rewrite <- (omap_visible g (log s) Hg); by apply omap_sub.
Qed.

Lemma view_completes {X : Type} (g : Act -> option X) filter :
  (forall a, is_sync a = true -> g a = None) ->
  completes (start (processImagesWithWaitGroup src dst filter)) (fun s =>
    omap g (log s) ≡ₚ omap g (expected src dst filter)) /\
  completes (start (processImagesWithChannel src dst filter)) (fun s =>
    omap g (log s) ≡ₚ omap g (expected src dst filter)).
Proof.
  intros Hg. destruct (shown_completes filter) as [HA HB].
  split; (eapply completes_impl; [eassumption |]); intros s H; simpl in H;
    rewrite <- (omap_visible g (log s) Hg); by apply omap_Permutation.
Qed.

(** The item processor, filter by filter. *)

Lemma grayscale_item_saves f :
  saves (script (processItem src dst "grayscale" f))
  = option_list
      match imaging_Open (filepath_Join src (Name f)) with
      | inl img => Some (Save (imaging_Grayscale img) (filepath_Join dst (Name f)))
      | inr _ => None
      end.
Proof.
  unfold processItem, applyGrayscaleFilter. simpl.
  destruct (imaging_Open _) as [img | e]; simpl; [| done].
  by destruct (imaging_Save _ _).
Qed.

Lemma blur_item_saves f :
  saves (script (processItem src dst "blur" f))
  = option_list
      match imaging_Open (filepath_Join src (Name f)) with
      | inl img => Some (Save (imaging_Blur img 5%float) (filepath_Join dst (Name f)))
      | inr _ => None
      end.
Proof.
  unfold processItem, applyBlurFilter. simpl.
  destruct (imaging_Open _) as [img | e]; simpl; [| done].
  by destruct (imaging_Save _ _).
Qed.

Lemma item_opened filter f :
  filter = "grayscale" \/ filter = "blur" ->
  opened (script (processItem src dst filter f)) = [filepath_Join src (Name f)].
Proof.
  unfold processItem, applyGrayscaleFilter, applyBlurFilter.
  intros [-> | ->]; simpl;
    (destruct (imaging_Open _) as [img | e]; simpl; [| done]);
    by destruct (imaging_Save _ _).
Qed.

Lemma item_opened_sub filter f :
  opened (script (processItem src dst filter f)) ⊆+ [filepath_Join src (Name f)].
Proof.
  unfold processItem, applyGrayscaleFilter, applyBlurFilter.
  destruct (String.eqb filter "grayscale");
    [| destruct (String.eqb filter "blur")]; simpl;
    try (destruct (imaging_Open _) as [img | e]; simpl);
    try (destruct (imaging_Save _ _); simpl);
    first [done | apply submseteq_nil_l].
Qed.

Lemma item_listed filter f :
  listed (script (processItem src dst filter f)) = [].
Proof.
  unfold processItem, applyGrayscaleFilter, applyBlurFilter.
  destruct (String.eqb filter "grayscale");
    [| destruct (String.eqb filter "blur")]; simpl;
    try (destruct (imaging_Open _) as [img | e]; simpl);
    try (destruct (imaging_Save _ _); simpl); done.
Qed.

Lemma apply_grayscale_result p q :
  result (applyGrayscaleFilter p q)
  = match imaging_Open p with
    | inl img => imaging_Save (imaging_Grayscale img) q
    | inr e => Some e
    end.
Proof.
  unfold applyGrayscaleFilter. simpl.
  destruct (imaging_Open p) as [img | e]; simpl; [| done].
  by destruct (imaging_Save _ _).
Qed.

Lemma apply_blur_result p q :
  result (applyBlurFilter p q)
  = match imaging_Open p with
    | inl img => imaging_Save (imaging_Blur img 5%float) q
    | inr e => Some e
    end.
Proof.
  unfold applyBlurFilter. simpl.
  destruct (imaging_Open p) as [img | e]; simpl; [| done].
  by destruct (imaging_Save _ _).
Qed.

Lemma grayscale_item_console f :
  console (script (processItem src dst "grayscale" f))
  = option_list
      (option_map (grayscale_error (Name f))
         (result (applyGrayscaleFilter (filepath_Join src (Name f))
                    (filepath_Join dst (Name f))))).
Proof.
  unfold processItem, applyGrayscaleFilter. simpl.
  destruct (imaging_Open _) as [img | e]; simpl; [| done].
  by destruct (imaging_Save _ _).
Qed.

Lemma blur_item_console f :
  console (script (processItem src dst "blur" f))
  = option_list
      (option_map (blur_error (Name f))
         (result (applyBlurFilter (filepath_Join src (Name f))
                    (filepath_Join dst (Name f))))).
Proof.
  unfold processItem, applyBlurFilter. simpl.
  destruct (imaging_Open _) as [img | e]; simpl; [| done].
  by destruct (imaging_Save _ _).
Qed.

Lemma concat_sub {X Y : Type} (F : X -> list Y) (G : X -> Y) (l : list X) :
  (forall x, F x ⊆+ [G x]) -> concat (map F l) ⊆+ map G l.
Proof.
  intros H. induction l as [| x l IH]; [done |]. simpl.
  change (G x :: map G l) with ([G x] ++ map G l)%list.
  by apply submseteq_app.
Qed.

Lemma concat_singletons {X Y : Type} (F : X -> list Y) (G : X -> Y) (l : list X) :
  (forall x, F x = [G x]) -> concat (map F l) = map G l.
Proof.
  intros H. induction l as [| x l IH]; [done |]. simpl. by rewrite H, IH.
Qed.

Lemma concat_nils {X Y : Type} (F : X -> list Y) (l : list X) :
  (forall x, F x = []) -> concat (map F l) = [].
Proof.
  intros H. induction l as [| x l IH]; [done |]. simpl. by rewrite H, IH.
Qed.

End Contents.

(** X9.  With the filter "grayscale", when the source directory lists
    [fileList]: in a complete run of either strategy the calls of
    [imaging.Save] are, up to their order, one for every non-directory
    entry whose file could be opened, saving the grayscale of the image
    opened from the source path at the destination path of the entry;
    an entry that cannot be opened is not saved.  At any time the saves
    made so far are some of these. *)
Theorem grayscale_saves_each_image (E : Env) (src dst : string)
    (fileList : list FileInfo) :
  ioutil_ReadDir src = inl fileList ->
  let images :=
    omap (fun f =>
            match imaging_Open (filepath_Join src (Name f)) with
            | inl img => Some (Save (imaging_Grayscale img)
                                 (filepath_Join dst (Name f)))
            | inr _ => None
            end) (eligible fileList) in
  completes (start (processImagesWithWaitGroup src dst "grayscale")) (fun s =>
    saves (log s) ≡ₚ images) /\
  completes (start (processImagesWithChannel src dst "grayscale")) (fun s =>
    saves (log s) ≡ₚ images) /\
  always (start (processImagesWithWaitGroup src dst "grayscale")) (fun s =>
    saves (log s) ⊆+ images) /\
  always (start (processImagesWithChannel src dst "grayscale")) (fun s =>
    saves (log s) ⊆+ images).
Proof.
  intros Hrd images.
  assert (saves (expected src dst "grayscale") = images) as Hex.
  { unfold saves, images. rewrite (omap_expected src dst _ _ fileList Hrd).
    rewrite omap_finished_lines by done. simpl. rewrite app_nil_r.
    rewrite <- concat_option_list. f_equal. apply map_ext. intros f.
    apply grayscale_item_saves. }
  rewrite <- Hex.
  pose (g := fun a : Act => match a with Save _ _ => Some a | _ => None end).
  assert (forall a, is_sync a = true -> g a = None) as Hg by (by intros []).
  destruct (view_completes src dst g "grayscale" Hg) as [CA CB].
  destruct (view_always src dst g "grayscale" Hg) as [AA AB].
  exact (conj CA (conj CB (conj AA AB))).
Qed.

Lemma grayscale_saves_each_image_witness :
  @ioutil_ReadDir demo "photos"
  = inl [mkFileInfo "a.png" false; mkFileInfo "sub" true; mkFileInfo "b.txt" false] /\
  completes (E := demo) (start (processImagesWithChannel "photos" "out" "grayscale"))
    (fun s => saves (log s) ≡ₚ [Save (E := demo) "gray(pixels)" "out/a.png"]).
Proof.
  split; [reflexivity |].
  exact (proj1 (proj2 (grayscale_saves_each_image demo "photos" "out" _ eq_refl))).
Defined.

(** X10.  With the filter "blur", when the source directory lists
    [fileList]: in a complete run of either strategy the calls of
    [imaging.Save] are, up to their order, one for every non-directory
    entry whose file could be opened, saving the image opened from the
    source path, blurred with the radius 5.0, at the destination path of
    the entry; an entry that cannot be opened is not saved.  At any time
    the saves made so far are some of these. *)
Theorem blur_saves_each_image (E : Env) (src dst : string)
    (fileList : list FileInfo) :
  ioutil_ReadDir src = inl fileList ->
  let images :=
    omap (fun f =>
            match imaging_Open (filepath_Join src (Name f)) with
            | inl img => Some (Save (imaging_Blur img 5%float)
                                 (filepath_Join dst (Name f)))
            | inr _ => None
            end) (eligible fileList) in
  completes (start (processImagesWithWaitGroup src dst "blur")) (fun s =>
    saves (log s) ≡ₚ images) /\
  completes (start (processImagesWithChannel src dst "blur")) (fun s =>
    saves (log s) ≡ₚ images) /\
  always (start (processImagesWithWaitGroup src dst "blur")) (fun s =>
    saves (log s) ⊆+ images) /\
  always (start (processImagesWithChannel src dst "blur")) (fun s =>
    saves (log s) ⊆+ images).
Proof.
  intros Hrd images.
  assert (saves (expected src dst "blur") = images) as Hex.
  { unfold saves, images. rewrite (omap_expected src dst _ _ fileList Hrd).
    rewrite omap_finished_lines by done. simpl. rewrite app_nil_r.
    rewrite <- concat_option_list. f_equal. apply map_ext. intros f.
    apply blur_item_saves. }
  rewrite <- Hex.
  pose (g := fun a : Act => match a with Save _ _ => Some a | _ => None end).
  assert (forall a, is_sync a = true -> g a = None) as Hg by (by intros []).
  destruct (view_completes src dst g "blur" Hg) as [CA CB].
  destruct (view_always src dst g "blur" Hg) as [AA AB].
  exact (conj CA (conj CB (conj AA AB))).
Qed.

Lemma blur_saves_each_image_witness :
  @ioutil_ReadDir demo "photos"
  = inl [mkFileInfo "a.png" false; mkFileInfo "sub" true; mkFileInfo "b.txt" false] /\
  completes (E := demo) (start (processImagesWithWaitGroup "photos" "out" "blur"))
    (fun s => saves (log s) ≡ₚ [Save (E := demo) "blur(pixels)" "out/a.png"]).
Proof.
  split; [reflexivity |].
  exact (proj1 (blur_saves_each_image demo "photos" "out" _ eq_refl)).
Defined.

Lemma listed_expected {E : Env} (src dst filter : string) :
  listed (expected src dst filter) = [src].
Proof.
  destruct (ioutil_ReadDir src) as [fl | err] eqn:Hrd.
  - unfold listed. rewrite (omap_expected src dst _ _ fl Hrd).
    rewrite omap_finished_lines by done. simpl. f_equal.
    rewrite app_nil_r. apply concat_nils. intros f. apply item_listed.
  - unfold listed. by rewrite (omap_expected_failed src dst _ _ err Hrd).
Qed.

(** X11.  The source directory is listed once, and nothing else is ever
    listed: in a complete run of either strategy the calls of
    [ioutil.ReadDir] are exactly one call, on the source path, also when
    it fails; at any time there is no call yet or this one. *)
Theorem source_is_listed_once (E : Env) (src dst filter : string) :
  let once := fun s : State => listed (log s) = [src] in
  let at_most_once := fun s : State =>
    listed (log s) = [] \/ listed (log s) = [src] in
  completes (start (processImagesWithWaitGroup src dst filter)) once /\
  completes (start (processImagesWithChannel src dst filter)) once /\
  always (start (processImagesWithWaitGroup src dst filter)) at_most_once /\
  always (start (processImagesWithChannel src dst filter)) at_most_once.
Proof.
  pose (g := fun a : Act => match a with ReadDir p => Some p | _ => None end).
  assert (forall a, is_sync a = true -> g a = None) as Hg by (by intros []).
  destruct (view_completes src dst g filter Hg) as [CA CB].
  destruct (view_always src dst g filter Hg) as [AA AB].
  change (omap g (expected src dst filter))
    with (listed (expected src dst filter)) in CA, CB, AA, AB.
  change (fun s : State => omap g (log s) ≡ₚ ?l)
    with (fun s : State => listed (log s) ≡ₚ l) in CA, CB.
  change (fun s : State => omap g (log s) ⊆+ ?l)
    with (fun s : State => listed (log s) ⊆+ l) in AA, AB.
  rewrite listed_expected in CA, CB, AA, AB.
  assert (forall l : list string, l ⊆+ [src] -> l = [] \/ l = [src]) as Hsub.
  { intros [| x [| y l]] H; [by left | right | exfalso].
    - by apply singleton_submseteq in H as ->.
    - apply submseteq_length in H. simpl in H. lia. }
  split; [| split; [| split]].
  - eapply completes_impl; [exact CA |]. intros s H.
    by apply Permutation_singleton_r.
  - eapply completes_impl; [exact CB |]. intros s H.
    by apply Permutation_singleton_r.
  - eapply always_impl; [exact AA |]. intros s H. by apply Hsub.
  - eapply always_impl; [exact AB |]. intros s H. by apply Hsub.
Qed.

(** X12.  When the source directory lists [fileList]: at any time of any
    run of either strategy the files opened are files of the source
    directory, each non-directory entry at most once; and with the
    filter "grayscale" or "blur" a complete run has opened every
    non-directory entry exactly once, whatever happened to the others: a
    file that fails does not stop the batch. *)
Theorem every_entry_is_opened (E : Env) (src dst filter : string)
    (fileList : list FileInfo) :
  ioutil_ReadDir src = inl fileList ->
  let sources := map (filepath_Join src) (eligible_names fileList) in
  (always (start (processImagesWithWaitGroup src dst filter)) (fun s =>
     opened (log s) ⊆+ sources) /\
   always (start (processImagesWithChannel src dst filter)) (fun s =>
     opened (log s) ⊆+ sources)) /\
  (filter = "grayscale" \/ filter = "blur" ->
   completes (start (processImagesWithWaitGroup src dst filter)) (fun s =>
     opened (log s) ≡ₚ sources) /\
   completes (start (processImagesWithChannel src dst filter)) (fun s =>
     opened (log s) ≡ₚ sources)).
Proof.
  intros Hrd sources.
  pose (g := fun a : Act => match a with Open p => Some p | _ => None end).
  assert (forall a, is_sync a = true -> g a = None) as Hg by (by intros []).
  assert (sources = map (fun f => filepath_Join src (Name f)) (eligible fileList))
    as Hsrc by (unfold sources, eligible_names; by rewrite map_map).
  assert (opened (expected src dst filter)
          = concat (map (fun f => opened (script (processItem src dst filter f)))
                      (eligible fileList)) ) as Hex.
  { unfold opened. rewrite (omap_expected src dst _ _ fileList Hrd).
    rewrite omap_finished_lines by done. simpl. by rewrite app_nil_r. }
  split.
  - destruct (view_always src dst g filter Hg) as [AA AB].
    change (omap g (expected src dst filter))
      with (opened (expected src dst filter)) in AA, AB.
    change (fun s : State => omap g (log s) ⊆+ ?l)
      with (fun s : State => opened (log s) ⊆+ l) in AA, AB.
    rewrite Hex in AA, AB.
    assert (concat (map (fun f => opened (script (processItem src dst filter f)))
                      (eligible fileList)) ⊆+ sources) as Hsub.
    { rewrite Hsrc. apply concat_sub. intros f. apply item_opened_sub. }
    split; (eapply always_impl; [eassumption |]); intros s H; simpl in H;
      by etrans.
  - intros Hf.
    destruct (view_completes src dst g filter Hg) as [CA CB].
    change (omap g (expected src dst filter))
      with (opened (expected src dst filter)) in CA, CB.
    change (fun s : State => omap g (log s) ≡ₚ ?l)
      with (fun s : State => opened (log s) ≡ₚ l) in CA, CB.
    rewrite Hex in CA, CB.
    rewrite (concat_singletons _ (fun f => filepath_Join src (Name f))) in CA, CB
      by (intros f; by apply item_opened).
    rewrite <- Hsrc in CA, CB. done.
Qed.

Lemma every_entry_is_opened_witness :
  @ioutil_ReadDir demo "photos"
  = inl [mkFileInfo "a.png" false; mkFileInfo "sub" true; mkFileInfo "b.txt" false] /\
  ("blur" = "grayscale" \/ "blur" = "blur") /\
  completes (E := demo) (start (processImagesWithChannel "photos" "out" "blur"))
    (fun s => opened (log s) ≡ₚ ["photos/a.png"; "photos/b.txt"]).
Proof.
  split; [reflexivity |]. split; [right; reflexivity |].
  exact (proj2 (proj2 (every_entry_is_opened demo "photos" "out" "blur" _ eq_refl)
                  (or_intror eq_refl))).
Defined.

(** X13.  [applyGrayscaleFilter] and [applyBlurFilter] return the error
    of [imaging.Open], or else the error of [imaging.Save], or else nil.
    When the source directory lists [fileList], the console of a
    complete run of either strategy holds, up to the order, one "Error
    applying ... filter to <name>: <error>" line for every non-directory
    entry whose filter returned an error, one "Finished processing" line
    for every non-directory entry, and nothing else. *)
Theorem failures_are_reported (E : Env) (src dst : string)
    (fileList : list FileInfo) :
  ioutil_ReadDir src = inl fileList ->
  (forall p q,
     result (applyGrayscaleFilter p q)
     = match imaging_Open p with
       | inl img => imaging_Save (imaging_Grayscale img) q
       | inr e => Some e
       end /\
     result (applyBlurFilter p q)
     = match imaging_Open p with
       | inl img => imaging_Save (imaging_Blur img 5%float) q
       | inr e => Some e
       end) /\
  (let lines :=
     (omap (fun f =>
              option_map (grayscale_error (Name f))
                (result (applyGrayscaleFilter (filepath_Join src (Name f))
                           (filepath_Join dst (Name f)))))
        (eligible fileList)
      ++ map finished (eligible_names fileList))%list in
   completes (start (processImagesWithWaitGroup src dst "grayscale")) (fun s =>
     console (log s) ≡ₚ lines) /\
   completes (start (processImagesWithChannel src dst "grayscale")) (fun s =>
     console (log s) ≡ₚ lines)) /\
  (let lines :=
     (omap (fun f =>
              option_map (blur_error (Name f))
                (result (applyBlurFilter (filepath_Join src (Name f))
                           (filepath_Join dst (Name f)))))
        (eligible fileList)
      ++ map finished (eligible_names fileList))%list in
   completes (start (processImagesWithWaitGroup src dst "blur")) (fun s =>
     console (log s) ≡ₚ lines) /\
   completes (start (processImagesWithChannel src dst "blur")) (fun s =>
     console (log s) ≡ₚ lines)).
Proof.
  intros Hrd.
  pose (g := fun a : Act => match a with Printf t => Some t | _ => None end).
  assert (forall a, is_sync a = true -> g a = None) as Hg by (by intros []).
  assert (forall filter,
            console (expected src dst filter)
            = (concat (map (fun f => console (script (processItem src dst filter f)))
                         (eligible fileList))
               ++ map finished (eligible_names fileList))%list) as Hex.
  { intros filter. unfold console at 1.
    rewrite (omap_expected src dst _ _ fileList Hrd). simpl. f_equal.
    apply console_lines. }
  split; [| split].
  - intros p q. split; [apply apply_grayscale_result | apply apply_blur_result].
  - intros lines.
    destruct (view_completes src dst g "grayscale" Hg) as [CA CB].
    change (omap g (expected src dst "grayscale"))
      with (console (expected src dst "grayscale")) in CA, CB.
    change (fun s : State => omap g (log s) ≡ₚ ?l)
      with (fun s : State => console (log s) ≡ₚ l) in CA, CB.
    rewrite Hex in CA, CB.
    rewrite (map_ext _ _ (grayscale_item_console src dst)) in CA, CB.
    rewrite concat_option_list in CA, CB. done.
  - intros lines.
    destruct (view_completes src dst g "blur" Hg) as [CA CB].
    change (omap g (expected src dst "blur"))
      with (console (expected src dst "blur")) in CA, CB.
    change (fun s : State => omap g (log s) ≡ₚ ?l)
      with (fun s : State => console (log s) ≡ₚ l) in CA, CB.
    rewrite Hex in CA, CB.
    rewrite (map_ext _ _ (blur_item_console src dst)) in CA, CB.
    rewrite concat_option_list in CA, CB. done.
Qed.

Lemma failures_are_reported_witness :
  @ioutil_ReadDir demo "photos"
  = inl [mkFileInfo "a.png" false; mkFileInfo "sub" true; mkFileInfo "b.txt" false] /\
  completes (E := demo) (start (processImagesWithWaitGroup "photos" "out" "grayscale"))
    (fun s => console (log s) ≡ₚ
       [grayscale_error "b.txt" "image: unknown format";
        finished "a.png"; finished "b.txt"]).
Proof.
  split; [reflexivity |].
  exact (proj1 (proj1 (proj2 (failures_are_reported demo "photos" "out" _ eq_refl)))).
Defined.

Lemma item_transforms {E : Env} (src dst filter : string) (f : FileInfo) :
  transforms (script (processItem src dst filter f))
  = match imaging_Open (filepath_Join src (Name f)) with
    | inl img =>
        if String.eqb filter "grayscale" then [Grayscale img]
        else if String.eqb filter "blur" then [Blur img 5%float]
        else []
    | inr _ => []
    end.
Proof.
  unfold processItem, applyGrayscaleFilter, applyBlurFilter.
  destruct (String.eqb filter "grayscale");
    [| destruct (String.eqb filter "blur")]; simpl;
    destruct (imaging_Open _) as [img | e]; simpl; try done;
    by destruct (imaging_Save _ _).
Qed.

Lemma concat_map_option {X Y Z : Type} (h : X -> option Y) (G : Y -> Z) (l : list X) :
  concat (map (fun x => match h x with Some y => [G y] | None => [] end) l)
  = map G (omap h l).
Proof.
  induction l as [| x l IH]; [done |]. simpl. rewrite IH. by destruct (h x).
Qed.

(** X14.  When the source directory lists [fileList]: in a complete run
    of either strategy the transforms called are, up to their order:
    with the filter "grayscale", one [imaging.Grayscale] for the image
    of every non-directory entry that could be opened; with the filter
    "blur", one [imaging.Blur] with the radius 5.0 for each of them;
    with any other filter, none.  No image is transformed twice, and
    none by the filter that was not asked for. *)
Theorem transforms_match_the_filter (E : Env) (src dst filter : string)
    (fileList : list FileInfo) :
  ioutil_ReadDir src = inl fileList ->
  let images :=
    omap (fun f =>
            match imaging_Open (filepath_Join src (Name f)) with
            | inl img => Some img
            | inr _ => None
            end) (eligible fileList) in
  let calls :=
    if String.eqb filter "grayscale" then map Grayscale images
    else if String.eqb filter "blur" then map (fun img => Blur img 5%float) images
    else [] in
  completes (start (processImagesWithWaitGroup src dst filter)) (fun s =>
    transforms (log s) ≡ₚ calls) /\
  completes (start (processImagesWithChannel src dst filter)) (fun s =>
    transforms (log s) ≡ₚ calls).
Proof.
  intros Hrd images calls.
  assert (transforms (expected src dst filter) = calls) as Hex.
  { unfold transforms. rewrite (omap_expected src dst _ _ fileList Hrd).
    rewrite omap_finished_lines by done. simpl. rewrite app_nil_r.
    erewrite map_ext; [| intros f; apply item_transforms].
    unfold calls, images.
    destruct (String.eqb filter "grayscale");
      [| destruct (String.eqb filter "blur")].
    - rewrite <- concat_map_option. f_equal. apply map_ext. intros f.
      by destruct (imaging_Open _).
    - rewrite <- concat_map_option. f_equal. apply map_ext. intros f.
      by destruct (imaging_Open _).
    - apply concat_nils. intros f. by destruct (imaging_Open _). }
  rewrite <- Hex.
  pose (g := fun a : Act =>
               match a with Grayscale _ | Blur _ _ => Some a | _ => None end).
  assert (forall a, is_sync a = true -> g a = None) as Hg by (by intros []).
  exact (view_completes src dst g filter Hg).
Qed.

Lemma transforms_match_the_filter_witness :
  @ioutil_ReadDir demo "photos"
  = inl [mkFileInfo "a.png" false; mkFileInfo "sub" true; mkFileInfo "b.txt" false] /\
  completes (E := demo) (start (processImagesWithChannel "photos" "out" "grayscale"))
    (fun s => transforms (log s) ≡ₚ [Grayscale (E := demo) "pixels"]).
Proof.
  split; [reflexivity |].
  exact (proj2 (transforms_match_the_filter demo "photos" "out" "grayscale" _ eq_refl)).
Defined.

(** ** A single worker works in the order of its script *)

Section Sequential.

Context {E : Env}.

Variables (c : nat) (b : M unit) (L0 : list Act).

Hypothesis Hb : worker_body b.
Hypothesis Hcap :
  c = 0%nat \/ (length (sent (script (dispatch c [b]))) <= c)%nat.

Lemma work_app l1 l2 : work (l1 ++ l2) = (work l1 ++ work l2)%list.
Proof. apply List.filter_app. Qed.

Lemma work_io l : forallb io_send l = true -> work l = l.
Proof.
  induction l as [| a l IH]; [done |]. simpl. intros H.
  apply andb_true_iff in H as [Ha Hl]. unfold work. simpl. rewrite Ha.
  f_equal. by apply IH.
Qed.

(** An action that does not block changes neither the log nor, unless
    it is a send, the pool. *)
Lemma exec_next a s s1 :
  exec a s = Next s1 ->
  log s1 = log s /\ length (pool s1) = length (pool s) /\
  ((forall v, a <> Send v) -> pool s1 = pool s).
Proof.
  destruct a; simpl; try (by intros [= <-]).
  - destruct (chan s) as [ch |]; [| done]. destruct (closed ch); [done |].
    destruct (length (buf ch) <? cap ch)%nat; [by intros [= <-] |].
    destruct (buf ch); [| done].
    destruct (find_receiver (pool s)) as [[[j body] k] |]; [| done].
    intros [= <-]. simpl. rewrite length_insert. split; [done |].
    split; [done |]. intros H. by destruct (H v).
  - destruct (chan s) as [ch |]; [| done]. destruct (closed ch); [done |].
    by intros [= <-].
  - destruct (wg s + n <? 0); [done |]. by intros [= <-].
  - destruct (wg s - 1 <? 0); [done |]. by intros [= <-].
  - destruct (wg s =? 0); [| done]. by intros [= <-].
Qed.

(** What a step does to the log and to the pool. *)
Lemma fire_cases i s s' :
  fire i s = Some s' -> panicked s = false -> panicked s' = false ->
  (exists a (k : Res a -> M unit),
     pool s !! i = Some (Do a k) /\ log s' = (log s ++ [a])%list /\
     pool s' !! i = Some (k (oracle a)) /\
     ((forall v, a <> Send v) -> forall j, j <> i -> pool s' !! j = pool s !! j)) \/
  (exists body k,
     pool s !! i = Some (Go body k) /\ log s' = log s /\
     pool s' = (<[i := k]> (pool s) ++ [body])%list) \/
  (exists body k t',
     pool s !! i = Some (RangeCh body k) /\ log s' = log s /\
     pool s' = <[i := t']> (pool s)).
Proof.
  unfold fire. intros H Hp Hp'.
  destruct (pool s !! i) as [[u | a k | body k | body k] |] eqn:Hi; try done.
  - left. exists a, k. split; [done |].
    destruct (exec a s) as [| | s1] eqn:Hx; [done | |].
    + injection H as <-. simpl in Hp'. done.
    + injection H as <-. simpl.
      destruct (exec_next _ _ _ Hx) as (H1 & H2 & H3).
      split; [by rewrite H1 |]. split.
      * apply list_lookup_insert_eq. rewrite H2. by eapply lookup_lt_Some.
      * intros Hns j Hj. rewrite list_lookup_insert_ne by done.
        by rewrite (H3 Hns).
  - right; left. exists body, k. injection H as <-. done.
  - right; right. destruct (chan s) as [ch |]; [| done].
    destruct (buf ch) as [| v bf].
    + destruct (closed ch); [| done]. injection H as <-.
      by exists body, k, k.
    + injection H as <-. by exists body, k, (iterate body k v).
Qed.

(** The pool of a skeleton with a single worker. *)
Lemma single_pool m ws sp s :
  inv c [b] L0 m ws sp s ->
  (forall t, pool s !! 1%nat = Some t -> seqcode t = true) /\
  (forall i a (k : Res a -> M unit),
     i <> 1%nat -> pool s !! i = Some (Do a k) -> io_send a = false) /\
  (forall i body k,
     pool s !! i = Some (Go body k) ->
     i = 0%nat /\ (pool s !! 1%nat = None -> body = b /\ length (pool s) = 1%nat)).
Proof.
  intros I. pose proof I as [Hp Hnp Hw Hph Hc Ha Ho Hg].
  assert (forall t, ws = [t] -> seqcode t = true) as Hsq.
  { intros t ->. apply Forall_cons in Hw as [[H _] _]. done. }
  assert (forall st, sup_at st ws s ->
            st = supervisor \/ st = closing \/ st = Ret tt) as Hsup.
  { intros st [[-> _] | [(-> & _) | (-> & _)]]; auto. }
  destruct Hph as [-> -> -> H1 H2 | -> H1 -> H2 H3 | b' Hb' -> -> H2 H3
          | st Hr H1 -> H2 H3 | st -> H1 -> H2 H3 H4 H5].
  - rewrite Hp. split; [done |]. split.
    + intros [| i] a k Hi H; [| done]. simpl in H. by injection H as <-.
    + intros [| i] body k H; done.
  - destruct ws as [| t [| t' ws]]; [| | simpl in H1; lia].
    + rewrite Hp. split; [done |]. split.
      * intros [| i] a k Hi H; [| done]. simpl in H. by injection H as <-.
      * intros [| i] body k H; done.
    + rewrite Hp. split; [| split].
      * intros t0 [= <-]. by apply Hsq.
      * intros [| [| i]] a k Hi H; done.
      * intros [| [| i]] body k H; [done | | done].
        simpl in H. injection H as ->. by specialize (Hsq _ eq_refl).
  - destruct ws as [| t ws]; [| by destruct ws].
    simpl in Hb'. injection Hb' as <-. rewrite Hp. split; [done |]. split.
    + intros [| i] a k Hi H; done.
    + intros [| i] body k H; [| done]. simpl in H. by injection H as <-.
  - destruct ws as [| t [| t' ws]]; [done | | done].
    rewrite Hp. destruct (Hsup st H2) as [-> | [-> | ->]];
      (split; [| split]);
      try (intros t0 [= <-]; by apply Hsq);
      try (intros [| [| [| i]]] a k Hi H; try done;
           simpl in H; try (by injection H as <-);
           destruct Hr as [-> | [v ->]]; try done;
           simpl in H; injection H as <-; simpl;
           by rewrite is_finished_finished);
      intros [| [| [| i]]] body k H; try done;
        simpl in H; try (destruct Hr as [-> | [v ->]]; done);
        injection H as ->; by specialize (Hsq _ eq_refl).
  - destruct ws as [| t [| t' ws]]; [done | | done].
    rewrite Hp. destruct (Hsup st H2) as [-> | [-> | ->]];
      (split; [| split]);
      try (intros t0 [= <-]; by apply Hsq);
      try (intros [| [| [| i]]] a k Hi H; try done;
           simpl in H; by injection H as <-);
      intros [| [| [| i]]] body k H; try done;
        simpl in H; injection H as ->; by specialize (Hsq _ eq_refl).
Qed.

Lemma in_sequence_step m ws sp s i s' :
  inv c [b] L0 m ws sp s -> step i s = Some s' -> panicked s' = false ->
  in_sequence b L0 s -> in_sequence b L0 s'.
Proof.
  intros I Hs Hp' K. apply step_fire in Hs as (Hp & He & Hf).
  destruct (single_pool _ _ _ _ I) as (S1 & S2 & S3).
  unfold in_sequence in *. rewrite <- K.
  destruct (fire_cases _ _ _ Hf Hp Hp')
    as [(a & k & Hi & Hl & Hi' & Hj) | [(body & k & Hi & Hl & Hpl)
                                        | (body & k & t' & Hi & Hl & Hpl)]].
  - rewrite Hl, work_app. destruct (decide (i = 1%nat)) as [-> | Hne].
    + rewrite Hi, Hi'. simpl. rewrite <- app_assoc. f_equal.
      unfold work. simpl. by destruct (io_send a).
    + pose proof (S2 _ _ _ Hne Hi) as Hio.
      rewrite (Hj ltac:(intros v ->; done) 1%nat ltac:(done)).
      unfold work at 2. simpl. rewrite Hio. by rewrite app_nil_r.
  - rewrite Hl. destruct (S3 _ _ _ Hi) as [-> H1]. f_equal. f_equal.
    destruct (pool s !! 1%nat) as [t |] eqn:H1'.
    + rewrite Hpl. rewrite lookup_app_l.
      * rewrite list_lookup_insert_ne by done. by rewrite H1'.
      * rewrite length_insert. by eapply lookup_lt_Some.
    + destruct (H1 eq_refl) as [-> Hlen]. rewrite Hpl.
      destruct (pool s) as [| t0 [| t1 p]]; done.
  - rewrite Hl. f_equal. f_equal. f_equal. rewrite Hpl.
    destruct (decide (i = 1%nat)) as [-> | Hne].
    + by specialize (S1 _ Hi).
    + by rewrite list_lookup_insert_ne.
Qed.

Lemma in_sequence_run sched s s' :
  Inv c [b] L0 s -> in_sequence b L0 s -> run sched s = Some s' ->
  in_sequence b L0 s'.
Proof.
  assert (Forall worker_body [b]) as Hbs by (by constructor).
  revert s. induction sched as [| i sched IH]; intros s I K H; simpl in H.
  - by injection H as <-.
  - destruct (step i s) as [s1 |] eqn:Hs; [| done].
    destruct I as (m & ws & sp & I).
    destruct (inv_step c [b] L0 Hbs Hcap _ _ _ _ _ _ I Hs)
      as (m1 & ws1 & sp1 & I1 & _).
    apply (IH s1); [by exists m1, ws1, sp1 | | done].
    apply (in_sequence_step m ws sp s i s1 I Hs); [by destruct I1 | done].
Qed.

End Sequential.

Section Ordered.

Context {E : Env}.

Variables (src dst filter : string).

Lemma work_applyFilters :
  work (script (applyFilters src dst filter))
  = ReadDir src ::
    match ioutil_ReadDir src with
    | inl fl => entries src dst filter fl
    | inr err => [Printf (read_error err)]
    end.
Proof.
  rewrite applyFilters_script.
  change (ReadDir src :: ?l ++ [WgDone])%list
    with ((ReadDir src :: l) ++ [WgDone])%list.
  rewrite work_app. change (work [WgDone]) with (@nil Act).
  rewrite app_nil_r. apply work_io. simpl.
  destruct (ioutil_ReadDir src) as [fl | err]; [apply entries_io | done].
Qed.

Lemma waitgroup_in_sequence :
  always (start (processImagesWithWaitGroup src dst filter))
    (in_sequence (applyFilters src dst filter) []).
Proof.
  intros sched s H.
  eapply (in_sequence_run 0 (applyFilters src dst filter) []);
    [apply applyFilters_body | by left | | | exact H].
  - apply (waitgroup_inv src dst filter []). reflexivity.
  - reflexivity.
Qed.

End Ordered.

(** X15.  Strategy A works through the listing one entry after the
    other.  At any time of any run, the calls into the packages, the
    reports and the sends executed so far are, in this order, the first
    actions of: the listing, then for every non-directory entry in the
    order of the listing the actions of the item processor; when main
    has returned they are all of these.  So no file is opened before
    the completion event of the entry before it has been sent. *)
Theorem waitgroup_works_in_order (E : Env) (src dst filter : string) :
  let plan :=
    ReadDir src ::
    match ioutil_ReadDir src with
    | inl fileList => entries src dst filter fileList
    | inr err => [Printf ("Error reading directory: " ++ err ++ nl)]
    end in
  always (start (processImagesWithWaitGroup src dst filter)) (fun s =>
    work (log s) `prefix_of` plan) /\
  completes (start (processImagesWithWaitGroup src dst filter)) (fun s =>
    work (log s) = plan).
Proof.
  intros plan.
  assert (plan = work (script (applyFilters src dst filter))) as ->
    by (by rewrite work_applyFilters).
  split.
  - eapply always_impl; [apply waitgroup_in_sequence |].
    intros s K. eexists. symmetry. exact K.
  - eapply completes_impl.
    + exact (completes_always _ _ _ (waitgroup_completes src dst filter)
               (waitgroup_in_sequence src dst filter)).
    + intros s ((_ & _ & _ & _ & _ & Hpool) & K & _).
      unfold in_sequence in K. rewrite Hpool in K.
      change ((work (log s) ++ [])%list
              = work (script (applyFilters src dst filter))) in K.
      by rewrite app_nil_r in K.
Qed.

(** ** What the workers have executed is in the log *)

Section Worked.

Context {E : Env}.

Variables (c : nat) (bodies : list (M unit)) (L0 : list Act).

Hypothesis Hbodies : Forall worker_body bodies.
Hypothesis Hcap :
  c = 0%nat \/ (length (sent (script (dispatch c bodies))) <= c)%nat.

(** What a step does to the log and to the workers. *)
Lemma step_workers m ws sp s i s' :
  inv c bodies L0 m ws sp s -> step i s = Some s' -> panicked s' = false ->
  (exists a (k : Res a -> M unit),
     pool s !! i = Some (Do a k) /\ log s' = (log s ++ [a])%list /\
     pool s' !! i = Some (k (oracle a)) /\
     forall j, S j <> i -> pool s' !! S j = pool s !! S j) \/
  (exists body k,
     pool s !! i = Some (Go body k) /\ log s' = log s /\
     pool s' = (<[i := k]> (pool s) ++ [body])%list) \/
  (exists body k t',
     pool s !! i = Some (RangeCh body k) /\ log s' = log s /\
     pool s' = <[i := t']> (pool s)).
Proof.
  intros I Hs Hp'. apply step_fire in Hs as (Hp & He & Hf).
  destruct (fire_cases _ _ _ Hf Hp Hp')
    as [(a & k & Hi & Hl & Hi' & Hj) | [H | H]]; [| by right; left | by right; right].
  left. exists a, k. split; [done |]. split; [done |]. split; [done |].
  intros j Hne.
  assert ((exists v, a = Send v) \/ (forall v, a <> Send v)) as [[v ->] | Hns]
    by (destruct a; eauto; by right).
  - unfold fire in Hf. rewrite Hi in Hf. simpl in Hf.
    destruct (chan s) as [ch |]; [| done]. destruct (closed ch); [by injection Hf as <- |].
    destruct (length (buf ch) <? cap ch)%nat.
    { injection Hf as <-. simpl. by rewrite list_lookup_insert_ne. }
    destruct (buf ch); [| done].
    destruct (find_receiver (pool s)) as [[[r body] k'] |] eqn:Hr; [| done].
    destruct (find_receiver_pool c bodies L0 _ _ _ _ _ _ _ I Hr) as [-> _].
    injection Hf as <-. simpl.
    rewrite list_lookup_insert_ne by done. by rewrite list_lookup_insert_ne.
  - apply Hj; [done | congruence].
Qed.

Ltac action_of H :=
  apply (f_equal (fun t : M unit =>
                    match t with Do a _ => Some a | _ => None end)) in H;
  simpl in H; try discriminate H; injection H as H.

(** Who does what: only a worker calls a package, reports or sends;
    only main starts a goroutine, and the goroutine it starts at the
    index of a worker is this worker; only main receives. *)
Lemma pool_roles m ws sp s :
  inv c bodies L0 m ws sp s ->
  (forall i a (k : Res a -> M unit),
     pool s !! i = Some (Do a k) -> io_send a = true ->
     exists j, i = S j /\ (j < length bodies)%nat) /\
  (forall i body k,
     pool s !! i = Some (Go body k) ->
     i = 0%nat /\
     forall j, length (pool s) = S j -> (j < length bodies)%nat ->
               bodies !! j = Some body) /\
  (forall i body k, pool s !! i = Some (RangeCh body k) -> i = 0%nat).
Proof.
  intros I. pose proof I as [Hp Hnp Hw Hph Hc Ha Ho Hg].
  pose proof (phase_length c bodies Hcap _ _ _ _ Hph) as Hlen.
  assert (forall j t, ws !! j = Some t -> seqcode t = true) as Hsq.
  { intros j t Hj. eapply Forall_forall in Hw; [| by eapply list_elem_of_lookup_2].
    by destruct Hw. }
  assert (forall j t, sp !! j = Some t ->
            t = supervisor \/ t = closing \/ t = Ret tt) as Hsp.
  { intros j t Hj.
    destruct Hph as [-> -> -> H1 H2 | -> H1 -> H2 H3 | b Hb -> -> H2 H3
          | st Hr H1 -> H2 H3 | st -> H1 -> H2 H3 H4 H5]; try done;
      (destruct j; [| done]); simpl in Hj; injection Hj as <-;
      destruct H2 as [[-> _] | [(-> & _) | (-> & _)]]; auto. }
  split; [| split].
  - intros i a k Hi Hio. rewrite Hp in Hi.
    apply lookup_pool in Hi as [[-> Hm] | [(j & -> & Hj) | (j & -> & Hj)]].
    + exfalso.
      destruct Hph as [-> -> -> H1 H2 | -> H1 -> H2 H3 | b Hb -> -> H2 H3
          | st Hr H1 -> H2 H3 | st -> H1 -> H2 H3 H4 H5]; try done.
      * action_of Hm. by subst a.
      * destruct (drop (length ws) bodies); [done |]. action_of Hm. by subst a.
      * destruct Hr as [-> | [v ->]]; [done |]. action_of Hm. subst a.
        simpl in Hio. by rewrite is_finished_finished in Hio.
    + exists j. split; [done |]. apply lookup_lt_Some in Hj. lia.
    + exfalso. destruct (Hsp _ _ Hj) as [H | [H | H]]; try done;
        action_of H; by subst a.
  - intros i body k Hi. rewrite Hp in Hi.
    apply lookup_pool in Hi as [[-> Hm] | [(j & -> & Hj) | (j & -> & Hj)]].
    + split; [done |]. intros j Hl Hlt.
      destruct Hph as [-> -> -> H1 H2 | -> H1 -> H2 H3 | b Hb -> -> H2 H3
          | st Hr H1 -> H2 H3 | st -> H1 -> H2 H3 H4 H5]; try done.
      * rewrite Hp in Hl. simpl in Hl. rewrite app_nil_r in Hl.
        destruct (drop (length ws) bodies) eqn:Hd; [| done].
        apply (f_equal length) in Hd. rewrite length_drop in Hd.
        simpl in Hd. lia.
      * rewrite Hp in Hl. simpl in Hl. rewrite app_nil_r in Hl.
        injection Hm as <- _. by replace j with (length ws) by lia.
      * destruct Hr as [-> | [v ->]]; done.
    + by specialize (Hsq _ _ Hj).
    + destruct (Hsp _ _ Hj) as [H | [H | H]]; done.
  - intros i body k Hi. rewrite Hp in Hi.
    apply lookup_pool in Hi as [[-> Hm] | [(j & -> & Hj) | (j & -> & Hj)]].
    + done.
    + by specialize (Hsq _ _ Hj).
    + destruct (Hsp _ _ Hj) as [H | [H | H]]; done.
Qed.

Lemma done_part_unique s j d d' :
  done_part bodies s j d -> done_part bodies s j d' -> d = d'.
Proof.
  intros (t & b & H1 & H2 & H3) (t' & b' & H1' & H2' & H3').
  assert (t' = t) as -> by congruence. assert (b' = b) as -> by congruence.
  rewrite H3 in H3'. by apply app_inv_tail in H3'.
Qed.

Lemma done_part_same s s' j d :
  ((j < length bodies)%nat -> pool s' !! S j = pool s !! S j) ->
  done_part bodies s j d -> done_part bodies s' j d.
Proof.
  intros H (t & b & H1 & H2 & H3). exists t, b.
  rewrite H; [done |]. by eapply lookup_lt_Some.
Qed.

(** A step of main or of the supervisor. *)
Lemma worked_same s s' l :
  worked bodies L0 s ->
  (forall j, (j < length bodies)%nat -> pool s' !! S j = pool s !! S j) ->
  log s' = (log s ++ l)%list -> Forall (fun a => io_send a = false) l ->
  worked bodies L0 s'.
Proof.
  intros (W1 & W2 & W3) Hpool Hlog Hl. split; [| split].
  - intros j t Hj Hlt. rewrite (Hpool _ Hlt) in Hj.
    destruct (W1 _ _ Hj Hlt) as [d Hd]. exists d.
    apply (done_part_same s); [| done]. auto.
  - intros j d a Hd Ha. rewrite Hlog. apply elem_of_app. left.
    apply (W2 j d); [| done]. apply (done_part_same s'); [| done].
    intros Hlt. symmetry. auto.
  - intros a Ha Hio. rewrite Hlog in Ha. apply elem_of_app in Ha as [Ha | Ha].
    + destruct (W3 _ Ha Hio) as [H | (j & d & Hd & Hin)]; [by left |].
      right. exists j, d. split; [| done].
      apply (done_part_same s); [| done]. auto.
    + rewrite Forall_forall in Hl. specialize (Hl _ Ha). congruence.
Qed.

(** A step of a worker. *)
Lemma worked_do s s' j0 a (k : Res a -> M unit) :
  worked bodies L0 s ->
  pool s !! S j0 = Some (Do a k) -> (j0 < length bodies)%nat ->
  log s' = (log s ++ [a])%list ->
  pool s' !! S j0 = Some (k (oracle a)) ->
  (forall j, j <> j0 -> pool s' !! S j = pool s !! S j) ->
  worked bodies L0 s'.
Proof.
  intros (W1 & W2 & W3) Hj0 Hlt Hlog Hj0' Hpool.
  destruct (W1 _ _ Hj0 Hlt) as [d0 Hd0].
  assert (done_part bodies s' j0 (d0 ++ [a])) as Hd0'.
  { destruct Hd0 as (t & b & H1 & H2 & H3). exists (k (oracle a)), b.
    split; [done |]. split; [done |].
    assert (t = Do a k) as -> by congruence.
    rewrite H3. simpl. by rewrite <- app_assoc. }
  split; [| split].
  - intros j t Hj Hlt'. destruct (decide (j = j0)) as [-> | Hne]; [eauto |].
    rewrite (Hpool _ Hne) in Hj. destruct (W1 _ _ Hj Hlt') as [d Hd].
    exists d. apply (done_part_same s); [| done]. intros _. by apply Hpool.
  - intros j d a' Hd Ha'. rewrite Hlog. apply elem_of_app.
    destruct (decide (j = j0)) as [-> | Hne].
    + rewrite (done_part_unique _ _ _ _ Hd Hd0') in Ha'.
      apply elem_of_app in Ha' as [Ha' | Ha']; [| by right].
      left. by apply (W2 j0 d0).
    + left. apply (W2 j d); [| done].
      apply (done_part_same s'); [| done]. intros _. symmetry. by apply Hpool.
  - intros a' Ha' Hio. rewrite Hlog in Ha'. apply elem_of_app in Ha' as [Ha' | Ha'].
    + destruct (W3 _ Ha' Hio) as [H | (j & d & Hd & Hin)]; [by left |].
      right. destruct (decide (j = j0)) as [-> | Hne].
      * exists j0, (d0 ++ [a])%list. split; [done |].
        rewrite (done_part_unique _ _ _ _ Hd Hd0) in Hin.
        apply elem_of_app. by left.
      * exists j, d. split; [| done].
        apply (done_part_same s); [| done]. intros _. by apply Hpool.
    + right. exists j0, (d0 ++ [a])%list. split; [done |].
      apply elem_of_app. by right.
Qed.

(** Main starts a goroutine. *)
Lemma worked_go s s' (body k : M unit) :
  worked bodies L0 s ->
  pool s !! 0%nat = Some (Go body k) ->
  log s' = log s ->
  pool s' = (<[0%nat := k]> (pool s) ++ [body])%list ->
  (forall j, length (pool s) = S j -> (j < length bodies)%nat ->
             bodies !! j = Some body) ->
  worked bodies L0 s'.
Proof.
  intros (W1 & W2 & W3) H0 Hlog Hpool Hnew.
  assert (forall j t, pool s !! S j = Some t -> pool s' !! S j = Some t) as Hold.
  { intros j t Hj. rewrite Hpool, lookup_app_l.
    - by rewrite list_lookup_insert_ne.
    - rewrite length_insert. by eapply lookup_lt_Some. }
  assert (forall j t, pool s' !! S j = Some t ->
            pool s !! S j = Some t \/
            (length (pool s) = S j /\ t = body)) as Hcases.
  { intros j t Hj. rewrite Hpool in Hj.
    apply lookup_app_Some in Hj as [Hj | [Hge Hj]].
    - left. by rewrite list_lookup_insert_ne in Hj.
    - right. rewrite length_insert in Hge, Hj.
      destruct (S j - length (pool s))%nat as [| n] eqn:Hn; [| done].
      simpl in Hj. injection Hj as <-. split; [lia | done]. }
  assert (forall j d, done_part bodies s j d -> done_part bodies s' j d) as Hkeep.
  { intros j d (t & b & H1 & H2 & H3). exists t, b. auto. }
  assert (forall j d, done_part bodies s' j d ->
            done_part bodies s j d \/ d = []) as Hback.
  { intros j d (t & b & H1 & H2 & H3).
    destruct (Hcases _ _ H1) as [H | [Hl ->]].
    - left. by exists t, b.
    - right. assert (b = body) as ->.
      { apply lookup_lt_Some in H2 as Hlt. specialize (Hnew _ Hl Hlt). congruence. }
      apply (f_equal length) in H3. rewrite length_app in H3.
      destruct d; [done | simpl in H3; lia]. }
  split; [| split].
  - intros j t Hj Hlt. destruct (Hcases _ _ Hj) as [H | [Hl ->]].
    + destruct (W1 _ _ H Hlt) as [d Hd]. eauto.
    + exists []. exists body, body. split; [done |]. split; [| done]. auto.
  - intros j d a Hd Ha. rewrite Hlog.
    destruct (Hback _ _ Hd) as [H | ->]; [by apply (W2 j d) |].
    by apply elem_of_nil in Ha.
  - intros a Ha Hio. rewrite Hlog in Ha.
    destruct (W3 _ Ha Hio) as [H | (j & d & Hd & Hin)]; [by left |].
    right. exists j, d. auto.
Qed.

Lemma worked_step m ws sp s i s' :
  inv c bodies L0 m ws sp s -> step i s = Some s' -> panicked s' = false ->
  worked bodies L0 s -> worked bodies L0 s'.
Proof.
  intros I Hs Hp' W. destruct (pool_roles _ _ _ _ I) as (R1 & R2 & R3).
  destruct (step_workers _ _ _ _ _ _ I Hs Hp')
    as [(a & k & Hi & Hl & Hi' & Hj) | [(body & k & Hi & Hl & Hpl)
                                        | (body & k & t' & Hi & Hl & Hpl)]].
  - destruct (io_send a) eqn:Hio.
    + destruct (R1 _ _ _ Hi Hio) as (j0 & -> & Hlt).
      apply (worked_do s s' j0 a k); try done.
      intros j Hne. apply Hj. congruence.
    + destruct i as [| j0].
      * apply (worked_same s s' [a]); try done; [| by constructor].
        intros j _. by apply Hj.
      * destruct (decide (j0 < length bodies)%nat) as [Hlt | Hge].
        -- apply (worked_do s s' j0 a k); try done.
           intros j Hne. apply Hj. congruence.
        -- apply (worked_same s s' [a]); try done; [| by constructor].
           intros j Hlt. apply Hj. intros [= ->]. lia.
  - destruct (R2 _ _ _ Hi) as [-> Hnew].
    by apply (worked_go s s' body k).
  - rewrite (R3 _ _ _ Hi) in Hpl.
    apply (worked_same s s' []); try done.
    + intros j _. rewrite Hpl. by rewrite list_lookup_insert_ne.
    + by rewrite app_nil_r.
Qed.

Lemma worked_run sched s s' :
  Inv c bodies L0 s -> worked bodies L0 s -> run sched s = Some s' ->
  worked bodies L0 s'.
Proof.
  revert s. induction sched as [| i sched IH]; intros s I W H; simpl in H.
  - by injection H as <-.
  - destruct (step i s) as [s1 |] eqn:Hs; [| done].
    destruct I as (m & ws & sp & I).
    destruct (inv_step c bodies L0 Hbodies Hcap _ _ _ _ _ _ I Hs)
      as (m1 & ws1 & sp1 & I1 & _).
    apply (IH s1); [by exists m1, ws1, sp1 | | done].
    apply (worked_step m ws sp s i s1 I Hs); [by destruct I1 | done].
Qed.

(** Before any goroutine is started. *)
Lemma worked_start s0 :
  dispatch_start c bodies L0 s0 -> worked bodies L0 s0.
Proof.
  intros (H1 & H2 & H3 & H4 & H5). split; [| split].
  - intros j t Hj. by rewrite H1 in Hj.
  - intros j d a (t & b & Hj & _). by rewrite H1 in Hj.
  - intros a Ha _. left. by rewrite <- H4.
Qed.

End Worked.

Section Processed.

Context {E : Env}.

Variables (src dst filter : string).

Lemma append_nl_inj (v v' : string) : v ++ nl = v' ++ nl -> v = v'.
Proof.
  revert v'. induction v as [| ch v IH]; intros [| ch' v']; simpl; intros H.
  - done.
  - injection H as _ H. by destruct v'.
  - injection H as _ H. by destruct v.
  - injection H as -> H. f_equal. by apply IH.
Qed.

Lemma finished_inj (v v' : string) : finished v = finished v' -> v = v'.
Proof.
  unfold finished. simpl. intros H. injection H as H. by apply append_nl_inj.
Qed.

(** A line of the collector on the console is the line of a value
    sent. *)
Lemma line_sent c (bodies : list (M unit)) L0 m ws sp s v :
  inv c bodies L0 m ws sp s ->
  finished v ∈ console (log s) -> Send v ∈ log s.
Proof.
  intros I H.
  assert (finished v ∈ finished_lines (log s)) as Hf.
  { unfold finished_lines. apply list_elem_of_In, filter_In.
    split; [by apply list_elem_of_In | apply is_finished_finished]. }
  destruct (inv_lines_prefix _ _ _ _ _ _ _ I) as [rest Hpre].
  assert (finished v ∈ map finished (sent (log s))) as Hm.
  { rewrite Hpre. apply elem_of_app. by left. }
  apply list_elem_of_In, in_map_iff in Hm as (v' & Hv & Hin).
  apply finished_inj in Hv as ->. apply list_elem_of_In in Hin.
  unfold sent in Hin. apply list_elem_of_omap in Hin as (a & Ha & Hs).
  destruct a; try done. by injection Hs as ->.
Qed.

(** The item processor looks at the name of the entry only. *)
Lemma processItem_name f f' :
  Name f = Name f' ->
  processItem src dst filter f = processItem src dst filter f'.
Proof. intros H. unfold processItem. by rewrite H. Qed.

(** The send is the last action of the item processor. *)
Lemma processItem_last f :
  script (processItem src dst filter f)
  = (removelast (script (processItem src dst filter f)) ++ [Send (Name f)])%list /\
  sent (removelast (script (processItem src dst filter f))) = [].
Proof.
  unfold processItem, applyGrayscaleFilter, applyBlurFilter.
  destruct (String.eqb filter "grayscale");
    [| destruct (String.eqb filter "blur")]; simpl;
    try (destruct (imaging_Open _) as [img | e]; simpl);
    try (destruct (imaging_Save _ _); simpl); done.
Qed.

Lemma sent_elem (l : list Act) v : Send v ∈ l -> v ∈ sent l.
Proof.
  intros H. unfold sent. apply list_elem_of_omap. by exists (Send v).
Qed.

(** A part of the work on the entries that holds the send of [v] holds
    all the actions of the item processor for an entry named [v]. *)
Lemma entries_done fl (d rest : list Act) v :
  (d ++ rest)%list = entries src dst filter fl -> Send v ∈ d ->
  exists f, f ∈ eligible fl /\ Name f = v /\
    forall a, a ∈ script (processItem src dst filter f) -> a ∈ d.
Proof.
  revert d. unfold entries, eligible.
  induction fl as [| f fl IH]; intros d Heq Hin; simpl in Heq.
  - apply app_eq_nil in Heq as [-> _]. by apply elem_of_nil in Hin.
  - assert (forall d', (d' ++ rest)%list
                       = concat (map (entry_script src dst filter) fl) ->
              Send v ∈ d' -> (forall a, a ∈ d' -> a ∈ d) ->
              exists f0, f0 ∈ List.filter (fun f1 => negb (IsDir f1)) (f :: fl) /\
                Name f0 = v /\
                forall a, a ∈ script (processItem src dst filter f0) -> a ∈ d)
      as Hlater.
    { intros d' Heq' Hin' Hsub. destruct (IH d' Heq' Hin') as (f0 & H1 & H2 & H3).
      exists f0. split; [| split; [done | auto]]. simpl.
      destruct (IsDir f); simpl; [done | apply elem_of_cons; by right]. }
    unfold entry_script in Heq at 1. destruct (IsDir f) eqn:Hdir; simpl in Heq.
    { apply (Hlater d); auto. }
    destruct (processItem_last f) as [Hlast Hnone].
    apply app_eq_inv in Heq as [(k & -> & Hk) | (k & Hk & Hrest)].
    + apply elem_of_app in Hin as [Hin | Hin].
      * exists f. split; [simpl; rewrite Hdir; simpl; apply elem_of_cons; by left |].
        split.
        -- apply sent_elem in Hin. rewrite processItem_sent in Hin.
           by apply list_elem_of_singleton in Hin.
        -- intros a Ha. apply elem_of_app. by left.
      * apply (Hlater k); [done | done |].
        intros a Ha. apply elem_of_app. by right.
    + destruct k as [| a0 k].
      * rewrite app_nil_r in Hk. subst d.
        exists f. split; [simpl; rewrite Hdir; simpl; apply elem_of_cons; by left |].
        split; [| done].
        apply sent_elem in Hin. rewrite processItem_sent in Hin.
        by apply list_elem_of_singleton in Hin.
      * exfalso. rewrite Hlast in Hk.
        assert (a0 :: k <> []) as Hne by done.
        rewrite (app_removelast_last a0 Hne), app_assoc in Hk.
        apply app_inj_tail in Hk as [Hk _].
        apply sent_elem in Hin.
        assert (v ∈ sent (d ++ removelast (a0 :: k))) as Hv
          by (rewrite sent_app; apply elem_of_app; by left).
        rewrite <- Hk, Hnone in Hv. by apply elem_of_nil in Hv.
Qed.

(** The same, for a part of the script of a worker. *)
Lemma worker_done fl (d rest : list Act) v :
  (d ++ rest)%list = (entries src dst filter fl ++ [WgDone])%list ->
  Send v ∈ d ->
  exists f, f ∈ eligible fl /\ Name f = v /\
    forall a, a ∈ script (processItem src dst filter f) -> a ∈ d.
Proof.
  intros Heq Hin.
  apply app_eq_inv in Heq as [(k & -> & Hk) | (k & Hk & Hrest)].
  - apply elem_of_app in Hin as [Hin | Hin].
    + destruct (entries_done fl (entries src dst filter fl) [] v) as (f & H1 & H2 & H3);
        [by rewrite app_nil_r | done |].
      exists f. split; [done |]. split; [done |].
      intros a Ha. apply elem_of_app. left. auto.
    + exfalso. destruct k as [| a0 [| a1 k]]; simpl in Hk.
      * by apply elem_of_nil in Hin.
      * injection Hk as <- _. by apply list_elem_of_singleton in Hin.
      * by destruct k.
  - by apply (entries_done fl d k v).
Qed.

Lemma waitgroup_worked :
  always (start (processImagesWithWaitGroup src dst filter))
    (worked [applyFilters src dst filter] []).
Proof.
  intros sched s H.
  eapply (worked_run 0 [applyFilters src dst filter] []);
    [apply waitgroup_bodies | by left | | | exact H].
  - apply (waitgroup_inv src dst filter []). reflexivity.
  - apply (worked_start 0), waitgroup_start.
Qed.

Lemma channel_worked fl :
  ioutil_ReadDir src = inl fl ->
  always (start (processImagesWithChannel src dst filter)) (fun s =>
    s = start (processImagesWithChannel src dst filter) \/
    worked (channel_workers src dst filter fl) [ReadDir src] s).
Proof.
  intros Hrd.
  destruct (channel_after_read src dst filter)
    as (s1 & He & Hs & Hdet & Hlog & Hch & Hwg & Hpan & Hpool).
  rewrite Hrd in Hpool.
  eapply always_step; [by left | exact Hdet |].
  assert (dispatch_start (length fl) (channel_workers src dst filter fl)
            [ReadDir src] s1) as Hstart by done.
  intros sched s H. right.
  eapply (worked_run (length fl) (channel_workers src dst filter fl) [ReadDir src]);
    [apply channel_workers_body | apply channel_fits | | | exact H].
  - exists (dispatch (length fl) (channel_workers src dst filter fl)), [], [].
    by apply inv_init; [apply channel_workers_body | ..].
  - by apply (worked_start (length fl)).
Qed.

End Processed.

(** X16.  "Finished processing" is printed after the processing.  When
    the source directory lists [fileList], at any time of any run of
    either strategy: if the line "Finished processing: <name>" of a
    non-directory entry is on the console, then every action of the item
    processor for this entry has been executed: its file has been
    opened and, if it could be opened, transformed and saved, and its
    failure, if any, has been reported. *)
Theorem finished_means_processed (E : Env) (src dst filter : string)
    (fileList : list FileInfo) :
  ioutil_ReadDir src = inl fileList ->
  let processed := fun s : State =>
    forall f, f ∈ eligible fileList ->
      finished (Name f) ∈ console (log s) ->
      forall a, a ∈ script (processItem src dst filter f) -> a ∈ log s in
  always (start (processImagesWithWaitGroup src dst filter)) processed /\
  always (start (processImagesWithChannel src dst filter)) processed.
Proof.
  intros Hrd processed. split.
  - intros sched s Hrun f Hf Hline a Ha.
    destruct (waitgroup_inv src dst filter sched s Hrun) as (m & ws & sp & I).
    destruct (waitgroup_worked src dst filter sched s Hrun) as (W1 & W2 & W3).
    pose proof (line_sent _ _ _ _ _ _ _ _ I Hline) as Hsend.
    destruct (W3 _ Hsend eq_refl) as [H | (j & d & Hd & Hin)];
      [by apply elem_of_nil in H |].
    apply (W2 j d); [done |].
    destruct Hd as (t & b & H1 & H2 & H3).
    destruct j as [| j]; [| done]. simpl in H2. injection H2 as <-.
    rewrite applyFilters_script, Hrd in H3.
    destruct d as [| a0 d]; [by apply elem_of_nil in Hin |].
    injection H3 as <- H3. apply elem_of_cons in Hin as [Hin | Hin]; [done |].
    destruct (worker_done src dst filter fileList d (script t) (Name f)
                (eq_sym H3) Hin) as (f' & _ & Hn & Hall).
    apply elem_of_cons. right. apply Hall.
    by rewrite (processItem_name src dst filter f' f Hn).
  - intros sched s Hrun f Hf Hline a Ha.
    destruct (channel_inv src dst filter fileList Hrd sched s Hrun)
      as [-> | (m & ws & sp & I)]; [by apply elem_of_nil in Hline |].
    destruct (channel_worked src dst filter fileList Hrd sched s Hrun)
      as [-> | (W1 & W2 & W3)]; [by apply elem_of_nil in Hline |].
    pose proof (line_sent _ _ _ _ _ _ _ _ I Hline) as Hsend.
    destruct (W3 _ Hsend eq_refl) as [H | (j & d & Hd & Hin)];
      [by apply list_elem_of_singleton in H |].
    apply (W2 j d); [done |].
    destruct Hd as (t & b & H1 & H2 & H3).
    unfold channel_workers in H2.
    apply list_lookup_fmap_Some in H2 as (i & -> & Hi).
    apply lookup_seq in Hi as [-> Hlt]. simpl in H3.
    destruct (lookup_lt_is_Some_2 fileList j Hlt) as [fj Hfj].
    rewrite (channelWorker_script src dst filter fileList j fj Hfj) in H3.
    assert (entry_script src dst filter fj = entries src dst filter [fj]) as Hone
      by (unfold entries; simpl; by rewrite app_nil_r).
    rewrite Hone in H3.
    destruct (worker_done src dst filter [fj] d (script t) (Name f)
                (eq_sym H3) Hin) as (f' & _ & Hn & Hall).
    apply Hall. by rewrite (processItem_name src dst filter f' f Hn).
Qed.

Lemma finished_means_processed_witness :
  @ioutil_ReadDir demo "photos"
  = inl [mkFileInfo "a.png" false; mkFileInfo "sub" true; mkFileInfo "b.txt" false] /\
  always (E := demo) (start (processImagesWithChannel "photos" "out" "grayscale"))
    (fun s =>
       forall f, f ∈ @eligible [mkFileInfo "a.png" false; mkFileInfo "sub" true;
                                mkFileInfo "b.txt" false] ->
         finished (Name f) ∈ console (log s) ->
         forall a, a ∈ script (processItem (E := demo) "photos" "out" "grayscale" f) ->
                   a ∈ log s).
Proof.
  split; [reflexivity |].
  exact (proj2 (finished_means_processed demo "photos" "out" "grayscale" _ eq_refl)).
Defined.

(** ** The program *)

Lemma main_cases {E : Env} (src dst filter task : string) :
  main src dst filter task = act (Printf usage) \/
  main src dst filter task = processImagesWithWaitGroup src dst filter \/
  main src dst filter task = processImagesWithChannel src dst filter \/
  main src dst filter task = act (Printf ("Invalid task method: " ++ task ++ nl)).
Proof.
  unfold main.
  destruct (_ || _); [by left |].
  destruct (String.eqb task "waitgrp"); [by right; left |].
  destruct (String.eqb task "channel"); [by right; right; left |].
  by right; right; right.
Qed.

Lemma main_strategy {E : Env} (src dst filter : string) :
  src <> "" -> dst <> "" -> filter <> "" ->
  main src dst filter "waitgrp" = processImagesWithWaitGroup src dst filter /\
  main src dst filter "channel" = processImagesWithChannel src dst filter.
Proof.
  intros H1 H2 H3. unfold main.
  apply String.eqb_neq in H1, H2, H3. by rewrite H1, H2, H3.
Qed.

(** X17.  Whatever the four flags, whatever the directory holds and
    whatever the image library answers, the program terminates: every
    run of [main] is finite, no run gets stuck before main has returned,
    and when main returns every goroutine has returned.  No run panics:
    there is no send on a closed channel, no second [close], no negative
    counter of the wait group and no index out of range. *)
Theorem program_always_terminates (E : Env) (src dst filter task : string) :
  completes (start (main src dst filter task)) all_returned /\
  always (start (main src dst filter task)) (fun s => panicked s = false).
Proof.
  destruct (strategies_return src dst filter) as [QA QB].
  destruct (strategies_never_panic src dst filter) as [PA PB].
  destruct (main_cases src dst filter task) as [-> | [-> | [-> | ->]]].
  - split.
    + eapply print_completes; try done. by constructor.
    + eapply print_always; done.
  - done.
  - done.
  - split.
    + eapply print_completes; try done. by constructor.
    + eapply print_always; done.
Qed.

(** X18.  With the flags [-src], [-dst] and [-filter] given, the flag
    [-task] selects the strategy, and both do the batch: every run of
    [main] with the task "waitgrp", and every run with the task
    "channel", lists the source directory once and ends with one
    completion event, and its "Finished processing" line, for every
    non-directory entry; with the task "waitgrp" the events are in the
    order of the listing. *)
Theorem task_selects_the_strategy (E : Env) (src dst filter : string) :
  src <> "" -> dst <> "" -> filter <> "" ->
  completes (start (main src dst filter "waitgrp")) (fun s =>
    listed (log s) = [src] /\
    sent (log s) = batch_names src /\
    finished_lines (log s) = map finished (batch_names src)) /\
  completes (start (main src dst filter "channel")) (fun s =>
    listed (log s) = [src] /\
    sent (log s) ≡ₚ batch_names src /\
    finished_lines (log s) = map finished (sent (log s))).
Proof.
  intros H1 H2 H3. destruct (main_strategy src dst filter H1 H2 H3) as [-> ->].
  assert (forall s : State, visible (log s) ≡ₚ expected src dst filter ->
            listed (log s) = [src]) as Hl.
  { intros s H. apply Permutation_singleton_r.
    rewrite <- (listed_expected src dst filter). unfold listed.
    rewrite <- (omap_visible _ (log s)) by (by intros []).
    by apply omap_Permutation. }
  split.
  - eapply completes_impl; [apply waitgroup_completes |].
    intros s (H & H4 & H5 & _). auto.
  - eapply completes_impl; [apply channel_completes |].
    intros s (H & H4 & H5 & _). auto.
Qed.

Lemma task_selects_the_strategy_witness :
  "photos" <> "" /\ "out" <> "" /\ "blur" <> "" /\
  completes (E := demo) (start (main "photos" "out" "blur" "waitgrp")) (fun s =>
    listed (log s) = ["photos"] /\
    sent (log s) = ["a.png"; "b.txt"] /\
    finished_lines (log s) = [finished "a.png"; finished "b.txt"]).
Proof.
  split; [done |]. split; [done |]. split; [done |].
  exact (proj1 (task_selects_the_strategy demo "photos" "out" "blur"
                  ltac:(done) ltac:(done) ltac:(done))).
Defined.

(** What a complete run of the program shows, whatever the schedule. *)
Lemma main_shows {E : Env} (src dst filter task : string) :
  exists shown : list Act,
    completes (start (main src dst filter task)) (fun s =>
      visible (log s) ≡ₚ shown).
Proof.
  destruct (shown_completes src dst filter) as [CA CB].
  destruct (main_cases src dst filter task) as [-> | [-> | [-> | ->]]].
  - exists [Printf usage]. by eapply print_completes.
  - by exists (expected src dst filter).
  - by exists (expected src dst filter).
  - exists [Printf ("Invalid task method: " ++ task ++ nl)].
    by eapply print_completes.
Qed.

(** X19.  The schedule changes the order, not the outcome.  Two complete
    runs of the program on the same flags have executed the same calls
    into the packages, the same sends and the same console lines, each
    as many times, whatever the interleaving of the goroutines: the same
    files are opened, transformed and written, and the console holds the
    same lines up to their order. *)
Theorem outcome_is_schedule_independent (E : Env) (src dst filter task : string)
    (sched1 sched2 : list nat) (s1 s2 : State) :
  run sched1 (start (main src dst filter task)) = Some s1 -> exited s1 = true ->
  run sched2 (start (main src dst filter task)) = Some s2 -> exited s2 = true ->
  visible (log s1) ≡ₚ visible (log s2) /\
  written (log s1) ≡ₚ written (log s2) /\
  console (log s1) ≡ₚ console (log s2).
Proof.
  intros H1 He1 H2 He2.
  destruct (main_shows src dst filter task) as (shown & _ & _ & Hpost).
  destruct (Hpost _ _ H1 He1) as [_ P1]. destruct (Hpost _ _ H2 He2) as [_ P2].
  assert (visible (log s1) ≡ₚ visible (log s2)) as Hv by (by rewrite P1, P2).
  split; [done |]. split.
  - rewrite <- (written_visible (log s1)), <- (written_visible (log s2)).
    unfold written. by apply omap_Permutation.
  - rewrite <- (console_visible (log s1)), <- (console_visible (log s2)).
    unfold console. by apply omap_Permutation.
Qed.

(** Two runs of Strategy B on [photos]: the workers one after the other
    as they are started, and the workers in the other order once all
    are started. *)
Lemma outcome_is_schedule_independent_witness :
  exists s1 s2 : @State demo,
    run [0; 0; 0; 0; 1; 1; 1; 1; 1; 0; 0; 2; 0; 0; 3; 3; 3; 3; 0; 4; 4;
         0; 0; 0; 0; 0]%nat
      (start (main "photos" "out" "grayscale" "channel")) = Some s1 /\
    exited s1 = true /\
    run [0; 0; 0; 0; 0; 0; 0; 0; 0; 3; 3; 3; 3; 2; 1; 1; 1; 1; 1; 4; 4;
         0; 0; 0; 0; 0]%nat
      (start (main "photos" "out" "grayscale" "channel")) = Some s2 /\
    exited s2 = true /\
    console (log s1) ≡ₚ console (log s2).
Proof.
  assert (exists s1 : @State demo,
            run [0; 0; 0; 0; 1; 1; 1; 1; 1; 0; 0; 2; 0; 0; 3; 3; 3; 3; 0; 4; 4;
                 0; 0; 0; 0; 0]%nat
              (start (main "photos" "out" "grayscale" "channel")) = Some s1 /\
            exited s1 = true) as (s1 & H1 & He1).
  { eexists. split; vm_compute; reflexivity. }
  assert (exists s2 : @State demo,
            run [0; 0; 0; 0; 0; 0; 0; 0; 0; 3; 3; 3; 3; 2; 1; 1; 1; 1; 1; 4; 4;
                 0; 0; 0; 0; 0]%nat
              (start (main "photos" "out" "grayscale" "channel")) = Some s2 /\
            exited s2 = true) as (s2 & H2 & He2).
  { eexists. split; vm_compute; reflexivity. }
  exists s1, s2.
  destruct (outcome_is_schedule_independent demo "photos" "out" "grayscale"
              "channel" _ _ _ _ H1 He1 H2 He2) as (_ & _ & H).
  repeat (split; [assumption |]). exact H.
Defined.


(** * The claims on the tasks, the capacity and the paths written *)

(** ** Which goroutine is which *)

Section Started.

Context {E : Env}.

Variables (c : nat) (bodies : list (M unit)) (L0 : list Act).

Hypothesis Hbodies : Forall worker_body bodies.
Hypothesis Hcap :
  c = 0%nat \/ (length (sent (script (dispatch c bodies))) <= c)%nat.




(** Once a goroutine has been started, the channel has been made. *)
Lemma inv_chan_made m ws sp s :
  inv c bodies L0 m ws sp s -> (1 < length (pool s))%nat ->
  exists ch, chan s = Some ch /\ cap ch = c.
Proof.
  intros I Hl. pose proof I as [Hp Hnp Hw Hph Hc Ha Ho Hg].
  assert (exists ch, chan s = Some ch) as [ch Hch].
  { assert (forall st, sup_at st ws s -> exists ch, chan s = Some ch) as Hsup.
    { intros st [[_ (ch & H & _)] | [(_ & (ch & H & _) & _) | (_ & H & _)]];
        eauto.
      unfold chan_closed in H. destruct (chan s) as [ch |]; [eauto | done]. }
    destruct Hph as [-> -> -> H1 H2 | -> H1 -> H2 H3 | b Hb -> -> H2 H3
          | st Hr H1 -> H2 H3 | st -> H1 -> H2 H3 H4 H5]; eauto.
    - rewrite Hp in Hl. simpl in Hl. lia.
    - destruct H2 as (ch & H & _). eauto.
    - destruct H2 as (ch & H & _). eauto. }
  exists ch. split; [done |]. by eapply inv_cap.
Qed.

(** The operations on the wait group and on the channel that a run can
    execute. *)
Lemma synchronization_account :
  synchronization L0 = [] ->
  synchronization (account L0 (script (dispatch c bodies)) [])
  ≡ₚ MakeChan c ::
     (replicate (length bodies) (WgAdd 1) ++ replicate (length bodies) WgDone
      ++ [WgWait; Close])%list.
Proof.
  intros HL0. unfold account.
  rewrite !synchronization_app, HL0, synchronization_lines, app_nil_r.
  change (script (dispatch c bodies))
    with ([MakeChan c] ++ script (spawn_all bodies collect))%list.
  rewrite synchronization_app. simpl. constructor.
  by apply synchronization_spawn.
Qed.

(** No channel but the one of the skeleton is ever made. *)
Lemma inv_make_chan m ws sp s n :
  synchronization L0 = [] ->
  inv c bodies L0 m ws sp s -> MakeChan n ∈ log s -> n = c.
Proof.
  intros HL0 I Hin.
  assert (MakeChan n ∈ synchronization (log s)) as Hs.
  { unfold synchronization. apply list_elem_of_In, filter_In.
    split; [by apply list_elem_of_In | done]. }
  assert (synchronization (log s)
          ⊆+ synchronization (account L0 (script (dispatch c bodies)) [])) as Hsub.
  { pose proof (log_sub _ _ _ _ _ _ _ I) as H.
    apply submseteq_Permutation in H as [k H].
    apply (filter_perm is_sync) in H.
    fold (synchronization (account L0 (script (dispatch c bodies)) [])) in H.
    rewrite H. unfold synchronization. rewrite List.filter_app.
    by apply submseteq_inserts_r. }
  rewrite (synchronization_account HL0) in Hsub.
  eapply elem_of_submseteq in Hs; [| exact Hsub].
  apply elem_of_cons in Hs as [[= ->] | Hs]; [done |].
  exfalso. apply elem_of_app in Hs as [Hs | Hs];
    [| apply elem_of_app in Hs as [Hs | Hs]].
  - by apply elem_of_replicate in Hs as [? _].
  - by apply elem_of_replicate in Hs as [? _].
  - decompose_list_elem_of; done.
Qed.

End Started.

Section Tasks.

Context {E : Env}.

Variables (src dst filter : string).








End Tasks.




(** C6.  Under Strategy B, when the source directory lists [fileList]:
    the channel is made, once, with the capacity [length fileList], and
    before any goroutine is started; no other channel is ever made.  At
    any time of any run a goroutine that is at a send can take its step,
    which puts the value in the buffer: it neither blocks nor panics,
    whatever the collector has received.  Every run ends with the
    channel made, with this capacity, and with the name of every
    non-directory entry sent, which are no more than the capacity. *)
Theorem channel_send_never_blocks (E : Env) (src dst filter : string)
    (fileList : list FileInfo) :
  ioutil_ReadDir src = inl fileList ->
  always (start (processImagesWithChannel src dst filter)) (fun s =>
    (forall ch, chan s = Some ch -> cap ch = length fileList) /\
    (forall i v (k : Res (Send v) -> M unit),
       pool s !! i = Some (Do (Send v) k) ->
       exists s', step i s = Some s' /\ panicked s' = false /\
                  buffer s' = (buffer s ++ [v])%list) /\
    ((1 < length (pool s))%nat ->
     exists ch, chan s = Some ch /\ cap ch = length fileList) /\
    (forall n, MakeChan n ∈ log s -> n = length fileList) /\
    (length (buffer s) <= length fileList)%nat) /\
  completes (start (processImagesWithChannel src dst filter)) (fun s =>
    synchronization (log s)
    ≡ₚ MakeChan (length fileList) ::
       (replicate (length fileList) (WgAdd 1)
        ++ replicate (length fileList) WgDone ++ [WgWait; Close])%list /\
    (exists ch, chan s = Some ch /\ cap ch = length fileList) /\
    sent (log s) ≡ₚ eligible_names fileList /\
    (length (sent (log s)) <= length fileList)%nat).
Proof.
  intros Hrd. split.
  - apply channel_any.
    + split; [done |]. split; [| split; [| split]].
      * intros [| i] v k H; [| done]. simpl in H. injection H as H.
        unfold processImagesWithChannel in H. done.
      * simpl. lia.
      * intros n H. by apply elem_of_nil in H.
      * simpl. lia.
    + intros fl m ws sp s Hrd' I.
      assert (fl = fileList) as -> by congruence.
      split; [intros ch H; by eapply inv_cap |]. split; [| split; [| split]].
      * intros i v k H.
        eapply (inv_send_step (length fileList)
                  (channel_workers src dst filter fileList) [ReadDir src]);
          [apply channel_fits | done | exact I | apply channel_cap | exact H].
      * intros Hl.
        exact (inv_chan_made (length fileList) _ _
                 (channel_fits src dst filter fileList) _ _ _ _ I Hl).
      * intros n H.
        exact (inv_make_chan (length fileList) _ [ReadDir src]
                 (channel_workers_body src dst filter fileList)
                 _ _ _ _ _ eq_refl I H).
      * pose proof (i_cap _ _ _ _ _ _ _ I) as H. unfold cap_ok in H.
        unfold buffer. destruct (chan s) as [ch |]; [| simpl; lia].
        destruct H as (_ & H & _). done.
    + intros err Hrd'. congruence.
  - apply channel_exit.
    + intros fl m ws sp s Hrd' I He.
      assert (fl = fileList) as -> by congruence.
      destruct (inv_exit _ _ _ (channel_fits src dst filter fileList) _ _ _ _ I He)
        as (_ & _ & Hcl & _).
      pose proof (inv_exit_synchronization (length fileList)
                    (channel_workers src dst filter fileList) [ReadDir src] _ _ _ _
                    (channel_workers_body src dst filter fileList)
                    (channel_fits src dst filter fileList) eq_refl I He) as Hsy.
      rewrite channel_workers_length in Hsy.
      destruct (inv_closed _ _ _ _ _ _ _ (channel_fits src dst filter fileList) I Hcl)
        as [_ Hpend].
      pose proof (inv_sent_perm _ _ _ _ _ _ _ I) as Hsent.
      rewrite Hpend, app_nil_r, channel_sent in Hsent. simpl in Hsent.
      split; [done |]. split; [| split; [done |]].
      * unfold chan_closed in Hcl. destruct (chan s) as [ch |] eqn:Hch; [| done].
        exists ch. split; [done |]. by eapply inv_cap.
      * rewrite Hsent. apply eligible_length.
    + intros err Hrd'. congruence.
Qed.

(** The listing [photos]: the channel is made for three entries, and
    the names of the two files are sent. *)
Lemma channel_send_never_blocks_witness :
  @ioutil_ReadDir demo "photos"
  = inl [mkFileInfo "a.png" false; mkFileInfo "sub" true; mkFileInfo "b.txt" false] /\
  completes (E := demo) (start (processImagesWithChannel "photos" "out" "blur"))
    (fun s =>
       synchronization (log s)
       ≡ₚ [MakeChan 3; WgAdd 1; WgAdd 1; WgAdd 1; WgDone; WgDone; WgDone;
           WgWait; Close] /\
       (exists ch, chan s = Some ch /\ cap ch = 3%nat) /\
       sent (log s) ≡ₚ ["a.png"; "b.txt"] /\
       (length (sent (log s)) <= 3)%nat).
Proof.
  split; [reflexivity |].
  exact (proj2 (channel_send_never_blocks demo "photos" "out" "blur" _ eq_refl)).
Defined.






